(** * DynAbs: scenario-based abstraction, probability engine and assembler

    A shallow embedding of the parts of [core/commons.py],
    [core/compute_probabilities.py] and [core/scenarioBasedAbstraction.py]
    that compute transition probability intervals, cluster noise samples,
    check that some action is enabled, and read the solver results back;
    and of the helpers around them: the rounding, counting and polygon
    functions, the blocks of states, the corners of the regions, the target
    points, the table of the scenario approach, the table printed in the
    console and the timers.

    Conventions of the embedding.
    - Python [int] is [Z]; a numpy index is a [Z] with numpy's rule that a
      negative index counts from the end and anything else out of range
      raises [IndexError] (here: [None]).
    - Python and numpy floats are exact rationals ([Q]): rounding is the
      decimal rounding the code asks for ([np.round], round half to even),
      not the binary rounding of the machine.  The square root and logarithm
      of the Hoeffding term have no rational value: the term is written over
      the real numbers ([Hoeffding.epsilon]), and the float that the code
      computes for it is an argument [epsilon] of the functions that use it.
    - An insertion-ordered [dict] that is enumerated is an association list;
      a [dict] or [set] that is only looked up is a [gmap] or [gset].
    - An exception is [None] in the option monad, or a [Raised] result
      where the code can also loop; [sys.exit] and [print] are events of an
      explicit trace. *)

From Stdlib Require Import ZArith QArith Qround Qminmax Lia Lqa String Ascii.
From Stdlib Require Reals.
From stdpp Require Import base option list gmap.

Open Scope Q_scope.

(** ** Numeric helpers ([numpy] and [core/commons.py]) *)

Module Numeric.

(** [np.rint]: the nearest integer, ties going to the even neighbour. *)
Definition rint (q : Q) : Z :=
  let f := Qfloor q in
  match Qcompare (q - inject_Z f) (1 # 2) with
  | Lt => f
  | Gt => (f + 1)%Z
  | Eq => if Z.even f then f else (f + 1)%Z
  end.

Definition pow10 (n : nat) : Q := inject_Z (10 ^ Z.of_nat n).

(** [np.round(a, decimals)] for [decimals >= 0]: scale, [rint], scale back. *)
Definition np_round (a : Q) (decimals : nat) : Q :=
  inject_Z (rint (a * pow10 decimals)) / pow10 decimals.

(** [floor_decimal(a, precision)]:
    [np.round(a - 0.5 * 10**(-precision), precision)]. *)
Definition floor_decimal (a : Q) (precision : nat) : Q :=
  np_round (a - (1 # 2) * (1 / pow10 precision)) precision.

Definition nr_decimals : nat := 5.
Definition Pmin : Q := 1 # 10000.

(** [sum(...)] of a sequence of floats, left to right from [0]. *)
Definition Qsum (l : list Q) : Q := fold_left Qplus l 0.

(** [sum(...)] of a sequence of integers. *)
Definition Zsum (l : list Z) : Z := fold_left Z.add l 0%Z.

(** The sum of [val] over the entries of [l] that [mask] selects. *)
Definition sum_where {A} (mask : A -> bool) (val : A -> Z) (l : list A) : Z :=
  Zsum (val <$> filter (fun a => mask a = true) l).

(** Indexing a numpy array (or its first axis) by one integer. *)
Definition np_index {A} (l : list A) (k : Z) : option A :=
  if decide (0 <= k)%Z then l !! Z.to_nat k
  else if decide (- Z.of_nat (length l) <= k)%Z
       then l !! Z.to_nat (k + Z.of_nat (length l))
       else None.

End Numeric.
Export Numeric.

(** The Hoeffding term of lines 187 and 188 of
    [core/compute_probabilities.py], over the real numbers:
    [np.sqrt(1/(2*Nsamples) * np.log(2/confidence))]. *)
Module Hoeffding.
Import Reals.
Local Open Scope R_scope.

Definition epsilon (Nsamples : Z) (confidence : R) : R :=
  sqrt (1 / (2 * IZR Nsamples) * ln (2 / confidence)).

End Hoeffding.

(** ** Exact mode: [computeScenarioBounds_sparse] *)

(** What the function computes before it formats: the arrays
    [probability_low], [probability_upp], [probability_approx],
    [successor_idxs] and the two deadlock bounds. *)
Record raw_bounds := RawBounds {
  probability_low : list Q;
  probability_upp : list Q;
  probability_approx : list Q;
  raw_successor_idxs : list Z;
  deadlock_low : Q;
  deadlock_upp : Q
}.

(** The returned dictionary.  The source turns every number into a string
    with [str]; the embedding keeps the number that is printed. *)
Record returnDict := ReturnDict {
  interval_strings : list (Q * Q);
  successor_idxs : list Z;
  approx_strings : list Q;
  deadlock_interval_string : Q * Q;
  deadlock_approx : Q
}.

(** What the numeric policy promises for a printed interval [iv] that comes
    from the bounds [low] and [upp]. *)
Definition clamped (low upp : Q) (iv : Q * Q) : Prop :=
  0 < iv.1 /\ 1 # 10000 <= iv.1 /\ iv.2 <= 1
  /\ (low <= upp -> low <= 1 -> 1 # 10000 <= upp -> iv.1 <= iv.2).

Module Sparse.
Section Sparse.
Context `{Countable K}.

(** [if idx in counts: counts[idx] += 1 else: counts[idx] = 1] on an
    insertion-ordered dictionary. *)
Fixpoint counts_incr (idx : Z) (counts : list (Z * Z)) : list (Z * Z) :=
  match counts with
  | [] => [(idx, 1%Z)]
  | (r, c) :: rest =>
      if decide (r = idx) then (r, (c + 1)%Z) :: rest
      else (r, c) :: counts_incr idx rest
  end.

(** One turn of [for s in range(Nsamples)]; [centers[s]] raises when the
    array has no row [s]. *)
Definition tally_step (c_tuple : gmap K Z) (centers : list K)
    (counts : list (Z * Z)) (s : nat) : option (list (Z * Z)) :=
  key ← centers !! s;
  Some (match c_tuple !! key with
        | Some idx => counts_incr idx counts
        | None => counts
        end).

Fixpoint tally (c_tuple : gmap K Z) (centers : list K) (ss : list nat)
    (counts : list (Z * Z)) : option (list (Z * Z)) :=
  match ss with
  | [] => Some counts
  | s :: ss' =>
      counts' ← tally_step c_tuple centers counts s;
      tally c_tuple centers ss' counts'
  end.

(** The body of [for i, (region, count) in enumerate(counts.items())]. *)
Definition region_bounds (Nsamples : Z) (memory : list (Q * Q))
    (rc : Z * Z) : option (Q * Q * Q * Z) :=
  let '(region, count) := rc in
  let k := (Nsamples - count)%Z in
  low ← (if decide (k > Nsamples)%Z then Some 0
         else fst <$> np_index memory k);
  upp ← snd <$> np_index memory k;
  Some (low, upp, inject_Z count / inject_Z Nsamples, region).

(** Lines 53 to 102: [centers] is the result of [computeRegionCenters],
    [c_tuple] is [partition['R']['c_tuple']], [memory] is
    [trans['memory']]. *)
Definition sparse_raw (Nsamples : Z) (c_tuple : gmap K Z) (memory : list (Q * Q))
    (centers : list K) : option (list (Z * Z) * raw_bounds) :=
  counts ← tally c_tuple centers (seq 0 (Z.to_nat Nsamples)) [];
  let k := (Nsamples - Zsum (snd <$> counts))%Z in
  row ← np_index memory k;
  let deadlock_low := 1 - snd row in
  deadlock_upp ← (if decide (k > Nsamples)%Z then Some 1
                  else (fun r => 1 - fst r) <$> np_index memory k);
  rows ← mapM (region_bounds Nsamples memory) counts;
  Some (counts,
        RawBounds (fmap (fun r => r.1.1.1) rows)
                  (fmap (fun r => r.1.1.2) rows)
                  (fmap (fun r => r.1.2) rows)
                  (fmap (fun r => r.2) rows)
                  deadlock_low deadlock_upp).

(** Lines 104 to 141. *)
Definition sparse_report (raw : raw_bounds) : returnDict :=
  let probs_lb := fmap (fun a => floor_decimal a nr_decimals) (probability_low raw) in
  let probs_ub := fmap (fun a => floor_decimal a nr_decimals) (probability_upp raw) in
  let interval_strings :=
    fmap (fun '(lb, ub) => (floor_decimal (Qmax (1 # 10000) lb) 5,
                            floor_decimal (Qmin 1 ub) 5))
         (zip probs_lb probs_ub) in
  let deadlock_lb := floor_decimal (deadlock_low raw) nr_decimals in
  let deadlock_ub := floor_decimal (deadlock_upp raw) nr_decimals in
  let deadlock_string :=
    (floor_decimal (Qmax (1 # 10000) deadlock_lb) 5,
     floor_decimal (Qmin 1 deadlock_ub) 5) in
  let probability_approx :=
    fmap (fun a => np_round a nr_decimals) (probability_approx raw) in
  let deadlock_approx := np_round (1 - Qsum probability_approx) nr_decimals in
  ReturnDict interval_strings (raw_successor_idxs raw) probability_approx
             deadlock_string deadlock_approx.

Definition computeScenarioBounds_sparse (Nsamples : Z) (c_tuple : gmap K Z)
    (memory : list (Q * Q)) (centers : list K) : option returnDict :=
  r ← sparse_raw Nsamples c_tuple memory centers;
  Some (sparse_report r.2).

(** The number of the first [Nsamples] samples whose centre is region [r],
    and the number whose centre is no region. *)
Definition hits (c_tuple : gmap K Z) (centers : list K) (r : Z) : Z :=
  Z.of_nat (length (filter (fun key => c_tuple !! key = Some r) centers)).

Definition misses (c_tuple : gmap K Z) (centers : list K) : Z :=
  Z.of_nat (length (filter (fun key => c_tuple !! key = None) centers)).

(** The dictionary [counts] after the samples [l]: one entry per region
    that was hit, with the number of hits. *)
Definition tally_inv (c_tuple : gmap K Z) (counts : list (Z * Z))
    (l : list K) : Prop :=
  NoDup (fst <$> counts)
  ∧ (∀ r c, (r, c) ∈ counts -> (1 <= c)%Z ∧ c = hits c_tuple l r)
  ∧ (∀ r, (0 < hits c_tuple l r)%Z -> r ∈ fst <$> counts)
  ∧ (Zsum (snd <$> counts) + misses c_tuple l)%Z = Z.of_nat (length l).

End Sparse.
End Sparse.

(** ** Interval mode: [computeScenarioBounds_error] *)

Module Interval.

(** Row [c] of the five parallel arrays of the function: [clusters['value']],
    and the two pairs of index arrays returned by [computeRegionIdx] for the
    lower corner ([imin], [iMin]) and the upper corner ([imax], [iMax]) of
    the cluster's box.  [computeRegionIdx] is not part of the sources at
    hand: its results are inputs here. *)
Record box := Box {
  value : Z;
  imin : list Z;
  imax : list Z;
  iMin : list Z;
  iMax : list Z
}.

(** A numpy array of counts, as the entry at every index tuple. *)
Definition ndarray : Type := list Z -> Z.

Definition zeros : ndarray := fun _ => 0%Z.

Record tallies := Tallies {
  counts_low : ndarray;
  counts_upp : ndarray;
  counts_goal_low : Z;
  counts_goal_upp : Z;
  counts_critical_low : Z;
  counts_critical_upp : Z
}.

(** [(v < 0).any()] and [(v > nrPerDim - 1).any()] on one row. *)
Definition any_negative (v : list Z) : bool :=
  existsb (fun i => (i <? 0)%Z) v.

Definition any_above (v nrPerDim : list Z) : bool :=
  existsb (fun p => (p.2 - 1 <? p.1)%Z) (zip v nrPerDim).

Definition fully_out (nrPerDim : list Z) (b : box) : bool :=
  any_negative (imax b) || any_above (imin b) nrPerDim.

Definition partially_out (nrPerDim : list Z) (b : box) : bool :=
  any_negative (imin b) || any_above (imax b) nrPerDim.

Definition in_single_region (nrPerDim : list Z) (b : box) : bool :=
  forallb (fun p => (p.1 =? p.2)%Z) (zip (imin b) (imax b))
  && negb (fully_out nrPerDim b).

Definition keep (nrPerDim : list Z) (b : box) : bool :=
  negb (in_single_region nrPerDim b) && negb (fully_out nrPerDim b).

(** [clusters['value'][mask].sum()]. *)
Definition masked_sum (mask : box -> bool) (boxes : list box) : Z :=
  sum_where mask value boxes.

(** An integer index on an axis of length [n]: negative ones count from
    the end. *)
Definition norm_index (n i : Z) : Z :=
  if (i <? 0)%Z then (i + n)%Z else i.

(** [a[key] += v] for an index tuple with one entry per axis. *)
Definition nd_add_at (nrPerDim : list Z) (a : ndarray) (key : list Z) (v : Z)
    : ndarray :=
  fun idx =>
    if decide (idx = zip_with norm_index nrPerDim key) then (a idx + v)%Z
    else a idx.

(** The first index of [slice(a, _)] and the end of [slice(_, a)] on an
    axis of length [n]. *)
Definition slice_bound (n a : Z) : Z :=
  if (a <? 0)%Z then Z.max (a + n) 0 else Z.min a n.

(** Whether [idx] is selected by [tuple(map(slice, lo, hi + 1))], one slice
    per axis. *)
Fixpoint in_slices (nrPerDim lo hi idx : list Z) : bool :=
  match nrPerDim, lo, hi, idx with
  | n :: nrPerDim', a :: lo', b :: hi', i :: idx' =>
      (slice_bound n a <=? i)%Z && (i <? slice_bound n (b + 1))%Z
      && in_slices nrPerDim' lo' hi' idx'
  | [], [], [], [] => true
  | _, _, _, _ => false
  end.

Definition nd_add_slices (nrPerDim : list Z) (a : ndarray) (lo hi : list Z)
    (v : Z) : ndarray :=
  fun idx => if in_slices nrPerDim lo hi idx then (a idx + v)%Z else a idx.

(** [range(a, b)] and [itertools.product]. *)
Definition range (a b : Z) : list Z := seqZ a (b - a).

Fixpoint product (ls : list (list Z)) : list (list Z) :=
  match ls with
  | [] => [[]]
  | l :: ls' => x ← l; (fun t => x :: t) <$> product ls'
  end.

(** The set of the tuples of [itertools.product] over the ranges
    [range(lo[d], hi[d] + 1)], one per axis. *)
Definition index_tuples (lo hi : list Z) : gset (list Z) :=
  list_to_set (product (zip_with (fun a b => range a (b + 1)) lo hi)).

(** [idx] is the tuple of a region of the grid, and [idx] lies between
    the corners [lo] and [hi] in every dimension. *)
Definition in_grid (nrPerDim idx : list Z) : Prop :=
  Forall2 (fun i n => (0 <= i < n)%Z) idx nrPerDim.

Definition in_box (lo hi idx : list Z) : Prop :=
  Forall2 (fun i ab => (ab.1 <= i <= ab.2)%Z) idx (zip lo hi).

Section Classify.
Variable nrPerDim : list Z.
Variables goal_idx critical_idx : gset (list Z).

(** Lines 223 to 236: one cluster that is in a single region. *)
Definition single_step (t : tallies) (b : box) : tallies :=
  let key := imin b in
  let val := value b in
  if decide (key ∈ goal_idx) then
    Tallies (counts_low t) (counts_upp t)
            (counts_goal_low t + val) (counts_goal_upp t + val)
            (counts_critical_low t) (counts_critical_upp t)
  else if decide (key ∈ critical_idx) then
    Tallies (counts_low t) (counts_upp t)
            (counts_goal_low t) (counts_goal_upp t)
            (counts_critical_low t + val) (counts_critical_upp t + val)
  else
    Tallies (nd_add_at nrPerDim (counts_low t) key val)
            (nd_add_at nrPerDim (counts_upp t) key val)
            (counts_goal_low t) (counts_goal_upp t)
            (counts_critical_low t) (counts_critical_upp t).

(** The branch of [single_step] that a cluster takes: its region is the
    ordinary region [idx], a goal region, or a critical region. *)
Definition in_region (idx : list Z) (b : box) : bool :=
  bool_decide (imin b ∉ goal_idx) && bool_decide (imin b ∉ critical_idx)
  && bool_decide (idx = zip_with norm_index nrPerDim (imin b)).

Definition in_goal_bucket (b : box) : bool := bool_decide (imin b ∈ goal_idx).

Definition in_critical_bucket (b : box) : bool :=
  bool_decide (imin b ∉ goal_idx) && bool_decide (imin b ∈ critical_idx).

(** [partially_out[x]]: the mask of all clusters, read at position [x]. *)
Definition partially_out_at (boxes : list box) (x : nat) : bool :=
  default false (partially_out nrPerDim <$> boxes !! x).

(** The two tests of lines 275 and 280 on the tuples of a box for the set
    [S] of goal or of critical tuples, and the tests of lines 286 and 289. *)
Definition box_within (S : gset (list Z)) (b : box) : bool :=
  bool_decide (index_tuples (iMin b) (iMax b) ⊆ S).

Definition all_in (S : gset (list Z)) (boxes : list box) (xb : nat * box)
    : bool :=
  box_within S xb.2 && negb (partially_out_at boxes xb.1).

Definition touches (S : gset (list Z)) (b : box) : bool :=
  negb (bool_decide (index_tuples (iMin b) (iMax b) ## S)).

(** Lines 247 to 290: the cluster at position [x] of the remaining ones. *)
Definition remaining_step (boxes : list box) (t : tallies) (xb : nat * box)
    : tallies :=
  let b := xb.2 in
  let val := value b in
  let upp := nd_add_slices nrPerDim (counts_upp t) (iMin b) (iMax b) val in
  if all_in goal_idx boxes xb then
    Tallies (counts_low t) upp
            (counts_goal_low t + val) (counts_goal_upp t + val)
            (counts_critical_low t) (counts_critical_upp t)
  else if all_in critical_idx boxes xb then
    Tallies (counts_low t) upp
            (counts_goal_low t) (counts_goal_upp t)
            (counts_critical_low t + val) (counts_critical_upp t + val)
  else
    Tallies (counts_low t) upp
            (counts_goal_low t)
            (if touches goal_idx b then counts_goal_upp t + val
             else counts_goal_upp t)%Z
            (counts_critical_low t)
            (if touches critical_idx b then counts_critical_upp t + val
             else counts_critical_upp t)%Z.

Definition enumerate {A} (l : list A) : list (nat * A) :=
  zip (seq 0 (length l)) l.

(** Lines 176 to 290: the counts after both loops, with the two absorbing
    counts in front. *)
Definition classify (boxes : list box) : Z * Z * tallies :=
  let counts_absorb_low := masked_sum (fully_out nrPerDim) boxes in
  let counts_absorb_upp := masked_sum (partially_out nrPerDim) boxes in
  let t0 := Tallies zeros zeros 0 0 0 0 in
  let t1 := fold_left single_step
              (filter (fun b => in_single_region nrPerDim b = true) boxes) t0 in
  let c_rem := filter (fun b => keep nrPerDim b = true) boxes in
  let t2 := fold_left (remaining_step boxes) (enumerate c_rem) t1 in
  (counts_absorb_low, counts_absorb_upp, t2).

(** Lines 296 to 307: the rows [[successor, count_low, count_upp]] of
    [counts]; [R_idx] is [partition['R']['idx']]. *)
Definition counts_nonzero (R_idx : gmap (list Z) Z) (t : tallies)
    : option (list (Z * Z * Z)) :=
  mapM (fun idx => r ← R_idx !! idx; Some (r, counts_low t idx, counts_upp t idx))
       (filter (fun idx => (0 < counts_upp t idx)%Z
                           ∧ (idx ∉ goal_idx) ∧ (idx ∉ critical_idx))
               (product (range 0 <$> nrPerDim))).

Definition counts_header (t : tallies) : list (Z * Z * Z) :=
  (if decide (0 < size critical_idx)%nat
   then [((-2)%Z, counts_critical_low t, counts_critical_upp t)] else [])
  ++ (if decide (0 < size goal_idx)%nat
      then [((-1)%Z, counts_goal_low t, counts_goal_upp t)] else []).

(** One row of [counts] in lines 314 to 323. *)
Definition successor_bounds (Nsamples : Z) (memory : list (Q * Q))
    (epsilon : Q) (row : Z * Z * Z) : option (Q * Q * Q * Z) :=
  let '(succ, cl, cu) := row in
  let discard_upp := Z.min (Nsamples - cl) Nsamples in
  low ← fst <$> np_index memory discard_upp;
  let upp := Qmin 1 (inject_Z cu / inject_Z Nsamples + epsilon) in
  let approx := ((inject_Z cl + inject_Z cu) / 2) / inject_Z Nsamples in
  Some (low, upp, approx, succ).

(** Lines 173 to 329; [epsilon] is the value of lines 187 and 188,
    [sqrt(1/(2*Nsamples) * log(2/confidence))]. *)
Definition error_raw (Nsamples : Z) (R_idx : gmap (list Z) Z)
    (memory : list (Q * Q)) (epsilon : Q) (boxes : list box)
    : option (list (Z * Z * Z) * raw_bounds) :=
  let '(counts_absorb_low, counts_absorb_upp, t) := classify boxes in
  nonzero ← counts_nonzero R_idx t;
  let counts := counts_header t ++ nonzero in
  let deadlock_low :=
    Qmax 0 (inject_Z counts_absorb_low / inject_Z Nsamples - epsilon) in
  deadlock_upp ← (fun r => 1 - fst r) <$> np_index memory counts_absorb_upp;
  rows ← mapM (successor_bounds Nsamples memory epsilon) counts;
  Some (counts,
        RawBounds (fmap (fun r => r.1.1.1) rows)
                  (fmap (fun r => r.1.1.2) rows)
                  (fmap (fun r => r.1.2) rows)
                  (fmap (fun r => r.2) rows)
                  deadlock_low deadlock_upp).

End Classify.

(** Lines 331 to 369. *)
Definition error_report (raw : raw_bounds) : returnDict :=
  let probs_lb :=
    fmap (fun a => Qmax Pmin (floor_decimal a nr_decimals)) (probability_low raw) in
  let probs_ub :=
    fmap (fun a => Qmin 1 (floor_decimal a nr_decimals)) (probability_upp raw) in
  let interval_strings := zip probs_lb probs_ub in
  let deadlock_lb := Qmax Pmin (floor_decimal (deadlock_low raw) nr_decimals) in
  let deadlock_ub := Qmin 1 (floor_decimal (deadlock_upp raw) nr_decimals) in
  let probability_approx :=
    fmap (fun a => np_round a nr_decimals) (probability_approx raw) in
  let deadlock_approx := np_round (1 - Qsum probability_approx) nr_decimals in
  ReturnDict interval_strings (raw_successor_idxs raw) probability_approx
             (deadlock_lb, deadlock_ub) deadlock_approx.

Definition computeScenarioBounds_error (nrPerDim : list Z)
    (goal_idx critical_idx : gset (list Z)) (Nsamples : Z)
    (R_idx : gmap (list Z) Z) (memory : list (Q * Q)) (epsilon : Q)
    (boxes : list box) : option returnDict :=
  r ← error_raw nrPerDim goal_idx critical_idx Nsamples R_idx memory epsilon boxes;
  Some (error_report r.2).

End Interval.

(** ** Outcomes of code that can raise or loop *)

Inductive exn := AssertionError | ValueError.

(** [Timeout] is the loop that has not ended when the fuel has. *)
Inductive result (A : Type) :=
  | Ok (a : A)
  | Raised (e : exn)
  | Timeout.
Arguments Ok {A} a.
Arguments Raised {A} e.
Arguments Timeout {A}.

(** ** Sample clustering in [_computeProbabilityBounds] *)

Module Clustering.

(** One row of the array of noise samples. *)
Definition point : Type := list Q.

(** [clusters0]: three lists that grow together. *)
Record clusters := Clusters {
  value : list Z;
  lb : list point;
  ub : list point
}.

(** The square of [np.linalg.norm(p - q)]. *)
Definition sqdist (p q : point) : Q :=
  Qsum ((fun ab => (ab.1 - ab.2) * (ab.1 - ab.2)) <$> zip p q).

(** [np.linalg.norm(p - q) < max_radius], decided on the squares: a norm
    is never below a radius that is not positive. *)
Definition distance_below (max_radius : Q) (p q : point) : bool :=
  if Qlt_le_dec 0 max_radius then
    if Qlt_le_dec (sqdist p q) (max_radius * max_radius) then true else false
  else false.

(** [a[mask]] for a boolean mask. *)
Definition mask_select {A} (mask : list bool) (a : list A) : list A :=
  snd <$> filter (fun p => p.1 = true) (zip mask a).

(** [np.min(rows, axis=0)] and [np.max(rows, axis=0)]; both raise on an
    array without rows. *)
Definition axis_min (rows : list point) : option point :=
  match rows with
  | [] => None
  | r :: rs => Some (fold_left (zip_with Qmin) rs r)
  end.

Definition axis_max (rows : list point) : option point :=
  match rows with
  | [] => None
  | r :: rs => Some (fold_left (zip_with Qmax) rs r)
  end.

(** Lines 725 to 743: [while len(remaining_samples) > 0]. *)
Fixpoint cluster_loop (fuel : nat) (max_radius : Q)
    (remaining_samples : list point) (remaining_samples_i : list nat)
    (clusters0 : clusters) : result clusters :=
  match remaining_samples with
  | [] => Ok clusters0
  | first :: _ =>
      match fuel with
      | O => Timeout
      | S fuel' =>
          let distances_below :=
            distance_below max_radius first <$> remaining_samples in
          let cluster_samples := mask_select distances_below remaining_samples in
          match axis_min cluster_samples, axis_max cluster_samples with
          | Some lo, Some hi =>
              cluster_loop fuel' max_radius
                (mask_select (negb <$> distances_below) remaining_samples)
                (mask_select (negb <$> distances_below) remaining_samples_i)
                (Clusters
                   (value clusters0 ++
                      [Z.of_nat (length (mask_select distances_below
                                                     remaining_samples_i))])
                   (lb clusters0 ++ [lo])
                   (ub clusters0 ++ [hi]))
          | _, _ => Raised ValueError
          end
      end
  end.

(** The part of [_computeProbabilityBounds] that makes [clusters0], lines
    712 to 760, with [samples] the array drawn in lines 707 to 709; the loop
    over the actions that follows hands the clusters, moved to the target
    of each action, to [computeScenarioBounds_error]. *)
Definition _computeProbabilityBounds (fuel : nat) (sample_clustering : Q)
    (noise_samples : Z) (samples : list point) : result clusters :=
  if Qlt_le_dec 0 sample_clustering then
    match cluster_loop fuel sample_clustering samples
            (seq 0 (length samples)) (Clusters [] [] []) with
    | Ok clusters0 =>
        if decide (Zsum (value clusters0) = noise_samples) then Ok clusters0
        else Raised AssertionError
    | r => r
    end
  else
    Ok (Clusters ((fun _ => 1%Z) <$> samples) samples samples).

(** The box from [lo] to [hi] is narrower than [2 * r] along every axis. *)
Definition box_ok (r : Q) (lo hi : point) : Prop :=
  ∀ d l u, lo !! d = Some l -> hi !! d = Some u -> u - l < 2 * r.

End Clustering.

(** ** The enabled actions: [_composeEnabledActions] and [define_actions] *)

Module Actions.

Inductive event :=
  | Print (text : string)
  | PrintCount (n : Z) (text : string)
  | PrintWarning (text : string)
  | SysExit.

(** The two places where the code records that an action is enabled:
    [self.actions['enabled']], a list of sets of action numbers with one
    entry per region, and [enabled_in] of every action object. *)
Record store := Store {
  enabled : list (gset Z);
  enabled_in : gmap Z (gset Z)
}.

(** [act.enabled_in] of the action numbered [a]. *)
Definition enabled_in_of (st : store) (a : Z) : gset Z :=
  default ∅ (enabled_in st !! a).

(** Every set [enabled_in] of [st] is within the one of [st']. *)
Definition grows (st st' : store) : Prop :=
  forall a, enabled_in_of st a ⊆ enabled_in_of st' a.

(** [itertools.product] of any iterables. *)
Fixpoint product {A} (ls : list (list A)) : list (list A) :=
  match ls with
  | [] => [[]]
  | l :: ls' => x ← l; (fun t => x :: t) <$> product ls'
  end.

(** [np.sum(tuples, axis=0)] of index tuples of one length; there is no
    such sum of no tuple at all. *)
Definition tuple_sum (tuples : list (list Z)) : option (list Z) :=
  match tuples with
  | [] => None
  | t :: ts => Some (fold_left (zip_with Z.add) ts t)
  end.

(** [l[i].add(a)] on a Python list of sets. *)
Definition list_set_add (l : list (gset Z)) (i a : Z) : option (list (gset Z)) :=
  _ ← np_index l i;
  Some (alter (fun s => s ∪ {[a]})
              (Z.to_nat (if decide (0 <= i)%Z then i
                         else (i + Z.of_nat (length l))%Z)) l).

Section Compose.
Variable R_idx : gmap (list Z) Z.
Variable critical : gset Z.
Variable tup2idx : gmap (list Z) Z.

(** Lines 410 to 419: one state of [s_enabledin]. *)
Definition enable_state (act_idx : Z) (st : store) (s : list Z) : option store :=
  state ← R_idx !! s;
  if decide (state ∈ critical) then Some st
  else
    enabled' ← list_set_add (enabled st) state act_idx;
    Some (Store enabled'
                (<[act_idx := enabled_in_of st act_idx ∪ {[state]}]>
                   (enabled_in st))).

Fixpoint enable_states (act_idx : Z) (st : store) (ss : list (list Z))
    : option store :=
  match ss with
  | [] => Some st
  | s :: ss' => st' ← enable_state act_idx st s; enable_states act_idx st' ss'
  end.

(** Lines 398 to 423: one pair of [zip(enabled_inv_keys, enabled_inv_vals)].
    Every value of [tup2idx] is the number of an action object, as
    [define_target_points] fills both dictionaries together.  The control
    error of lines 401 and 425 to 442 has no part in what is enabled and is
    left out. *)
Definition compose_step (acc : store * Z)
    (kv : list (list Z) * list (list (list Z))) : option (store * Z) :=
  let '(st, nr_act) := acc in
  let '(keys, vals_enab) := kv in
  key ← tuple_sum keys;
  act_idx ← tup2idx !! key;
  let s_elems := product vals_enab in
  s_enabledin ← (match s_elems with
                 | [] => None
                 | _ => mapM tuple_sum s_elems
                 end);
  st' ← enable_states act_idx st s_enabledin;
  Some (st', if decide (0 < size (enabled_in_of st' act_idx))%nat
             then (nr_act + 1)%Z else nr_act).

Fixpoint compose_loop (acc : store * Z)
    (kvs : list (list (list Z) * list (list (list Z)))) : option (store * Z) :=
  match kvs with
  | [] => Some acc
  | kv :: kvs' => acc' ← compose_step acc kv; compose_loop acc' kvs'
  end.

(** [_composeEnabledActions]; [enabled_sub_inv] has one insertion-ordered
    dictionary per subsystem, from the tuple of an action to the tuples of
    the states where it is enabled. *)
Definition _composeEnabledActions (nr_regions : nat)
    (enabled_sub_inv : list (list (list Z * list (list Z))))
    (enabled_in0 : gmap Z (gset Z)) : option (store * Z) :=
  let st0 := Store (replicate nr_regions ∅) enabled_in0 in
  let enabled_inv_keys := product (fmap (M:=list) (fmap (M:=list) fst) enabled_sub_inv) in
  let enabled_inv_vals := product (fmap (M:=list) (fmap (M:=list) snd) enabled_sub_inv) in
  compose_loop (st0, 0%Z) (zip enabled_inv_keys enabled_inv_vals).

(** Lines 310 to 327: one region tried for one extra action; [LP_solve] is
    what [LP.solve] answers for the action and the region. *)
Definition extra_try (LP_solve : Z -> Z -> bool) (act_idx : Z) (st : store)
    (s_min : Z) : option store :=
  if decide (s_min ∈ critical) then Some st
  else if LP_solve act_idx s_min then
    enabled' ← list_set_add (enabled st) s_min act_idx;
    Some (Store enabled'
                (<[act_idx := enabled_in_of st act_idx ∪ {[s_min]}]>
                   (enabled_in st)))
  else Some st.

Fixpoint extra_regions (LP_solve : Z -> Z -> bool) (act_idx : Z) (st : store)
    (regions : list Z) : option store :=
  match regions with
  | [] => Some st
  | s :: regions' =>
      st' ← extra_try LP_solve act_idx st s;
      extra_regions LP_solve act_idx st' regions'
  end.

Fixpoint extra_actions (LP_solve : Z -> Z -> bool) (nr_regions : nat)
    (st : store) (extra_act : list Z) : option store :=
  match extra_act with
  | [] => Some st
  | a :: extra_act' =>
      st' ← extra_regions LP_solve a st (Z.of_nat <$> seq 0 nr_regions);
      extra_actions LP_solve nr_regions st' extra_act'
  end.

(** Lines 289 to 372 of [define_actions], from the call of
    [_composeEnabledActions] on: the trace of what is printed, the store,
    and whether the function returns ([true]) or the process has exited
    ([false]).  The partition plots of lines 353 to 364 are left out. *)
Definition define_actions (nr_regions : nat)
    (enabled_sub_inv : list (list (list Z * list (list Z))))
    (enabled_in0 : gmap Z (gset Z)) (LP_solve : Z -> Z -> bool)
    (extra_act : list Z) : option (list event * store * bool) :=
  r ← _composeEnabledActions nr_regions enabled_sub_inv enabled_in0;
  let '(st, nr_act) := r in
  st' ← extra_actions LP_solve nr_regions st extra_act;
  let trace := [PrintCount nr_act "actions enabled"] in
  if decide (nr_act = 0%Z) then
    Some (trace ++ [PrintWarning "No actions enabled at all, so terminate";
                    SysExit], st', false)
  else
    Some (trace ++ [Print "Enabled actions define - time:"], st', true).

End Compose.
End Actions.

(** ** Reading the solver results: [loadPRISMresults] *)

Module Prism.
Open Scope string_scope.

(** A field of the policy file as [pd.read_csv] gives it: the text of the
    field, or nothing (NaN) where the field is empty. *)
Definition field : Type := option string.

(** An entry of [policy_all] after [fillna(-1)]. *)
Inductive entry :=
  | Text (s : string)
  | Number (z : Z).

Definition fillna (z : Z) (f : field) : entry :=
  match f with
  | Some s => Text s
  | None => Number z
  end.

(** [s.split(sep)] for a separator of one character. *)
Fixpoint split (sep : ascii) (s : string) : list string :=
  match s with
  | EmptyString => [EmptyString]
  | String c s' =>
      if Ascii.eqb c sep then EmptyString :: split sep s'
      else match split sep s' with
           | piece :: pieces => String c piece :: pieces
           | [] => [String c EmptyString]
           end
  end.

Definition digit_of (c : ascii) : option Z :=
  let n := nat_of_ascii c in
  if (48 <=? n)%nat && (n <=? 57)%nat then Some (Z.of_nat (n - 48)) else None.

Fixpoint digits_value (acc : Z) (s : string) : option Z :=
  match s with
  | EmptyString => Some acc
  | String c s' => d ← digit_of c; digits_value (10 * acc + d)%Z s'
  end.

(** The white space that [int] ignores around the number. *)
Definition is_space (c : ascii) : bool :=
  let n := nat_of_ascii c in
  ((9 <=? n)%nat && (n <=? 13)%nat) || ((28 <=? n)%nat && (n <=? 32)%nat).

Fixpoint lstrip (s : list ascii) : list ascii :=
  match s with
  | c :: s' => if is_space c then lstrip s' else s
  | [] => []
  end.

Definition strip (s : string) : string :=
  string_of_list_ascii
    (rev (lstrip (rev (lstrip (list_ascii_of_string s))))).

(** [int(s)] of a text in the Latin alphabet: white space around an
    optional sign and decimal digits; any other text raises. *)
Definition py_int (s : string) : option Z :=
  match strip s with
  | EmptyString => None
  | String "-" (String c s') => Z.opp <$> digits_value 0 (String c s')
  | String "+" (String c s') => digits_value 0 (String c s')
  | s0 => digits_value 0 s0
  end.

(** Lines 564 to 572: one entry of the policy. *)
Definition policy_entry (value : entry) : option Z :=
  match value with
  | Number z => if decide (z ≠ (-1)%Z) then None else Some z
  | Text s => piece ← split "_" s !! 1%nat; py_int piece
  end.

Record results := Results {
  optimal_policy : list (list Z);
  optimal_reward : list Q
}.

(** [policy_rows] and [vector_rows] are the rows that
    [pd.read_csv(..., header=None)] reads from the two files;
    [problem_type] is the truth value of [self.spec.problem_type]. *)
Definition loadPRISMresults (problem_type : bool)
    (policy_rows : list (list field)) (vector_rows : list (list Q))
    : option results :=
  let policy_all := (fun row => fillna (-1) <$> drop 3 row) <$> policy_rows in
  let policy_all := reverse policy_all in
  let rewards_k0 := drop 3 vector_rows in
  let optimal_reward := concat rewards_k0 in
  let optimal_reward :=
    if problem_type then (fun v => 1 - v)%Q <$> optimal_reward
    else optimal_reward in
  optimal_policy ← mapM (mapM policy_entry) policy_all;
  Some (Results optimal_policy optimal_reward).

End Prism.

(** ** Ancillary functions of [core/commons.py] *)

Module Commons.


(** The entry of Pascal's triangle in row [n] and column [k]. *)
Fixpoint binom (n k : nat) : nat :=
  match k, n with
  | O, _ => 1
  | S _, O => 0
  | S k', S n' => binom n' k' + binom n' k
  end.

End Commons.

(** [point_in_poly(x, y, poly)], lines 283 to 303. *)
Module Polygon.

Definition vertex : Type := (Q * Q)%type.

(** The variables that the loop carries from one edge to the next:
    [inside], the vertex [(p1x, p1y)], and [xints], which is not bound
    before its first assignment. *)
Record scan := Scan {
  inside : bool;
  p1 : vertex;
  xints : option Q
}.

(** The body of the loop for the vertex [p2 = poly[i % n]].  Reading
    [xints] while it is not bound raises ([None]). *)
Definition edge_step (x y : Q) (st : scan) (p2 : vertex) : option scan :=
  let '(p1x, p1y) := p1 st in
  let '(p2x, p2y) := p2 in
  if negb (Qle_bool y (Qmin p1y p2y)) then
    if Qle_bool y (Qmax p1y p2y) then
      if Qle_bool x (Qmax p1x p2x) then
        let xints' :=
          if negb (Qeq_bool p1y p2y)
          then Some ((y - p1y) * (p2x - p1x) / (p2y - p1y) + p1x)
          else xints st in
        if Qeq_bool p1x p2x then Some (Scan (negb (inside st)) p2 xints')
        else
          xi ← xints';
          Some (Scan (if Qle_bool x xi then negb (inside st) else inside st)
                     p2 xints')
      else Some (Scan (inside st) p2 (xints st))
    else Some (Scan (inside st) p2 (xints st))
  else Some (Scan (inside st) p2 (xints st)).

Fixpoint edge_loop (x y : Q) (poly : list vertex) (idxs : list nat) (st : scan)
    : option scan :=
  match idxs with
  | [] => Some st
  | i :: idxs' =>
      p2 ← poly !! (i mod length poly)%nat;
      st' ← edge_step x y st p2;
      edge_loop x y poly idxs' st'
  end.

(** [poly[0]] raises on a polygon without vertices. *)
Definition point_in_poly (x y : Q) (poly : list vertex) : option bool :=
  let n := length poly in
  p0 ← poly !! 0%nat;
  st ← edge_loop x y poly (seq 0 (n + 1)) (Scan false p0 None);
  Some (inside st).

(** Whether the edge from [(p1x, p1y)] to [(p2x, p2y)] counts for the
    point: the four tests of the loop body on that edge alone. *)
Definition crosses (x y : Q) (e : vertex * vertex) : bool :=
  let '((p1x, p1y), (p2x, p2y)) := e in
  negb (Qle_bool y (Qmin p1y p2y)) && Qle_bool y (Qmax p1y p2y)
  && Qle_bool x (Qmax p1x p2x)
  && (Qeq_bool p1x p2x
      || Qle_bool x ((y - p1y) * (p2x - p1x) / (p2y - p1y) + p1x)).

(** The edges of the closed polygon, each vertex with the next one and the
    last with the first. *)
Definition edges (poly : list vertex) : list (vertex * vertex) :=
  match poly with
  | [] => []
  | p :: ps => zip poly (ps ++ [p])
  end.

Definition crossings (x y : Q) (poly : list vertex) : nat :=
  length (filter (fun e => crosses x y e = true) (edges poly)).


End Polygon.

(** [setStateBlock] of [core/commons.py], lines 345 to 392, and the width
    and origin of the partition in [define_states]. *)
Module Grid.

(** [np.linspace(start, stop, num)]: [num] points from [start], evenly
    spaced, the last one set to [stop]; a negative [num] raises. *)
Definition linspace (start stop : Q) (num : Z) : option (list Q) :=
  if decide (num < 0)%Z then None
  else
    let div := (num - 1)%Z in
    let delta := stop - start in
    let y := (fun i => (if decide (0 < div)%Z
                        then inject_Z i * (delta / inject_Z div)
                        else inject_Z i * delta) + start) <$> seqZ 0 num in
    Some (if decide (1 < num)%Z then <[Z.to_nat (num - 1) := stop]> y else y).

(** An operation on two one-dimensional arrays, with numpy's rule that an
    array of length one is stretched to the length of the other. *)
Definition broadcast {A B C} (f : A -> B -> C) (a : list A) (b : list B)
    : option (list C) :=
  if decide (length a = length b) then Some (zip_with f a b)
  else match a, b with
       | [x], _ => Some (f x <$> b)
       | _, [y] => Some ((fun x => f x y) <$> a)
       | _, _ => None
       end.

(** The three entries of the dictionary [partition] that the function
    reads. *)
Record partition_setup := PartitionSetup {
  nrPerDim : list Z;
  width : list Q;
  origin : list Q
}.

(** A keyword argument: the text ['all'], or a list of coordinates. *)
Inductive block_arg :=
  | All
  | Coordinates (value : list Q).

(** How the function ends when it raises nothing: with the array of the
    block, or in [sys.exit()] after printing the two numbers. *)
Inductive block :=
  | Rows (rows : list (list Q))
  | Exit (stateDim nrArgs : nat).

(** Lines 379 to 390: [row[i]] for the argument [value]. *)
Definition block_row (partition : partition_setup) (center_domain : list Q)
    (i : nat) (value : block_arg) : option (list Q) :=
  match value with
  | All =>
      c ← center_domain !! i;
      o ← origin partition !! i;
      n ← nrPerDim partition !! i;
      linspace (- c + o) (c + o) n
  | Coordinates value => Some value
  end.

Definition setStateBlock (partition : partition_setup) (kwargs : list block_arg)
    : option block :=
  let nrArgs := length kwargs in
  let stateDim := length (nrPerDim partition) in
  if decide (nrArgs ≠ length (nrPerDim partition)) then
    Some (Exit stateDim nrArgs)
  else
    center_domain ←
      broadcast (fun n w => (inject_Z n - 1) * (1 # 2) * w)
                (nrPerDim partition) (width partition);
    row ← mapM (fun iv => block_row partition center_domain iv.1 iv.2)
               (zip (seq 0 (length kwargs)) kwargs);
    Some (Rows (Actions.product row)).

(** Lines 139 and 140 of [define_states] in
    [core/scenarioBasedAbstraction.py]:
    [np.array([-1,1]) @ boundary.T / number] and
    [0.5 * np.ones(2) @ boundary.T], for the rows [[lower, upper]] of
    [boundary]. *)
Definition partition_width (boundary : list (Q * Q)) (number : list Z)
    : option (list Q) :=
  broadcast (fun b n => (-1 * b.1 + 1 * b.2) / inject_Z n) boundary number.

Definition partition_origin (boundary : list (Q * Q)) : list Q :=
  (fun b => (1 # 2) * b.1 + (1 # 2) * b.2) <$> boundary.

(** The centre of region [i] along an axis with [n] regions of width [w]
    around [o]. *)
Definition centre (o w : Q) (n : Z) (i : nat) : Q :=
  o + (inject_Z (Z.of_nat i) - (inject_Z n - 1) / 2) * w.

End Grid.

(** ** The scenario table: [_loadScenarioTable] *)

Module ScenarioTable.

(** How the function ends when it raises nothing: with the array
    [memory], or in [sys.exit] with a message, when there is no table
    file. *)
Inductive loaded :=
  | Memory (memory : list (Q * Q))
  | ExitNoFile.

Section Load.
(** Python's [float] on a text; [None] is [ValueError]. *)
Variable float : string -> option Q.

(** [memory[i] = value] for a row index [i] and a list [value] of one or
    two numbers: one number fills both columns. *)
Definition set_row (memory : list (Q * Q)) (i : Z) (value : list Q)
    : option (list (Q * Q)) :=
  vals ← match value with
         | [a; b] => Some (a, b)
         | [a] => Some (a, a)
         | _ => None
         end;
  _ ← np_index memory i;
  Some (<[Z.to_nat (if decide (0 <= i)%Z then i
                    else (i + Z.of_nat (length memory))%Z) := vals]> memory).

(** Lines 676 to 679: one row of the reader. *)
Definition load_row (memory : list (Q * Q)) (row : list string)
    : option (list (Q * Q)) :=
  field ← row !! 0%nat;
  let strSplit := Prism.split "," field in
  value ← mapM float (drop (length strSplit - 2) strSplit);
  first ← strSplit !! 0%nat;
  i ← Prism.py_int first;
  set_row memory i value.

Fixpoint load_rows (memory : list (Q * Q)) (rows : list (list string))
    : option (list (Q * Q)) :=
  match rows with
  | [] => Some memory
  | row :: rows' => memory' ← load_row memory row; load_rows memory' rows'
  end.

(** [file] is nothing when [tableFile] is no file, and else the rows that
    [csv.reader(csvfile, delimiter=' ', quotechar='|')] yields; [next]
    raises when there is no header row, [np.full] when [k + 1] is
    negative. *)
Definition _loadScenarioTable (file : option (list (list string))) (k : Z)
    : option loaded :=
  match file with
  | None => Some ExitNoFile
  | Some reader =>
      match reader with
      | [] => None
      | _ :: rows =>
          if decide (k + 1 < 0)%Z then None
          else Memory <$> load_rows (replicate (Z.to_nat (k + 1)) (-1, -1)) rows
      end
  end.

(** What a row of the reader asks for in a table of [len] rows: the
    number of the row that it writes, and the two entries. *)
Definition row_entry (len : nat) (row : list string) : option (nat * (Q * Q)) :=
  field ← row !! 0%nat;
  let strSplit := Prism.split "," field in
  value ← mapM float (drop (length strSplit - 2) strSplit);
  vals ← match value with
         | [a; b] => Some (a, b)
         | [a] => Some (a, a)
         | _ => None
         end;
  first ← strSplit !! 0%nat;
  i ← Prism.py_int first;
  if decide (0 <= i < Z.of_nat len)%Z then Some (Z.to_nat i, vals)
  else if decide (- Z.of_nat len <= i < 0)%Z
       then Some (Z.to_nat (i + Z.of_nat len), vals)
       else None.

End Load.

(** The entry of row [j] after the entries [es] have been written, in
    their order, into a table that held [d] there. *)
Fixpoint last_write (j : nat) (d : Q * Q) (es : list (nat * (Q * Q))) : Q * Q :=
  match es with
  | [] => d
  | (i, vals) :: es' => last_write j (if decide (i = j) then vals else d) es'
  end.

End ScenarioTable.

(** ** Samples that exclude each other: [exclude_samples] *)

Module Exclude.

(** [np.any(d > width) | np.any(d < -width)] for the difference [d] of two
    samples; an axis of length one is stretched, as numpy does. *)
Definition apart (width : list Q) (p q : list Q) : bool :=
  let d := zip_with Qminus p q in
  let pairs := match d, width with
               | [x], _ => (fun w => (x, w)) <$> width
               | _, [w] => (fun x => (x, w)) <$> d
               | _, _ => zip d width
               end in
  existsb (fun xw => negb (Qle_bool xw.1 xw.2)) pairs
  || existsb (fun xw => negb (Qle_bool (- xw.2) xw.1)) pairs.

(** [exclude_samples(samples, width)], lines 868 to 880, for an array
    [samples] of [n] columns, given by its rows: entry [i] of the result
    is the set of the [j] with [boolean[i][j]].  Shapes that numpy cannot
    bring together raise. *)
Definition exclude_samples (n : nat) (samples : list (list Q)) (width : list Q)
    : option (list (gset nat)) :=
  if decide (length width = n ∨ length width = 1%nat ∨ n = 1%nat) then
    Some ((fun p =>
             list_to_set
               (filter (fun j => default false (apart width p <$> samples !! j) = true)
                       (seq 0 (length samples))))
          <$> samples)
  else None.

End Exclude.

(** ** The target points of the actions ([define_target_points]) *)

Module Targets.

(** The argument [tup] of an action: the index tuple of a target point of
    the grid, or the number [-i] of an extra target point. *)
Inductive tup :=
  | Tuple (t : list Z)
  | Minus (i : Z).

(** What [action(idx, model, center, tup, backreach_obj)] is given; the
    class is not part of the sources at hand, and neither are the backward
    reachable sets. *)
Record action := Action {
  idx : Z;
  center : list Q;
  tuple : tup
}.

(** [self.actions], without the backward reachable sets. *)
Record actions := Actions {
  obj : gmap Z action;
  tup2idx : gmap (list Z) Z;
  extra_act : list action;
  nr_actions : nat
}.

(** [map(f, a, b)] stops with the shorter of its arguments. *)
Definition grid_ranges (boundary : list (Q * Q)) (number : list Z)
    : option (list (list Q)) :=
  mapM (fun bn : Q * Q * Z => Grid.linspace bn.1.1 bn.1.2 bn.2)
       (zip boundary number).

(** [map(np.arange, np.zeros(n), number)]: [np.arange(0., num)] has the
    entries [0, 1, ..., num - 1] and is empty when [num <= 0]. *)
Definition grid_tuples (n : nat) (number : list Z) : list (list Z) :=
  (fun num => seqZ 0 num) <$> take n number.

(** Lines 208 to 213 and 228 to 234: one target point of the grid. *)
Definition add_target (acc : gmap Z action * gmap (list Z) Z)
    (i : Z) (c : list Q) (t : list Z) : gmap Z action * gmap (list Z) Z :=
  (<[i := Action i c (Tuple t)]> acc.1, <[t := i]> acc.2).

(** Lines 246 to 249: the extra target point [i]. *)
Definition add_extra (nr_default_act : nat)
    (acc : gmap Z action * list action) (ic : nat * list Q)
    : gmap Z action * list action :=
  let i := (Z.of_nat nr_default_act + Z.of_nat ic.1)%Z in
  let a := Action i ic.2 (Minus (- Z.of_nat ic.1)) in
  (<[i := a]> acc.1, acc.2 ++ [a]).

(** [define_target_points], lines 176 to 251.  [number] is nothing when
    [self.spec.targets['number']] is a text; then the target points are
    the centres [R_center] of the regions, with the tuples and numbers of
    the dictionary [R_idx].  [extra] is nothing when the targets have no
    key ['extra']. *)
Definition define_target_points (n : nat)
    (R_center : list (list Q)) (R_idx : list (list Z * Z))
    (boundary : list (Q * Q)) (number : option (list Z))
    (extra : option (list (list Q))) : option actions :=
  default_targets ←
    match number with
    | None =>
        Some (fold_left (fun acc cti => add_target acc cti.2.2 cti.1 cti.2.1)
                        (zip R_center R_idx) (∅, ∅))
    | Some number =>
        ranges ← grid_ranges boundary number;
        Some (fold_left
                (fun acc ict => add_target acc (Z.of_nat ict.1) ict.2.1 ict.2.2)
                (Interval.enumerate
                   (zip (Actions.product ranges)
                        (Actions.product (grid_tuples n number))))
                (∅, ∅))
    end;
  let nr_default_act := size default_targets.1 in
  let with_extra :=
    match extra with
    | None => (default_targets.1, [])
    | Some extra =>
        fold_left (add_extra nr_default_act) (Interval.enumerate extra)
                  (default_targets.1, [])
    end in
  Some (Actions with_extra.1 default_targets.2 with_extra.2
                (size with_extra.1)).

(** The place of the index tuple [t] in the row-major order of a grid with
    [number] points per axis. *)
Definition rank (number t : list Z) : Z :=
  fold_left (fun acc nt => (acc * nt.1 + nt.2)%Z) (zip number t) 0%Z.

(** The place of the entry picked by [idxs] in [itertools.product] of lists
    of the lengths [ns]. *)
Definition pos (ns idxs : list nat) : nat :=
  fold_left (fun acc ni => (acc * ni.1 + ni.2)%nat) (zip ns idxs) 0%nat.

(** The two dictionaries after the target points [l] of a grid. *)
Definition grid_filled (l : list (list Q * list Z))
    (r : gmap Z action * gmap (list Z) Z) : Prop :=
  size r.1 = length l
  /\ (forall z, is_Some (r.1 !! z) -> (0 <= z < Z.of_nat (length l))%Z)
  /\ (forall (j : nat) c t, l !! j = Some (c, t) ->
        r.1 !! Z.of_nat j = Some (Action (Z.of_nat j) c (Tuple t))
        /\ r.2 !! t = Some (Z.of_nat j))
  /\ (forall t i, r.2 !! t = Some i ->
        exists (j : nat) c, i = Z.of_nat j /\ l !! j = Some (c, t)).

(** The dictionary [obj] and the list [extra_act] after the extra target
    points [es], from a dictionary [m] of [base] target points. *)
Definition extras_filled (base : nat) (m : gmap Z action) (es : list (list Q))
    (r : gmap Z action * list action) : Prop :=
  size r.1 = (base + length es)%nat
  /\ length r.2 = length es
  /\ (forall z, (z < Z.of_nat base)%Z -> r.1 !! z = m !! z)
  /\ (forall (i : nat) c, es !! i = Some c ->
        let a := Action (Z.of_nat base + Z.of_nat i) c (Minus (- Z.of_nat i)) in
        r.1 !! (Z.of_nat base + Z.of_nat i)%Z = Some a /\ r.2 !! i = Some a).

End Targets.

(** ** The boxes of the clusters and the samples in them *)

Module Cover.
Import Clustering.

(** The point [p] lies in the box with the corners [lo] and [hi]. *)
Definition in_box (lo hi p : list Q) : Prop :=
  forall d x, p !! d = Some x ->
    exists l u, lo !! d = Some l /\ hi !! d = Some u /\ l <= x /\ x <= u.

(** What the clustering loop has added to the three lists of [clusters0]
    when the samples [remaining] are left to be clustered: one size of at
    least one sample, one lower and one upper corner of [n] coordinates per
    cluster, and every sample clustered so far in the box of a cluster. *)
Definition covers (n : nat) (remaining : list point)
    (vs : list Z) (los his : list point) : Prop :=
  length los = length vs /\ length his = length vs
  /\ Forall (fun v => (1 <= v)%Z) vs
  /\ Forall (fun lo : point => length lo = n) los
  /\ Forall (fun hi : point => length hi = n) his
  /\ forall p, p ∈ remaining ->
       exists c lo hi, los !! c = Some lo /\ his !! c = Some hi /\ in_box lo hi p.

End Cover.

(** ** The two records of the enabled actions *)

Module ActionRecords.
Import Actions.

(** The place that [l[state]] reads or writes in a Python list of [len]
    entries: a negative [state] counts from the end. *)
Definition slot (len : nat) (state : Z) : nat :=
  Z.to_nat (if decide (0 <= state)%Z then state else (state + Z.of_nat len)%Z).

(** The two records of a store tell the same: the list [enabled] has one
    entry per region; a state in [enabled_in] of an action is not critical,
    is an index of the list, and the action is in the entry of the list at
    that index; and an action in an entry of the list has a state in its
    [enabled_in] whose place is that entry. *)
Definition agree (critical : gset Z) (nr_regions : nat) (st : store) : Prop :=
  length (enabled st) = nr_regions
  /\ (forall a state, state ∈ enabled_in_of st a ->
        (state ∉ critical)
        /\ (- Z.of_nat nr_regions <= state < Z.of_nat nr_regions)%Z
        /\ exists es, enabled st !! slot nr_regions state = Some es /\ a ∈ es)
  /\ (forall i es a, enabled st !! i = Some es -> a ∈ es ->
        exists state, state ∈ enabled_in_of st a /\ slot nr_regions state = i).

End ActionRecords.

(** ** The corners of the regions ([_defAllCorners]) *)

Module Corners.

(** [list(itertools.product([0, 1], repeat=n))]. *)
Definition bitCombinations (n : nat) : list (list Z) :=
  Actions.product (replicate n [0%Z; 1%Z]).

(** [self.partition['R'][bitRelation[bit]][i][bitIndex]] with
    [bitRelation = ['low', 'upp']]; [low] and [upp] are the two arrays of
    the partition, one row per region. *)
Definition corner_entry (low upp : list (list Q)) (i : nat) (ib : nat * Z)
    : option Q :=
  row ← (if decide (ib.2 = 0%Z) then low else upp) !! i;
  row !! ib.1.

(** [_defAllCorners], lines 91 to 118. *)
Definition _defAllCorners (n nr_regions : nat) (low upp : list (list Q))
    : option (list (list (list Q))) :=
  mapM (fun i =>
          mapM (fun bitList =>
                  mapM (corner_entry low upp i) (Interval.enumerate bitList))
               (bitCombinations n))
       (seq 0 nr_regions).

(** The bits of [k], from bit [n - 1] down to bit [0]. *)
Definition bits (n k : nat) : list Z :=
  (fun d => if Nat.testbit k (n - 1 - d) then 1%Z else 0%Z) <$> seq 0 n.

End Corners.

(** ** The table printed in the console ([table.print_row]) *)

Module Table.

(** A Python [str], as the list of its characters. *)
Definition text : Type := list ascii.

(** The argument [sort] of [print_row]: the text ["Warning"], the text
    ["Success"], or any other value. *)
Inductive sort :=
  | Plain
  | Warning
  | Success.

(** [s.ljust(width)]: [s] padded with spaces on the right up to [width]
    characters, and [s] itself when it is as long or longer. *)
Definition ljust (s : text) (width : Z) : text :=
  s ++ replicate (Z.to_nat (width - Z.of_nat (length s))) " "%char.

(** [c * n] for a text [c] of one character: empty when [n <= 0]. *)
Definition times (c : ascii) (n : Z) : text := replicate (Z.to_nat n) c.

Definition esc : ascii := ascii_of_nat 27.
Definition newline : ascii := ascii_of_nat 10.

(** What is printed for [string] under [sort], lines 72 to 77. *)
Definition coloured (s : sort) (string : text) : text :=
  match s with
  | Warning =>
      esc :: list_ascii_of_string "[35m" ++ string
          ++ esc :: list_ascii_of_string "[0m"
  | Success =>
      esc :: list_ascii_of_string "[32m" ++ string
          ++ esc :: list_ascii_of_string "[0m"
  | Plain => string
  end.

Section PrintRow.
Variable word : Type.
Variable str : word -> text.

(** Lines 69 and 70; [self.col_width[i]] raises [IndexError] for a word
    beyond the last column. *)
Definition row_string (col_width : list Z) (row : list word) : option text :=
  pieces ← mapM (fun iw : nat * word =>
                   width ← col_width !! iw.1; Some (ljust (str iw.2) width))
                (Interval.enumerate row);
  Some (concat pieces).

(** [table.print_row], lines 49 to 82: the texts given to [print], one per
    call, and whether the method returns ([true]) or raises ([false]). *)
Definition print_row (col_width : list Z) (row : list word) (head : bool)
    (s : sort) : list text * bool :=
  let top := if head then [newline :: times "="%char (Zsum col_width)] else [] in
  match row_string col_width row with
  | None => (top, false)
  | Some string =>
      (top ++ [coloured s string]
           ++ (if head then [times "-"%char (Zsum col_width)] else []),
       true)
  end.

End PrintRow.
End Table.

(** ** The timers ([tic], [toc], [ticDiff], [tocDiff]) *)

Module Timing.

(** A generator object: not started yet, or suspended at its [yield] with
    the local variable that the next round reads ([ti] of
    [TicTocGenerator], [tf] of [TicTocDifference]). *)
Inductive generator :=
  | Fresh
  | Suspended (t : Q).

(** The two generator objects of the module, [TicToc] and [TicTocDiff], and
    the number of readings of the clock made so far. *)
Record timers := Timers {
  reads : nat;
  TicToc : generator;
  TicTocDiff : generator
}.

(** What [toc] and [tocDiff] print: the number put into the text. *)
Inductive event :=
  | Elapsed (seconds : Q)
  | ElapsedDiff (seconds : Q).

Inductive call :=
  | tic_call
  | toc_call (tempBool : bool)
  | ticDiff_call
  | tocDiff_call (tempBool : bool).

Section Clock.
(** [now k] is what the reading number [k] of [time.time()] gives. *)
Variable now : nat -> Q.

(** [next(TicToc)], lines 101 to 107: the first round reads the clock three
    times. *)
Definition next_TicToc (st : timers) : Q * timers :=
  match TicToc st with
  | Fresh =>
      let ti := now (reads st) in
      let tf := now (reads st + 2) in
      (tf - ti, Timers (reads st + 3) (Suspended ti) (TicTocDiff st))
  | Suspended ti =>
      let tf := now (reads st) in
      (tf - ti, Timers (reads st + 1) (Suspended ti) (TicTocDiff st))
  end.

(** [next(TicTocDiff)], lines 109 to 116. *)
Definition next_TicTocDiff (st : timers) : Q * timers :=
  match TicTocDiff st with
  | Fresh =>
      let tf0 := now (reads st + 1) in
      let tf := now (reads st + 2) in
      (tf - tf0, Timers (reads st + 3) (TicToc st) (Suspended tf))
  | Suspended tf0 =>
      let tf := now (reads st) in
      (tf - tf0, Timers (reads st + 1) (TicToc st) (Suspended tf))
  end.

(** [toc], lines 121 to 126: what is printed, and the timers after it. *)
Definition toc (tempBool : bool) (st : timers) : list event * timers :=
  let '(tempTimeInterval, st') := next_TicToc st in
  (if tempBool then [Elapsed tempTimeInterval] else [], st').

(** [tic], lines 128 to 131. *)
Definition tic (st : timers) : list event * timers := toc false st.

(** [tocDiff], lines 133 to 142: what is printed, what is returned, and the
    timers after it. *)
Definition tocDiff (tempBool : bool) (st : timers)
    : list event * Q * timers :=
  let '(tempTimeInterval, st') := next_TicTocDiff st in
  if tempBool then
    ([ElapsedDiff (np_round tempTimeInterval 5)], tempTimeInterval, st')
  else ([], np_round tempTimeInterval 12, st').

(** [ticDiff], lines 144 to 147. *)
Definition ticDiff (st : timers) : list event * timers :=
  let '(events, _, st') := tocDiff false st in (events, st').

Definition run_call (c : call) (st : timers) : list event * timers :=
  match c with
  | tic_call => tic st
  | toc_call b => toc b st
  | ticDiff_call => ticDiff st
  | tocDiff_call b => let '(events, _, st') := tocDiff b st in (events, st')
  end.

(** Calls one after the other. *)
Fixpoint run_calls (cs : list call) (st : timers) : list event * timers :=
  match cs with
  | [] => ([], st)
  | c :: cs' =>
      let '(events, st') := run_call c st in
      let '(events', st'') := run_calls cs' st' in
      (events ++ events', st'')
  end.

End Clock.
End Timing.

(** * Properties *)

(** ** Sums *)

Lemma fold_left_Zadd l a : fold_left Z.add l a = (a + Zsum l)%Z.
Proof.
  unfold Zsum. revert a. induction l as [|x l IH]; intros a; simpl; [lia|].
  rewrite (IH (a + x)%Z), (IH (0 + x)%Z). lia.
Qed.

Lemma Zsum_cons x l : Zsum (x :: l) = (x + Zsum l)%Z.
Proof. unfold Zsum at 1. simpl. apply fold_left_Zadd. Qed.

Lemma Zsum_app l1 l2 : Zsum (l1 ++ l2) = (Zsum l1 + Zsum l2)%Z.
Proof.
  induction l1 as [|x l1 IH]; simpl; [reflexivity|].
  rewrite !Zsum_cons, IH. lia.
Qed.

Lemma fold_left_Qplus l a : fold_left Qplus l a == a + Qsum l.
Proof.
  unfold Qsum. revert a. induction l as [|x l IH]; intros a; simpl; [lra|].
  rewrite (IH (a + x)), (IH (0 + x)). lra.
Qed.

Lemma Qsum_cons x l : Qsum (x :: l) == x + Qsum l.
Proof. unfold Qsum at 1. simpl. rewrite fold_left_Qplus. lra. Qed.

Lemma Qsum_nonneg l : Forall (fun x => 0 <= x) l -> 0 <= Qsum l.
Proof.
  induction 1 as [|x l Hx Hl IH]; [unfold Qsum; simpl; lra|].
  rewrite Qsum_cons. lra.
Qed.

Lemma Qsum_ge_elem l i x :
  Forall (fun x => 0 <= x) l -> l !! i = Some x -> x <= Qsum l.
Proof.
  intros Hall. revert i. induction Hall as [|y l Hy Hl IH]; intros i Hi.
  - discriminate.
  - rewrite Qsum_cons. pose proof (Qsum_nonneg l Hl).
    destruct i as [|i]; simpl in Hi.
    + injection Hi as ->. lra.
    + specialize (IH i Hi). lra.
Qed.

Lemma Qsum_zero l : Forall (fun x => x == 0) l -> Qsum l == 0.
Proof.
  induction 1 as [|x l Hx Hl IH]; [reflexivity|].
  rewrite Qsum_cons, Hx, IH. lra.
Qed.

Lemma sum_where_nil {A} (m : A -> bool) (v : A -> Z) : sum_where m v [] = 0%Z.
Proof. reflexivity. Qed.

Lemma sum_where_cons {A} (m : A -> bool) (v : A -> Z) a l :
  sum_where m v (a :: l) = ((if m a then v a else 0) + sum_where m v l)%Z.
Proof.
  unfold sum_where. rewrite filter_cons.
  destruct (m a).
  - rewrite decide_True by reflexivity. rewrite fmap_cons, Zsum_cons. reflexivity.
  - rewrite decide_False by discriminate. lia.
Qed.

Lemma sum_where_filter {A} (p m : A -> bool) (v : A -> Z) l :
  sum_where m v (filter (fun a => p a = true) l)
  = sum_where (fun a => p a && m a) v l.
Proof.
  induction l as [|a l IH]; [reflexivity|].
  rewrite filter_cons, (sum_where_cons (fun a => p a && m a)).
  destruct (p a) eqn:Hp.
  - rewrite decide_True by reflexivity. rewrite sum_where_cons, IH. reflexivity.
  - rewrite decide_False by discriminate. rewrite IH. simpl. lia.
Qed.

Lemma sum_where_zip_snd {A B} (m : B -> bool) (v : B -> Z) (xs : list A) l :
  length xs = length l ->
  sum_where (fun xb => m xb.2) (fun xb => v xb.2) (zip xs l) = sum_where m v l.
Proof.
  revert xs. induction l as [|b l IH]; intros [|x xs] Hlen; try discriminate.
  - reflexivity.
  - simpl zip. rewrite !sum_where_cons, IH by (simpl in Hlen; lia). reflexivity.
Qed.

(** A counter that a loop step raises by [v a] on the entries that [m]
    selects ends at its first value plus the selected sum. *)
Lemma fold_left_sum_where {S A} (step : S -> A -> S) (π : S -> Z)
    (m : A -> bool) (v : A -> Z) :
  (forall t a, π (step t a) = (π t + if m a then v a else 0)%Z) ->
  forall l t, π (fold_left step l t) = (π t + sum_where m v l)%Z.
Proof.
  intros Hstep. induction l as [|a l IH]; intros t; simpl.
  - rewrite sum_where_nil. lia.
  - rewrite IH, Hstep, sum_where_cons. lia.
Qed.

Lemma fold_left_unchanged {S A B} (step : S -> A -> S) (π : S -> B) :
  (forall t a, π (step t a) = π t) ->
  forall l t, π (fold_left step l t) = π t.
Proof.
  intros Hstep. induction l as [|a l IH]; intros t; simpl; [reflexivity|].
  rewrite IH, Hstep. reflexivity.
Qed.

(** ** Rounding *)

Ltac floor_atoms :=
  rewrite ?inject_Z_plus in *;
  change (inject_Z 1) with 1 in *;
  repeat match goal with
         | |- context [inject_Z (Qfloor ?q)] =>
             generalize dependent (inject_Z (Qfloor q)); intros
         | H : context [inject_Z (Qfloor ?q)] |- _ =>
             generalize dependent (inject_Z (Qfloor q)); intros
         end.

Lemma rint_upper q : inject_Z (rint q) <= q + (1#2).
Proof.
  unfold rint. pose proof (Qfloor_le q) as Hf. pose proof (Qlt_floor q) as Hl.
  destruct (Qcompare_spec (q - inject_Z (Qfloor q)) (1#2)) as [E|E|E];
    [destruct (Z.even (Qfloor q))| |]; floor_atoms; lra.
Qed.

Lemma rint_lower q : q - (1#2) <= inject_Z (rint q).
Proof.
  unfold rint. pose proof (Qfloor_le q) as Hf. pose proof (Qlt_floor q) as Hl.
  destruct (Qcompare_spec (q - inject_Z (Qfloor q)) (1#2)) as [E|E|E];
    [destruct (Z.even (Qfloor q))| |]; floor_atoms; lra.
Qed.

Lemma rint_mono p q : p <= q -> (rint p <= rint q)%Z.
Proof.
  intros Hpq. pose proof (Qfloor_resp_le _ _ Hpq) as Hfl.
  unfold rint.
  pose proof (Qfloor_le p) as Hp1. pose proof (Qlt_floor p) as Hp2.
  pose proof (Qfloor_le q) as Hq1. pose proof (Qlt_floor q) as Hq2.
  destruct (Z.eq_dec (Qfloor p) (Qfloor q)) as [Heq|Hne].
  - rewrite Heq in *.
    destruct (Qcompare_spec (p - inject_Z (Qfloor q)) (1#2)) as [E|E|E];
    destruct (Qcompare_spec (q - inject_Z (Qfloor q)) (1#2)) as [F|F|F];
    destruct (Z.even (Qfloor q)); try lia; exfalso; floor_atoms; lra.
  - assert (Qfloor p + 1 <= Qfloor q)%Z by lia.
    destruct (Qcompare_spec (p - inject_Z (Qfloor p)) (1#2)) as [E|E|E];
    destruct (Qcompare_spec (q - inject_Z (Qfloor q)) (1#2)) as [F|F|F];
    destruct (Z.even (Qfloor p)); destruct (Z.even (Qfloor q)); lia.
Qed.

Lemma pow10_pos n : 0 < pow10 n.
Proof.
  unfold pow10. change 0 with (inject_Z 0). rewrite <- Zlt_Qlt.
  apply Z.pow_pos_nonneg; lia.
Qed.

Lemma np_round_mono a b n : a <= b -> np_round a n <= np_round b n.
Proof.
  intros Hab. unfold np_round. pose proof (pow10_pos n) as Hp.
  apply Qmult_le_compat_r.
  - rewrite <- Zle_Qle. apply rint_mono. apply Qmult_le_compat_r; lra.
  - apply Qlt_le_weak, Qinv_lt_0_compat, Hp.
Qed.

Lemma floor_decimal_mono a b n : a <= b -> floor_decimal a n <= floor_decimal b n.
Proof. intros Hab. unfold floor_decimal. apply np_round_mono. lra. Qed.

(** [np.round] moves a number by at most half a unit of the last digit. *)
Lemma np_round_near a n :
  a - (1#2) / pow10 n <= np_round a n /\ np_round a n <= a + (1#2) / pow10 n.
Proof.
  unfold np_round. pose proof (pow10_pos n) as Hp.
  pose proof (rint_upper (a * pow10 n)) as Hu.
  pose proof (rint_lower (a * pow10 n)) as Hl.
  set (r := inject_Z (rint (a * pow10 n))) in *.
  set (t := pow10 n) in *.
  split.
  - apply Qle_shift_div_l; [exact Hp|].
    assert (E : (a - (1 # 2) / t) * t == a * t - (1#2)) by (field; lra).
    rewrite E. exact Hl.
  - apply Qle_shift_div_r; [exact Hp|].
    assert (E : (a + (1 # 2) / t) * t == a * t + (1#2)) by (field; lra).
    rewrite E. exact Hu.
Qed.

(** [floor_decimal] never rounds up, and rounds down by less than a unit of
    the last digit kept. *)
Lemma floor_decimal_le a n : floor_decimal a n <= a.
Proof.
  unfold floor_decimal. pose proof (pow10_pos n) as Hp.
  destruct (np_round_near (a - (1 # 2) * (1 / pow10 n)) n) as [_ Hu].
  set (t := pow10 n) in *.
  assert (E : a - (1 # 2) * (1 / t) + (1 # 2) / t == a) by (field; lra).
  rewrite E in Hu. exact Hu.
Qed.


Lemma floor_decimal_Pmin : floor_decimal (1 # 10000) 5 == 1 # 10000.
Proof. vm_compute. reflexivity. Qed.

Lemma floor_decimal_one : floor_decimal 1 5 == 1.
Proof. vm_compute. reflexivity. Qed.

Lemma floor_decimal_above_Pmin a : 1 # 10000 <= a -> 1 # 10000 <= floor_decimal a 5.
Proof.
  intros Ha. rewrite <- floor_decimal_Pmin at 1. apply floor_decimal_mono, Ha.
Qed.

Lemma floor_decimal_below_one a : a <= 1 -> floor_decimal a 5 <= 1.
Proof.
  intros Ha. rewrite <- floor_decimal_one. apply floor_decimal_mono, Ha.
Qed.

Lemma half_unit : (1 # 2) / pow10 nr_decimals == 1 # 200000.
Proof. vm_compute. reflexivity. Qed.

(** ** Indexing the scenario table *)

Lemma np_index_nonneg {A} (l : list A) (k : Z) :
  (0 <= k)%Z -> np_index l k = l !! Z.to_nat k.
Proof. intros Hk. unfold np_index. rewrite decide_True by lia. reflexivity. Qed.

Lemma np_index_in_range {A} (l : list A) (k : Z) :
  (0 <= k < Z.of_nat (length l))%Z ->
  np_index l k = l !! Z.to_nat k ∧ is_Some (np_index l k).
Proof.
  intros Hk. unfold np_index. rewrite decide_True by lia.
  split; [reflexivity|]. apply lookup_lt_is_Some_2. lia.
Qed.

Lemma np_index_fmap {A B} (f : A -> B) (l : list A) k :
  np_index (f <$> l) k = f <$> np_index l k.
Proof.
  unfold np_index. rewrite length_fmap.
  destruct (decide (0 <= k)%Z); [apply list_lookup_fmap|].
  destruct (decide (- Z.of_nat (length l) <= k)%Z); [apply list_lookup_fmap|].
  reflexivity.
Qed.

(** ** Exact mode: the tally of the samples *)

Section SparseFacts.
Context `{Countable K}.
Variable c_tuple : gmap K Z.

Import Sparse.

Lemma counts_incr_sum idx counts :
  Zsum (snd <$> counts_incr idx counts) = (Zsum (snd <$> counts) + 1)%Z.
Proof.
  induction counts as [|[r c] counts IH]; cbn [counts_incr].
  - reflexivity.
  - destruct (decide (r = idx)); rewrite !fmap_cons; cbn [snd];
      rewrite !Zsum_cons; [lia|].
    rewrite IH. lia.
Qed.

Lemma counts_incr_keys idx counts :
  fst <$> counts_incr idx counts =
  if decide (idx ∈ fst <$> counts) then fst <$> counts
  else (fst <$> counts) ++ [idx].
Proof.
  induction counts as [|[r c] counts IH]; cbn [counts_incr].
  - rewrite decide_False by (apply not_elem_of_nil). reflexivity.
  - destruct (decide (r = idx)) as [->|Hne]; rewrite !fmap_cons; cbn [fst].
    + rewrite decide_True by (apply elem_of_cons; auto). reflexivity.
    + rewrite IH. destruct (decide (idx ∈ fst <$> counts)) as [Hin|Hin].
      * rewrite decide_True by (apply elem_of_cons; auto). reflexivity.
      * rewrite decide_False; [reflexivity|].
        rewrite elem_of_cons. intros [->|?]; tauto.
Qed.

(** The entries of the dictionary after one more hit of region [idx]. *)
Lemma counts_incr_elem idx counts r c :
  NoDup (fst <$> counts) ->
  (r, c) ∈ counts_incr idx counts <->
  (r ≠ idx ∧ (r, c) ∈ counts)
  ∨ (r = idx ∧ ((idx, (c - 1)%Z) ∈ counts
                ∨ (c = 1%Z ∧ idx ∉ fst <$> counts))).
Proof.
  induction counts as [|[r0 c0] counts IH]; cbn [counts_incr]; intros Hnd.
  - rewrite list_elem_of_singleton. split.
    + intros [= -> ->]. right. split; [reflexivity|]. right.
      split; [reflexivity|apply not_elem_of_nil].
    + intros [[_ Hin]|[-> [Hin|[-> _]]]]; try (by apply elem_of_nil in Hin).
      reflexivity.
  - rewrite fmap_cons in *. cbn [fst] in *.
    apply NoDup_cons in Hnd as [Hnotin Hnd]. specialize (IH Hnd).
    destruct (decide (r0 = idx)) as [->|Hne].
    + rewrite !elem_of_cons. split.
      * intros [[= -> ->]|Hin].
        -- right. split; [reflexivity|]. left. left. f_equal. lia.
        -- destruct (decide (r = idx)) as [->|Hr].
           ++ exfalso. apply Hnotin. apply list_elem_of_fmap. exists (idx, c). eauto.
           ++ left. eauto.
      * intros [[Hr [Heq|Hin]]|[-> [[Heq|Hin]|[-> Hnot]]]].
        -- congruence.
        -- right. exact Hin.
        -- left. injection Heq as <-. f_equal. lia.
        -- exfalso. apply Hnotin. apply list_elem_of_fmap.
           exists (idx, (c-1)%Z). eauto.
        -- exfalso. apply Hnot. left. reflexivity.
    + rewrite !elem_of_cons, IH. split.
      * intros [[= -> ->]|[[Hr Hin]|[-> [Hin|[-> Hnot]]]]]; eauto 6.
        right. split; [reflexivity|]. right. split; [reflexivity|].
        intros [?|?]; congruence.
      * intros [[Hr [Heq|Hin]]|[-> [[Heq|Hin]|[-> Hnot]]]]; eauto 6.
        -- congruence.
        -- right. right. split; [reflexivity|]. right. split; [reflexivity|].
           intros Hin. apply Hnot. right. exact Hin.
Qed.

Lemma hits_snoc l key r :
  hits c_tuple (l ++ [key]) r =
  (hits c_tuple l r + if decide (c_tuple !! key = Some r) then 1 else 0)%Z.
Proof.
  unfold hits. rewrite filter_app, length_app.
  rewrite filter_cons, filter_nil.
  destruct (decide (c_tuple !! key = Some r)); simpl; lia.
Qed.

Lemma misses_snoc l key :
  misses c_tuple (l ++ [key]) =
  (misses c_tuple l + if decide (c_tuple !! key = None) then 1 else 0)%Z.
Proof.
  unfold misses. rewrite filter_app, length_app.
  rewrite filter_cons, filter_nil.
  destruct (decide (c_tuple !! key = None)); simpl; lia.
Qed.

Lemma hits_nonneg l r : (0 <= hits c_tuple l r)%Z.
Proof. unfold hits. lia. Qed.

Lemma hits_le l r : (hits c_tuple l r <= Z.of_nat (length l))%Z.
Proof.
  unfold hits.
  pose proof (length_filter (fun key => c_tuple !! key = Some r) l). lia.
Qed.

Lemma misses_bounds l : (0 <= misses c_tuple l <= Z.of_nat (length l))%Z.
Proof.
  unfold misses.
  pose proof (length_filter (fun key => c_tuple !! key = None) l). lia.
Qed.

Lemma tally_inv_nil : tally_inv c_tuple [] [].
Proof.
  split; [constructor|]. split; [|split].
  - intros r c Hin. apply elem_of_nil in Hin. contradiction.
  - intros r Hr. unfold hits in Hr. simpl in Hr. lia.
  - reflexivity.
Qed.

Lemma tally_inv_step counts l key :
  tally_inv c_tuple counts l ->
  tally_inv c_tuple
            (match c_tuple !! key with
             | Some idx => counts_incr idx counts
             | None => counts
             end) (l ++ [key]).
Proof.
  intros (Hnd & Hval & Hall & Hsum).
  destruct (c_tuple !! key) as [idx|] eqn:Hkey.
  - split; [|split; [|split]].
    + rewrite counts_incr_keys. destruct (decide (idx ∈ counts.*1)); [exact Hnd|].
      apply NoDup_app. split; [exact Hnd|]. split.
      * intros x Hx Hx'. apply list_elem_of_singleton in Hx'. congruence.
      * apply NoDup_singleton.
    + intros r c Hrc. apply counts_incr_elem in Hrc; [|exact Hnd].
      rewrite hits_snoc, Hkey.
      destruct Hrc as [[Hne Hin]|[-> [Hin|[-> Hnot]]]].
      * apply Hval in Hin. rewrite decide_False by congruence. lia.
      * apply Hval in Hin. rewrite decide_True by reflexivity. lia.
      * rewrite decide_True by reflexivity.
        destruct (decide (0 < hits c_tuple l idx)%Z) as [Hpos|Hz].
        -- apply Hall in Hpos. contradiction.
        -- pose proof (hits_nonneg l idx). lia.
    + intros r Hr. rewrite hits_snoc, Hkey in Hr. rewrite counts_incr_keys.
      destruct (decide (Some idx = Some r)) as [[= ->]|Hne].
      * destruct (decide (r ∈ counts.*1)); [assumption|].
        apply elem_of_app. right. apply list_elem_of_singleton. reflexivity.
      * assert (Hin : r ∈ counts.*1) by (apply Hall; lia).
        destruct (decide (idx ∈ counts.*1)); [assumption|].
        apply elem_of_app. left. assumption.
    + rewrite counts_incr_sum, misses_snoc, Hkey, length_app.
      rewrite decide_False by discriminate. simpl. lia.
  - split; [exact Hnd|]. split; [|split].
    + intros r c Hrc. rewrite hits_snoc, Hkey, decide_False by discriminate.
      apply Hval in Hrc. lia.
    + intros r Hr. rewrite hits_snoc, Hkey, decide_False in Hr by discriminate.
      apply Hall. lia.
    + rewrite misses_snoc, Hkey, length_app.
      rewrite decide_True by reflexivity. simpl. lia.
Qed.

Lemma tally_prefix centers n : forall i counts,
  (i + n <= length centers)%nat ->
  tally_inv c_tuple counts (take i centers) ->
  ∃ counts', tally c_tuple centers (seq i n) counts = Some counts'
             ∧ tally_inv c_tuple counts' (take (i + n) centers).
Proof.
  induction n as [|n IH]; intros i counts Hlen Hinv.
  - exists counts. rewrite Nat.add_0_r. split; [reflexivity|exact Hinv].
  - destruct (lookup_lt_is_Some_2 centers i) as [key Hkey]; [lia|].
    cbn [seq tally]. unfold tally_step. rewrite Hkey. cbn [mbind option_bind].
    destruct (IH (S i) (match c_tuple !! key with
                        | Some idx => counts_incr idx counts
                        | None => counts
                        end)) as (counts' & Ht & Hinv'); [lia| |].
    + rewrite (take_S_r _ _ _ Hkey). apply tally_inv_step, Hinv.
    + exists counts'. split; [exact Ht|].
      replace (i + S n)%nat with (S i + n)%nat by lia. exact Hinv'.
Qed.

(** With one centre per sample the loop over the samples ends, and its
    dictionary counts the hits of every region. *)
Lemma tally_all Nsamples centers :
  Z.of_nat (length centers) = Nsamples ->
  ∃ counts, tally c_tuple centers (seq 0 (Z.to_nat Nsamples)) [] = Some counts
            ∧ tally_inv c_tuple counts centers.
Proof.
  intros HN.
  destruct (tally_prefix centers (Z.to_nat Nsamples) 0 []) as (counts & Ht & Hinv).
  - lia.
  - rewrite take_0. apply tally_inv_nil.
  - exists counts. split; [exact Ht|].
    rewrite take_ge in Hinv by lia. exact Hinv.
Qed.

End SparseFacts.

Lemma region_bounds_in_range Nsamples (memory : list (Q * Q)) region count row :
  (0 <= Nsamples - count <= Nsamples)%Z ->
  memory !! Z.to_nat (Nsamples - count) = Some row ->
  Sparse.region_bounds Nsamples memory (region, count) =
  Some (row.1, row.2, inject_Z count / inject_Z Nsamples, region).
Proof.
  intros Hk Hrow. unfold Sparse.region_bounds.
  rewrite decide_False by lia.
  unfold np_index. rewrite decide_True by lia. rewrite Hrow. reflexivity.
Qed.

(** Claim C10.  When there is one sample (one centre) per count of
    [Nsamples], the loop of [computeScenarioBounds_sparse] over the samples
    ends without an exception, and both the number [k] of absorbed samples,
    [Nsamples - sum(counts.values())], and the number [Nsamples - count] of
    every region lie between [0] and [Nsamples]: neither test [k > Nsamples]
    can hold, and every [memory[k]] reads a row of a table with
    [Nsamples + 1] rows. *)
Theorem sparse_table_index_in_range `{Countable K} (c_tuple : gmap K Z)
    (Nsamples : Z) (centers : list K) :
  Z.of_nat (length centers) = Nsamples ->
  ∃ counts,
    Sparse.tally c_tuple centers (seq 0 (Z.to_nat Nsamples)) [] = Some counts
    ∧ (0 <= Nsamples - Zsum (snd <$> counts) <= Nsamples)%Z
    ∧ ¬ (Nsamples - Zsum (snd <$> counts) > Nsamples)%Z
    ∧ (∀ region count, (region, count) ∈ counts ->
         (0 <= Nsamples - count <= Nsamples)%Z
         ∧ ¬ (Nsamples - count > Nsamples)%Z)
    ∧ (∀ memory : list (Q * Q),
         Z.of_nat (length memory) = (Nsamples + 1)%Z ->
         is_Some (np_index memory (Nsamples - Zsum (snd <$> counts)))
         ∧ ∀ region count, (region, count) ∈ counts ->
             is_Some (np_index memory (Nsamples - count))).
Proof.
  intros HN.
  destruct (tally_all c_tuple Nsamples centers HN)
    as (counts & Ht & Hnd & Hval & Hall & Hsum).
  pose proof (misses_bounds c_tuple centers) as Hm.
  assert (Hcount : ∀ region count, (region, count) ∈ counts ->
            (0 <= Nsamples - count <= Nsamples)%Z).
  { intros region count Hin. apply Hval in Hin as [H1 ->].
    pose proof (hits_le c_tuple centers region). lia. }
  exists counts. split; [exact Ht|].
  split; [lia|]. split; [lia|]. split.
  - intros region count Hin. specialize (Hcount _ _ Hin). lia.
  - intros memory Hlen. split.
    + apply (np_index_in_range memory). lia.
    + intros region count Hin. specialize (Hcount _ _ Hin).
      apply (np_index_in_range memory). lia.
Qed.

Lemma sparse_table_index_in_range_witness :
  Z.of_nat (length [0; 0; 5]%Z) = 3%Z
  ∧ ∃ counts,
      Sparse.tally ({[0%Z := 7%Z]} : gmap Z Z) [0; 0; 5]%Z
                   (seq 0 (Z.to_nat 3)) [] = Some counts
      ∧ (0 <= 3 - Zsum (snd <$> counts) <= 3)%Z.
Proof.
  split; [reflexivity|].
  destruct (sparse_table_index_in_range
              ({[0%Z := 7%Z]} : gmap Z Z) 3 [0; 0; 5]%Z eq_refl)
    as (counts & Ht & Hk & _).
  exists counts. split; [exact Ht|exact Hk].
Defined.

(** Claim C2.  In exact mode, with one centre per sample and a table of
    [Nsamples + 1] rows, the function returns; every region hit by some
    sample is a successor, listed with its number [c >= 1] of hits; the
    bounds of a successor are the two entries of row [Nsamples - c] of the
    table and its point estimate is [c / Nsamples]; and with [k] the number
    of samples in no region the deadlock bounds are [1 - memory[k][1]] and
    [1 - memory[k][0]].  What is printed are these bounds after the numeric
    policy of lines 104 to 131: floored at 5 decimals, clamped, and floored
    again; the estimate is rounded to 5 decimals. *)
Theorem sparse_bounds_from_table `{Countable K} (c_tuple : gmap K Z)
    (Nsamples : Z) (memory : list (Q * Q)) (centers : list K) :
  Z.of_nat (length centers) = Nsamples ->
  Z.of_nat (length memory) = (Nsamples + 1)%Z ->
  ∃ counts raw,
    Sparse.sparse_raw Nsamples c_tuple memory centers = Some (counts, raw)
    ∧ Sparse.computeScenarioBounds_sparse Nsamples c_tuple memory centers
      = Some (Sparse.sparse_report raw)
    ∧ (∀ region, (0 < Sparse.hits c_tuple centers region)%Z ->
         ∃ i, counts !! i = Some (region, Sparse.hits c_tuple centers region))
    ∧ (∀ i region c, counts !! i = Some (region, c) ->
         c = Sparse.hits c_tuple centers region ∧ (1 <= c)%Z
         ∧ ∃ row, memory !! Z.to_nat (Nsamples - c) = Some row
             ∧ probability_low raw !! i = Some (row.1)
             ∧ probability_upp raw !! i = Some (row.2)
             ∧ probability_approx raw !! i
               = Some (inject_Z c / inject_Z Nsamples)
             ∧ raw_successor_idxs raw !! i = Some region
             ∧ interval_strings (Sparse.sparse_report raw) !! i
               = Some (floor_decimal
                         (Qmax (1 # 10000) (floor_decimal row.1 5)) 5,
                       floor_decimal (Qmin 1 (floor_decimal row.2 5)) 5)
             ∧ approx_strings (Sparse.sparse_report raw) !! i
               = Some (np_round (inject_Z c / inject_Z Nsamples) 5)
             ∧ successor_idxs (Sparse.sparse_report raw) !! i = Some region)
    ∧ (Nsamples - Zsum (snd <$> counts))%Z = Sparse.misses c_tuple centers
    ∧ ∃ row, memory !! Z.to_nat (Sparse.misses c_tuple centers) = Some row
        ∧ deadlock_low raw = 1 - row.2
        ∧ deadlock_upp raw = 1 - row.1
        ∧ deadlock_interval_string (Sparse.sparse_report raw)
          = (floor_decimal
               (Qmax (1 # 10000) (floor_decimal (1 - row.2) 5)) 5,
             floor_decimal (Qmin 1 (floor_decimal (1 - row.1) 5)) 5).
Proof.
  intros HN Hmem.
  destruct (tally_all c_tuple Nsamples centers HN)
    as (counts & Ht & Hnd & Hval & Hall & Hsum).
  pose proof (misses_bounds c_tuple centers) as Hm.
  assert (Hk : (Nsamples - Zsum counts.*2)%Z = Sparse.misses c_tuple centers) by lia.
  assert (Hcount : ∀ region count, (region, count) ∈ counts ->
            (0 <= Nsamples - count <= Nsamples)%Z).
  { intros region count Hin. apply Hval in Hin as [H1 ->].
    pose proof (hits_le c_tuple centers region). lia. }
  destruct (lookup_lt_is_Some_2 memory (Z.to_nat (Sparse.misses c_tuple centers)))
    as [row0 Hrow0]; [lia|].
  set (rows := (fun rc : Z * Z =>
                  let row := default (0, 0)
                               (memory !! Z.to_nat (Nsamples - rc.2)) in
                  (row.1, row.2, inject_Z rc.2 / inject_Z Nsamples, rc.1))
               <$> counts).
  assert (Hrows : Forall2 (fun rc r =>
            Sparse.region_bounds Nsamples memory rc = Some r) counts rows).
  { apply Forall2_fmap_r, Forall_Forall2_diag, Forall_forall.
    intros [region count] Hin. cbn [fst snd].
    specialize (Hcount _ _ Hin).
    destruct (lookup_lt_is_Some_2 memory (Z.to_nat (Nsamples - count)))
      as [row Hrow]; [lia|].
    unfold compose. cbn [fst snd]. rewrite Hrow. cbn [default].
    apply region_bounds_in_range; assumption. }
  apply mapM_Some_2 in Hrows.
  assert (Hraw : Sparse.sparse_raw Nsamples c_tuple memory centers
    = Some (counts,
        RawBounds (fmap (fun r : Q * Q * Q * Z => r.1.1.1) rows)
                  (fmap (fun r : Q * Q * Q * Z => r.1.1.2) rows)
                  (fmap (fun r : Q * Q * Q * Z => r.1.2) rows)
                  (fmap (fun r : Q * Q * Q * Z => r.2) rows)
                  (1 - row0.2) (1 - row0.1))).
  { unfold Sparse.sparse_raw. rewrite Ht. cbn [mbind option_bind].
    rewrite Hk. rewrite !np_index_nonneg by lia.
    rewrite Hrow0. cbn [mbind option_bind fmap option_fmap option_map].
    rewrite decide_False by lia. cbn [mbind option_bind].
    rewrite Hrows. cbn [mbind option_bind]. reflexivity. }
  eexists counts, _. split; [exact Hraw|].
  split.
  { unfold Sparse.computeScenarioBounds_sparse. rewrite Hraw. reflexivity. }
  split.
  { intros region Hpos. pose proof (Hall region Hpos) as Hin.
    apply list_elem_of_fmap in Hin as ([r c] & -> & Hin). cbn [fst].
    pose proof (Hval _ _ Hin) as [_ ->].
    apply list_elem_of_lookup in Hin. exact Hin. }
  split.
  { intros i region c Hi.
    assert (Hin : (region, c) ∈ counts) by (apply list_elem_of_lookup; eauto).
    pose proof (Hval _ _ Hin) as [Hc1 Hc]. specialize (Hcount _ _ Hin).
    split; [exact Hc|]. split; [exact Hc1|].
    destruct (lookup_lt_is_Some_2 memory (Z.to_nat (Nsamples - c)))
      as [row Hrow]; [lia|].
    exists row. split; [exact Hrow|].
    unfold Sparse.sparse_report, rows.
    cbn [probability_low probability_upp probability_approx raw_successor_idxs
         interval_strings approx_strings successor_idxs].
    rewrite !list_lookup_fmap, lookup_zip_with, !list_lookup_fmap, Hi.
    cbn [fmap option_fmap option_map mbind option_bind fst snd].
    rewrite Hrow. cbn [default fst snd]. repeat split; reflexivity. }
  split; [exact Hk|].
  exists row0. split; [exact Hrow0|]. repeat split; reflexivity.
Qed.

Lemma sparse_bounds_from_table_witness :
  Z.of_nat (length [0; 0; 5]%Z) = 3%Z
  ∧ Z.of_nat (length [(9 # 10, 1); (1 # 2, 9 # 10);
                      (1 # 10, 1 # 2); (0, 1 # 10)]) = (3 + 1)%Z
  ∧ ∃ counts raw,
      Sparse.sparse_raw 3 ({[0%Z := 7%Z]} : gmap Z Z)
        [(9 # 10, 1); (1 # 2, 9 # 10); (1 # 10, 1 # 2); (0, 1 # 10)]
        [0; 0; 5]%Z = Some (counts, raw)
      ∧ (3 - Zsum (snd <$> counts))%Z
        = Sparse.misses ({[0%Z := 7%Z]} : gmap Z Z) [0; 0; 5]%Z.
Proof.
  split; [reflexivity|]. split; [reflexivity|].
  destruct (sparse_bounds_from_table ({[0%Z := 7%Z]} : gmap Z Z) 3
              [(9 # 10, 1); (1 # 2, 9 # 10); (1 # 10, 1 # 2); (0, 1 # 10)]
              [0; 0; 5]%Z eq_refl eq_refl)
    as (counts & raw & Hraw & _ & _ & _ & Hk & _).
  exists counts, raw. split; [exact Hraw|exact Hk].
Defined.

(** ** The numeric policy of the two reports *)

Lemma sparse_interval_bounds low upp :
  clamped low upp
    (floor_decimal (Qmax (1 # 10000) (floor_decimal low nr_decimals)) 5,
     floor_decimal (Qmin 1 (floor_decimal upp nr_decimals)) 5).
Proof.
  unfold clamped. cbn [fst snd].
  set (lb := floor_decimal (Qmax (1 # 10000) (floor_decimal low nr_decimals)) 5).
  set (ub := floor_decimal (Qmin 1 (floor_decimal upp nr_decimals)) 5).
  assert (Hlb : 1 # 10000 <= lb)
    by (apply floor_decimal_above_Pmin, Q.le_max_l).
  assert (Hub : ub <= 1) by (apply floor_decimal_below_one, Q.le_min_l).
  split; [lra|]. split; [exact Hlb|]. split; [exact Hub|].
  intros Hlu Hl1 Hu. apply floor_decimal_mono.
  pose proof (floor_decimal_le low nr_decimals).
  pose proof (floor_decimal_mono _ _ nr_decimals Hlu).
  pose proof (floor_decimal_above_Pmin _ Hu).
  apply Q.max_lub; apply Q.min_glb; try lra.
  assumption.
Qed.

Lemma error_interval_bounds low upp :
  clamped low upp
    (Qmax Pmin (floor_decimal low nr_decimals),
     Qmin 1 (floor_decimal upp nr_decimals)).
Proof.
  unfold clamped. cbn [fst snd].
  set (lb := Qmax Pmin (floor_decimal low nr_decimals)).
  set (ub := Qmin 1 (floor_decimal upp nr_decimals)).
  assert (Hlb : 1 # 10000 <= lb) by apply Q.le_max_l.
  assert (Hub : ub <= 1) by apply Q.le_min_l.
  split; [lra|]. split; [exact Hlb|]. split; [exact Hub|].
  intros Hlu Hl1 Hu.
  pose proof (floor_decimal_le low nr_decimals).
  pose proof (floor_decimal_mono _ _ nr_decimals Hlu).
  pose proof (floor_decimal_above_Pmin _ Hu).
  apply Q.max_lub; apply Q.min_glb; try (unfold Pmin; lra).
  assumption.
Qed.

Lemma sparse_report_lookup raw i iv :
  interval_strings (Sparse.sparse_report raw) !! i = Some iv ->
  ∃ low upp, probability_low raw !! i = Some low
    ∧ probability_upp raw !! i = Some upp
    ∧ iv = (floor_decimal (Qmax (1 # 10000) (floor_decimal low nr_decimals)) 5,
            floor_decimal (Qmin 1 (floor_decimal upp nr_decimals)) 5).
Proof.
  unfold Sparse.sparse_report. cbn [interval_strings].
  rewrite list_lookup_fmap. intros Hi.
  apply fmap_Some in Hi as ([lb ub] & Hz & ->).
  apply lookup_zip_with_Some in Hz as (lb' & ub' & [= <- <-] & Hlb & Hub).
  rewrite list_lookup_fmap in Hlb, Hub.
  apply fmap_Some in Hlb as (low & Hlow & ->).
  apply fmap_Some in Hub as (upp & Hupp & ->).
  exists low, upp. split; [exact Hlow|]. split; [exact Hupp|]. reflexivity.
Qed.

Lemma error_report_lookup raw i iv :
  interval_strings (Interval.error_report raw) !! i = Some iv ->
  ∃ low upp, probability_low raw !! i = Some low
    ∧ probability_upp raw !! i = Some upp
    ∧ iv = (Qmax Pmin (floor_decimal low nr_decimals),
            Qmin 1 (floor_decimal upp nr_decimals)).
Proof.
  unfold Interval.error_report. cbn [interval_strings]. intros Hz.
  apply lookup_zip_with_Some in Hz as (lb' & ub' & -> & Hlb & Hub).
  rewrite list_lookup_fmap in Hlb, Hub.
  apply fmap_Some in Hlb as (low & Hlow & ->).
  apply fmap_Some in Hub as (upp & Hupp & ->).
  exists low, upp. split; [exact Hlow|]. split; [exact Hupp|]. reflexivity.
Qed.

(** Claim C5, as amended.  Every interval [[lb, ub]] that either mode
    prints, for a successor or for the deadlock, has [0 < 1e-4 <= lb] and
    [ub <= 1].  It has [lb <= ub] when the bounds [low] and [upp] it is
    made from have [low <= upp], [low <= 1] and [1e-4 <= upp]; nothing in
    the code orders the two ends otherwise. *)
Theorem emitted_intervals_clamped (raw : raw_bounds) :
  (∀ i iv, interval_strings (Sparse.sparse_report raw) !! i = Some iv ->
     ∃ low upp, probability_low raw !! i = Some low
       ∧ probability_upp raw !! i = Some upp ∧ clamped low upp iv)
  ∧ clamped (deadlock_low raw) (deadlock_upp raw)
            (deadlock_interval_string (Sparse.sparse_report raw))
  ∧ (∀ i iv, interval_strings (Interval.error_report raw) !! i = Some iv ->
       ∃ low upp, probability_low raw !! i = Some low
         ∧ probability_upp raw !! i = Some upp ∧ clamped low upp iv)
  ∧ clamped (deadlock_low raw) (deadlock_upp raw)
            (deadlock_interval_string (Interval.error_report raw)).
Proof.
  split; [|split; [|split]].
  - intros i iv Hi. apply sparse_report_lookup in Hi as (low & upp & Hl & Hu & ->).
    exists low, upp. split; [exact Hl|]. split; [exact Hu|].
    apply sparse_interval_bounds.
  - apply sparse_interval_bounds.
  - intros i iv Hi. apply error_report_lookup in Hi as (low & upp & Hl & Hu & ->).
    exists low, upp. split; [exact Hl|]. split; [exact Hu|].
    apply error_interval_bounds.
  - apply error_interval_bounds.
Qed.

Lemma emitted_intervals_clamped_witness :
  clamped (1 # 10) (1 # 5)
    (deadlock_interval_string
       (Sparse.sparse_report
          (RawBounds [1 # 2] [3 # 4] [1 # 2] [0%Z] (1 # 10) (1 # 5)))).
Proof.
  exact (proj1 (proj2 (emitted_intervals_clamped
           (RawBounds [1 # 2] [3 # 4] [1 # 2] [0%Z] (1 # 10) (1 # 5))))).
Defined.

(** Counterexample to claim C5 as stated: two samples, one of them in
    region 0, and a table whose row 1 is [(0, 0.00005)].  The interval
    printed for region 0 is [[0.0001, 0.00004]]: its lower end is above its
    upper end. *)
Lemma emitted_interval_lower_above_upper :
  ∃ ret lb ub,
    Sparse.computeScenarioBounds_sparse 2 ({[0%Z := 0%Z]} : gmap Z Z)
      [(1 # 2, 1); (0, 5 # 100000); (0, 0)] [0; 7]%Z = Some ret
    ∧ interval_strings ret !! 0%nat = Some (lb, ub)
    ∧ lb == 1 # 10000 ∧ ub == 4 # 100000 ∧ ¬ (0 <= lb ∧ lb <= ub ∧ ub <= 1).
Proof.
  eexists _, _, _. split; [vm_compute; reflexivity|].
  split; [reflexivity|]. split; [reflexivity|]. split; [reflexivity|].
  intros (_ & Hle & _). vm_compute in Hle. apply Hle. reflexivity.
Qed.

(** Claim C4, as amended.  In both modes the printed point estimates are
    the estimates rounded to 5 decimals, and the deadlock estimate is [1]
    minus their sum, rounded to 5 decimals: deadlock estimate and successor
    estimates add up to [1] within half a unit of the fifth decimal.  The
    deadlock estimate is not kept from being negative. *)
Theorem deadlock_estimate_is_rounded_remainder (raw : raw_bounds) :
  (let ret := Sparse.sparse_report raw in
   approx_strings ret = (fun p => np_round p 5) <$> probability_approx raw
   ∧ deadlock_approx ret = np_round (1 - Qsum (approx_strings ret)) 5
   ∧ - (1 # 200000) <= deadlock_approx ret + Qsum (approx_strings ret) - 1
   ∧ deadlock_approx ret + Qsum (approx_strings ret) - 1 <= 1 # 200000)
  ∧ (let ret := Interval.error_report raw in
     approx_strings ret = (fun p => np_round p 5) <$> probability_approx raw
     ∧ deadlock_approx ret = np_round (1 - Qsum (approx_strings ret)) 5
     ∧ - (1 # 200000) <= deadlock_approx ret + Qsum (approx_strings ret) - 1
     ∧ deadlock_approx ret + Qsum (approx_strings ret) - 1 <= 1 # 200000).
Proof.
  split; cbn zeta;
    (split; [reflexivity|]; split; [reflexivity|]);
    [unfold Sparse.sparse_report|unfold Interval.error_report];
    cbn [deadlock_approx approx_strings];
    match goal with
    | |- context [np_round (1 - Qsum ?l) nr_decimals] =>
        destruct (np_round_near (1 - Qsum l) nr_decimals) as [Hl Hu];
        rewrite half_unit in Hl, Hu;
        generalize dependent (np_round (1 - Qsum l) nr_decimals);
        generalize (Qsum l)
    end; intros; split; lra.
Qed.

(** Counterexample to claim C4 as stated: six samples, four in region 0,
    one in region 1 and one in region 2.  The estimates are printed as
    0.66667, 0.16667 and 0.16667, and the deadlock estimate as -0.00001. *)
Lemma deadlock_estimate_negative :
  ∃ ret,
    Sparse.computeScenarioBounds_sparse 6
      ({[0%Z := 0%Z; 1%Z := 1%Z; 2%Z := 2%Z]} : gmap Z Z)
      [(9 # 10, 1); (7 # 10, 1); (1 # 2, 9 # 10); (3 # 10, 4 # 5);
       (1 # 5, 3 # 5); (1 # 20, 2 # 5); (0, 1 # 10)]
      [0; 0; 0; 0; 1; 2]%Z = Some ret
    ∧ deadlock_approx ret == - (1 # 100000)
    ∧ deadlock_approx ret < 0.
Proof.
  eexists. split; [vm_compute; reflexivity|]. split; reflexivity.
Qed.

(** ** Interval mode: the counts of the clusters *)

Section ClassifyFacts.
Import Interval.
Variable nrPerDim : list Z.
Variables goal_idx critical_idx : gset (list Z).

Abbreviation single_step := (single_step nrPerDim goal_idx critical_idx).
Abbreviation remaining_step := (remaining_step nrPerDim goal_idx critical_idx).
Abbreviation in_region := (in_region nrPerDim goal_idx critical_idx).
Abbreviation in_goal_bucket := (in_goal_bucket goal_idx).
Abbreviation in_critical_bucket := (in_critical_bucket goal_idx critical_idx).
Abbreviation all_in := (all_in nrPerDim).

Ltac single_cases b :=
  unfold Interval.single_step, Interval.in_region, Interval.in_goal_bucket,
    Interval.in_critical_bucket, nd_add_at;
  destruct (decide (imin b ∈ goal_idx)) as [Hg|Hg];
  [|destruct (decide (imin b ∈ critical_idx)) as [Hc|Hc]];
  cbn [counts_low counts_upp counts_goal_low counts_goal_upp
       counts_critical_low counts_critical_upp];
  repeat match goal with
         | |- context [bool_decide ?P] =>
             first [rewrite (bool_decide_eq_true_2 P) by tauto
                   |rewrite (bool_decide_eq_false_2 P) by tauto]
         end; cbn [andb]; try lia.

Lemma single_step_low t b idx :
  counts_low (single_step t b) idx
  = (counts_low t idx + if in_region idx b then value b else 0)%Z.
Proof.
  single_cases b.
  destruct (decide (idx = zip_with norm_index nrPerDim (imin b))) as [E|E].
  - rewrite bool_decide_eq_true_2 by exact E. reflexivity.
  - rewrite bool_decide_eq_false_2 by exact E. lia.
Qed.

Lemma single_step_upp t b idx :
  counts_upp (single_step t b) idx
  = (counts_upp t idx + if in_region idx b then value b else 0)%Z.
Proof.
  single_cases b.
  destruct (decide (idx = zip_with norm_index nrPerDim (imin b))) as [E|E].
  - rewrite bool_decide_eq_true_2 by exact E. reflexivity.
  - rewrite bool_decide_eq_false_2 by exact E. lia.
Qed.

Lemma single_step_goal_low t b :
  counts_goal_low (single_step t b)
  = (counts_goal_low t + if in_goal_bucket b then value b else 0)%Z.
Proof. single_cases b. Qed.

Lemma single_step_goal_upp t b :
  counts_goal_upp (single_step t b)
  = (counts_goal_upp t + if in_goal_bucket b then value b else 0)%Z.
Proof. single_cases b. Qed.

Lemma single_step_critical_low t b :
  counts_critical_low (single_step t b)
  = (counts_critical_low t + if in_critical_bucket b then value b else 0)%Z.
Proof. single_cases b. Qed.

Lemma single_step_critical_upp t b :
  counts_critical_upp (single_step t b)
  = (counts_critical_upp t + if in_critical_bucket b then value b else 0)%Z.
Proof. single_cases b. Qed.

Ltac remaining_cases boxes xb :=
  unfold Interval.remaining_step, nd_add_slices;
  destruct (all_in goal_idx boxes xb);
  [|destruct (all_in critical_idx boxes xb)];
  cbn [counts_low counts_upp counts_goal_low counts_goal_upp
       counts_critical_low counts_critical_upp andb orb negb];
  try lia.

Lemma remaining_step_low boxes t xb :
  counts_low (remaining_step boxes t xb) = counts_low t.
Proof. remaining_cases boxes xb; reflexivity. Qed.

Lemma remaining_step_upp boxes t xb idx :
  counts_upp (remaining_step boxes t xb) idx
  = (counts_upp t idx
     + if in_slices nrPerDim (iMin xb.2) (iMax xb.2) idx then value xb.2 else 0)%Z.
Proof.
  remaining_cases boxes xb;
    destruct (in_slices nrPerDim (iMin xb.2) (iMax xb.2) idx); lia.
Qed.

Lemma remaining_step_goal_low boxes t xb :
  counts_goal_low (remaining_step boxes t xb)
  = (counts_goal_low t + if all_in goal_idx boxes xb then value xb.2 else 0)%Z.
Proof. remaining_cases boxes xb. Qed.

Lemma remaining_step_goal_upp boxes t xb :
  counts_goal_upp (remaining_step boxes t xb)
  = (counts_goal_upp t
     + if all_in goal_idx boxes xb
          || negb (all_in critical_idx boxes xb) && touches goal_idx xb.2
       then value xb.2 else 0)%Z.
Proof. remaining_cases boxes xb. destruct (touches goal_idx xb.2); lia. Qed.

Lemma remaining_step_critical_low boxes t xb :
  counts_critical_low (remaining_step boxes t xb)
  = (counts_critical_low t
     + if negb (all_in goal_idx boxes xb) && all_in critical_idx boxes xb
       then value xb.2 else 0)%Z.
Proof. remaining_cases boxes xb. Qed.

Lemma remaining_step_critical_upp boxes t xb :
  counts_critical_upp (remaining_step boxes t xb)
  = (counts_critical_upp t
     + if negb (all_in goal_idx boxes xb)
          && (all_in critical_idx boxes xb || touches critical_idx xb.2)
       then value xb.2 else 0)%Z.
Proof. remaining_cases boxes xb. destruct (touches critical_idx xb.2); lia. Qed.

(** The counts after both loops, as sums over the clusters of each kind. *)
Lemma classify_counts boxes :
  let t := (classify nrPerDim goal_idx critical_idx boxes).2 in
  let singles := fun m => sum_where
    (fun b => in_single_region nrPerDim b && m b) value boxes in
  let rest := fun m => sum_where m (fun xb : nat * box => value xb.2)
    (enumerate (filter (fun b => keep nrPerDim b = true) boxes)) in
  (forall idx, counts_low t idx = singles (in_region idx))
  ∧ (forall idx, counts_upp t idx
       = (singles (in_region idx)
          + sum_where (fun b => keep nrPerDim b
                                && in_slices nrPerDim (iMin b) (iMax b) idx)
                      value boxes)%Z)
  ∧ counts_goal_low t
    = (singles in_goal_bucket + rest (all_in goal_idx boxes))%Z
  ∧ counts_goal_upp t
    = (singles in_goal_bucket
       + rest (fun xb => all_in goal_idx boxes xb
                 || negb (all_in critical_idx boxes xb)
                    && touches goal_idx xb.2))%Z
  ∧ counts_critical_low t
    = (singles in_critical_bucket
       + rest (fun xb => negb (all_in goal_idx boxes xb)
                         && all_in critical_idx boxes xb))%Z
  ∧ counts_critical_upp t
    = (singles in_critical_bucket
       + rest (fun xb => negb (all_in goal_idx boxes xb)
                 && (all_in critical_idx boxes xb
                     || touches critical_idx xb.2)))%Z.
Proof.
  intros t singles rest. subst t singles rest. unfold classify. cbn [snd].
  set (ss := filter (fun b => in_single_region nrPerDim b = true) boxes).
  set (rs := enumerate (filter (fun b => keep nrPerDim b = true) boxes)).
  set (t0 := Tallies zeros zeros 0 0 0 0).
  split; [|split; [|split; [|split; [|split]]]].
  - intros idx.
    rewrite (fold_left_unchanged _ counts_low (remaining_step_low boxes)).
    rewrite (fold_left_sum_where _ (fun t => counts_low t idx) _ _
               (fun t b => single_step_low t b idx)).
    unfold ss. rewrite sum_where_filter. reflexivity.
  - intros idx.
    rewrite (fold_left_sum_where _ (fun t => counts_upp t idx) _ _
               (fun t xb => remaining_step_upp boxes t xb idx)).
    rewrite (fold_left_sum_where _ (fun t => counts_upp t idx) _ _
               (fun t b => single_step_upp t b idx)).
    unfold ss, rs, enumerate. rewrite sum_where_filter.
    rewrite (sum_where_zip_snd
               (fun b => in_slices nrPerDim (iMin b) (iMax b) idx) value)
      by apply length_seq.
    rewrite sum_where_filter. reflexivity.
  - rewrite (fold_left_sum_where _ counts_goal_low _ _
               (remaining_step_goal_low boxes)).
    rewrite (fold_left_sum_where _ counts_goal_low _ _ single_step_goal_low).
    unfold ss. rewrite sum_where_filter. reflexivity.
  - rewrite (fold_left_sum_where _ counts_goal_upp _ _
               (remaining_step_goal_upp boxes)).
    rewrite (fold_left_sum_where _ counts_goal_upp _ _ single_step_goal_upp).
    unfold ss. rewrite sum_where_filter. reflexivity.
  - rewrite (fold_left_sum_where _ counts_critical_low _ _
               (remaining_step_critical_low boxes)).
    rewrite (fold_left_sum_where _ counts_critical_low _ _
               single_step_critical_low).
    unfold ss. rewrite sum_where_filter. reflexivity.
  - rewrite (fold_left_sum_where _ counts_critical_upp _ _
               (remaining_step_critical_upp boxes)).
    rewrite (fold_left_sum_where _ counts_critical_upp _ _
               single_step_critical_upp).
    unfold ss. rewrite sum_where_filter. reflexivity.
Qed.

End ClassifyFacts.

Lemma single_region_rows (nrPerDim lo hi : list Z) :
  length lo = length nrPerDim -> length hi = length nrPerDim ->
  forallb (fun p => (p.1 =? p.2)%Z) (zip lo hi) = true ->
  Interval.any_negative hi = false -> Interval.any_above lo nrPerDim = false ->
  hi = lo ∧ Interval.in_grid nrPerDim lo
  ∧ zip_with Interval.norm_index nrPerDim lo = lo.
Proof.
  unfold Interval.any_negative, Interval.any_above, Interval.in_grid.
  revert lo hi. induction nrPerDim as [|n ns IH]; intros [|a lo] [|b hi];
    simpl; try discriminate; intros Hl Hh Heq Hneg Habove.
  - repeat split; constructor.
  - apply andb_true_iff in Heq as [Hab Heq].
    apply orb_false_iff in Hneg as [Hb Hneg].
    apply orb_false_iff in Habove as [Ha Habove].
    destruct (IH lo hi) as (-> & Hgrid & Hnorm); try assumption; try lia.
    apply Z.eqb_eq in Hab. apply Z.ltb_ge in Hb, Ha. subst b.
    split; [reflexivity|]. split.
    + constructor; [lia|exact Hgrid].
    + rewrite Hnorm. unfold Interval.norm_index.
      destruct (a <? 0)%Z eqn:E; [apply Z.ltb_lt in E; lia|reflexivity].
Qed.

(** A cluster in a single region, with one index per dimension, has the
    tuple of a region of the grid, and is not partially outside. *)
Lemma single_region_in_grid nrPerDim (b : Interval.box) :
  Interval.in_single_region nrPerDim b = true ->
  length (Interval.imin b) = length nrPerDim ->
  length (Interval.imax b) = length nrPerDim ->
  Interval.imax b = Interval.imin b
  ∧ Interval.in_grid nrPerDim (Interval.imin b)
  ∧ zip_with Interval.norm_index nrPerDim (Interval.imin b) = Interval.imin b
  ∧ Interval.partially_out nrPerDim b = false.
Proof.
  unfold Interval.in_single_region, Interval.fully_out, Interval.partially_out.
  intros Hs Hl Hh.
  apply andb_true_iff in Hs as [Heq Hout].
  apply negb_true_iff, orb_false_iff in Hout as [Hneg Habove].
  destruct (single_region_rows nrPerDim (Interval.imin b) (Interval.imax b))
    as (E & Hgrid & Hnorm); try assumption.
  split; [exact E|]. split; [exact Hgrid|]. split; [exact Hnorm|].
  rewrite E in Hneg. rewrite E. rewrite Hneg, Habove. reflexivity.
Qed.

Lemma slice_bound_in_range n a :
  (0 <= a <= n)%Z -> Interval.slice_bound n a = a.
Proof.
  intros Ha. unfold Interval.slice_bound.
  destruct (a <? 0)%Z eqn:E; [apply Z.ltb_lt in E; lia|lia].
Qed.

(** For corners that are tuples of the grid, the slices select the regions
    between the corners. *)
Lemma in_slices_clipped nrPerDim lo hi idx :
  Interval.in_grid nrPerDim lo -> Interval.in_grid nrPerDim hi ->
  Interval.in_slices nrPerDim lo hi idx = true <-> Interval.in_box lo hi idx.
Proof.
  unfold Interval.in_grid, Interval.in_box. intros Hlo. revert hi idx.
  induction Hlo as [|a n lo ns Ha Hlo IH]; intros hi idx Hhi.
  - apply Forall2_nil_inv_r in Hhi as ->. destruct idx; simpl.
    + split; [constructor|reflexivity].
    + split; [discriminate|]. intros Hf. apply Forall2_nil_inv_r in Hf. discriminate.
  - apply Forall2_cons_inv_r in Hhi as (b & hi' & Hb & Hhi & ->).
    destruct idx as [|i idx]; simpl.
    + split; [discriminate|]. intros Hf. apply Forall2_nil_inv_l in Hf. discriminate.
    + rewrite !slice_bound_in_range by lia.
      rewrite !andb_true_iff, Z.leb_le, Z.ltb_lt, (IH hi' idx Hhi).
      rewrite Forall2_cons. cbn [fst snd]. intuition lia.
Qed.

(** Without a cluster that is partially outside, the tests of lines 275
    and 280 are the tests on the tuples of the box alone. *)
Lemma all_in_without_partial nrPerDim S boxes xb :
  Forall (fun b => Interval.partially_out nrPerDim b = false) boxes ->
  Interval.all_in nrPerDim S boxes xb = Interval.box_within S xb.2.
Proof.
  intros Hall. unfold Interval.all_in, Interval.partially_out_at.
  destruct (boxes !! xb.1) as [b|] eqn:Hb; cbn [fmap option_fmap option_map default].
  - rewrite (proj1 (Forall_lookup _ _) Hall _ _ Hb). apply andb_true_r.
  - apply andb_true_r.
Qed.

(** Claim C1, as amended.  In interval mode the counts are these sums of
    cluster sizes.  The absorbing lower count sums the clusters that are
    fully outside, the absorbing upper count those that are partially
    outside.  A cluster in a single region (and not fully outside) adds to
    both counts of that region, or to both counts of the goal or of the
    critical bucket when the region is a goal or a critical region; with
    one index per dimension that region is a region of the grid.  Every
    other cluster that is not fully outside adds to the upper count of the
    regions that the slices from [iMin] to [iMax] select (for corners on the
    grid: the regions between the corners), and to no lower count of a
    region.  Such a cluster adds to the lower count of the goal (critical)
    bucket only when all tuples of its box are goal (critical) tuples, and
    to the upper count of a bucket only when its box has a tuple of the
    bucket; when no cluster is partially outside it does so exactly then,
    the goal bucket going first. *)
Theorem interval_classification (nrPerDim : list Z)
    (goal_idx critical_idx : gset (list Z)) (boxes : list Interval.box) :
  let r := Interval.classify nrPerDim goal_idx critical_idx boxes in
  let t := r.2 in
  let singles := fun m => sum_where
    (fun b => Interval.in_single_region nrPerDim b && m b)
    Interval.value boxes in
  let rest := fun m =>
    sum_where m (fun xb : nat * Interval.box => Interval.value xb.2)
      (Interval.enumerate
         (filter (fun b => Interval.keep nrPerDim b = true) boxes)) in
  r.1.1 = sum_where (Interval.fully_out nrPerDim) Interval.value boxes
  ∧ r.1.2 = sum_where (Interval.partially_out nrPerDim) Interval.value boxes
  ∧ (forall idx, Interval.counts_low t idx
       = singles (Interval.in_region nrPerDim goal_idx critical_idx idx))
  ∧ (forall idx, Interval.counts_upp t idx
       = (singles (Interval.in_region nrPerDim goal_idx critical_idx idx)
          + sum_where
              (fun b => Interval.keep nrPerDim b
                        && Interval.in_slices nrPerDim (Interval.iMin b)
                                              (Interval.iMax b) idx)
              Interval.value boxes)%Z)
  ∧ (exists goal_low goal_upp critical_low critical_upp
            : nat * Interval.box -> bool,
       Interval.counts_goal_low t
         = (singles (Interval.in_goal_bucket goal_idx) + rest goal_low)%Z
       ∧ Interval.counts_goal_upp t
         = (singles (Interval.in_goal_bucket goal_idx) + rest goal_upp)%Z
       ∧ Interval.counts_critical_low t
         = (singles (Interval.in_critical_bucket goal_idx critical_idx)
            + rest critical_low)%Z
       ∧ Interval.counts_critical_upp t
         = (singles (Interval.in_critical_bucket goal_idx critical_idx)
            + rest critical_upp)%Z
       ∧ (forall xb,
            (goal_low xb = true -> Interval.box_within goal_idx xb.2 = true)
            ∧ (critical_low xb = true ->
                 Interval.box_within critical_idx xb.2 = true)
            ∧ (goal_upp xb = true ->
                 Interval.box_within goal_idx xb.2 = true
                 ∨ Interval.touches goal_idx xb.2 = true)
            ∧ (critical_upp xb = true ->
                 Interval.box_within critical_idx xb.2 = true
                 ∨ Interval.touches critical_idx xb.2 = true))
       ∧ (Forall (fun b => Interval.partially_out nrPerDim b = false) boxes ->
          forall xb,
            goal_low xb = Interval.box_within goal_idx xb.2
            ∧ goal_upp xb
              = Interval.box_within goal_idx xb.2
                || negb (Interval.box_within critical_idx xb.2)
                   && Interval.touches goal_idx xb.2
            ∧ critical_low xb
              = negb (Interval.box_within goal_idx xb.2)
                && Interval.box_within critical_idx xb.2
            ∧ critical_upp xb
              = negb (Interval.box_within goal_idx xb.2)
                && (Interval.box_within critical_idx xb.2
                    || Interval.touches critical_idx xb.2)))
  ∧ (forall b, Interval.in_single_region nrPerDim b = true ->
       length (Interval.imin b) = length nrPerDim ->
       length (Interval.imax b) = length nrPerDim ->
       Interval.imax b = Interval.imin b
       ∧ Interval.in_grid nrPerDim (Interval.imin b)
       ∧ zip_with Interval.norm_index nrPerDim (Interval.imin b)
         = Interval.imin b
       ∧ Interval.partially_out nrPerDim b = false)
  ∧ (forall b idx, Interval.in_grid nrPerDim (Interval.iMin b) ->
       Interval.in_grid nrPerDim (Interval.iMax b) ->
       Interval.in_slices nrPerDim (Interval.iMin b) (Interval.iMax b) idx
         = true
       <-> Interval.in_box (Interval.iMin b) (Interval.iMax b) idx).
Proof.
  intros r t singles rest.
  pose proof (classify_counts nrPerDim goal_idx critical_idx boxes)
    as (H1 & H2 & H3 & H4 & H5 & H6).
  split; [reflexivity|]. split; [reflexivity|].
  split; [exact H1|]. split; [exact H2|]. split; [|split].
  - eexists _, _, _, _.
    split; [exact H3|]. split; [exact H4|]. split; [exact H5|].
    split; [exact H6|]. split.
    + intros xb. unfold Interval.all_in.
      destruct (Interval.box_within goal_idx xb.2);
        destruct (Interval.box_within critical_idx xb.2);
        destruct (Interval.partially_out_at nrPerDim boxes xb.1);
        destruct (Interval.touches goal_idx xb.2);
        destruct (Interval.touches critical_idx xb.2);
        cbn; auto 6.
    + intros Hall xb.
      rewrite !(all_in_without_partial nrPerDim _ boxes xb Hall).
      repeat split; reflexivity.
  - intros b. apply single_region_in_grid.
  - intros b idx. apply in_slices_clipped.
Qed.

Lemma interval_classification_witness :
  let boxes := [Interval.Box 3 [(-2)%Z] [(-1)%Z] [0%Z] [0%Z];
                Interval.Box 4 [1%Z] [1%Z] [1%Z] [1%Z];
                Interval.Box 5 [0%Z] [1%Z] [0%Z] [1%Z]] in
  Interval.in_single_region [3%Z] (Interval.Box 4 [1%Z] [1%Z] [1%Z] [1%Z])
    = true
  ∧ (Interval.classify [3%Z] ∅ ∅ boxes).1.1 = 3%Z
  ∧ Interval.counts_low (Interval.classify [3%Z] ∅ ∅ boxes).2 [1%Z] = 4%Z
  ∧ Interval.counts_upp (Interval.classify [3%Z] ∅ ∅ boxes).2 [1%Z] = 9%Z.
Proof.
  intros boxes.
  destruct (interval_classification [3%Z] ∅ ∅ boxes)
    as (H1 & _ & H3 & H4 & _).
  split; [reflexivity|]. split; [rewrite H1; reflexivity|].
  split; [rewrite H3; reflexivity|rewrite H4; reflexivity].
Defined.

(** Counterexample to claim C1 as stated: three regions in a row, the
    regions 0 and 1 are goal regions, and one cluster of 5 samples whose box
    reaches from region 0 to region 1.  The cluster is not in a single
    region and not outside, and it raises the lower count of the goal
    bucket from 0 to 5. *)
Lemma remaining_cluster_raises_goal_lower_count :
  let b := Interval.Box 5 [0%Z] [1%Z] [0%Z] [1%Z] in
  let goal_idx : gset (list Z) := {[ [0%Z]; [1%Z] ]} in
  Interval.keep [3%Z] b = true
  ∧ Interval.in_single_region [3%Z] b = false
  ∧ Interval.fully_out [3%Z] b = false
  ∧ Interval.partially_out [3%Z] b = false
  ∧ Interval.counts_goal_low (Interval.classify [3%Z] goal_idx ∅ [b]).2 = 5%Z
  ∧ Interval.counts_goal_low (Interval.classify [3%Z] goal_idx ∅ []).2 = 0%Z.
Proof. vm_compute. repeat split; reflexivity. Qed.

(** The test of lines 275 and 280 reads [partially_out] at the position of
    the cluster among the remaining ones, not at its own number: behind a
    cluster that is outside, the cluster of the counterexample above no
    longer counts for the lower count of the goal bucket. *)
Lemma partially_out_read_by_position :
  let a := Interval.Box 3 [(-2)%Z] [(-1)%Z] [0%Z] [0%Z] in
  let b := Interval.Box 5 [0%Z] [1%Z] [0%Z] [1%Z] in
  let goal_idx : gset (list Z) := {[ [0%Z]; [1%Z] ]} in
  Interval.partially_out [3%Z] b = false
  ∧ Interval.counts_goal_low (Interval.classify [3%Z] goal_idx ∅ [a; b]).2
    = 0%Z
  ∧ Interval.counts_goal_low (Interval.classify [3%Z] goal_idx ∅ [b; a]).2
    = 5%Z.
Proof. vm_compute. repeat split; reflexivity. Qed.

(** ** Interval mode: the bounds *)

Lemma successor_bounds_first_column Nsamples (memory memory' : list (Q * Q))
    epsilon row :
  fst <$> memory' = fst <$> memory ->
  Interval.successor_bounds Nsamples memory' epsilon row
  = Interval.successor_bounds Nsamples memory epsilon row.
Proof.
  intros Hfst. destruct row as [[succ cl] cu]. unfold Interval.successor_bounds.
  rewrite <- !np_index_fmap, Hfst. reflexivity.
Qed.

Section HoeffdingBound.
Import Reals.

(** The Hoeffding term of the code is the one of the bound:
    [sqrt(ln(2/confidence) / (2*N))]. *)
Lemma hoeffding_epsilon_formula Nsamples confidence :
  Hoeffding.epsilon Nsamples confidence
  = sqrt (ln (2 / confidence) / (2 * IZR Nsamples))%R.
Proof. unfold Hoeffding.epsilon. f_equal. unfold Rdiv. ring. Qed.

(** Claim C3, as amended.  In interval mode the upper bound of every
    successor is [min(1, count_upp / Nsamples + epsilon)], whatever the
    number of clusters: no count of samples or of clusters is compared with
    a bound, and the second column of the scenario table is never read (a
    table with the same first column gives the same result); [epsilon] is
    the float of [sqrt(ln(2/confidence) / (2*Nsamples))].  The table
    gives the lower bound of a successor, from row
    [min(Nsamples - count_low, Nsamples)], and the upper deadlock bound;
    the lower deadlock bound is
    [max(0, counts_absorb_low / Nsamples - epsilon)]. *)
Theorem hoeffding_upper_bound_unconditional (nrPerDim : list Z)
    (goal_idx critical_idx : gset (list Z)) (Nsamples : Z)
    (R_idx : gmap (list Z) Z) (memory : list (Q * Q)) (epsilon : Q)
    (boxes : list Interval.box) (counts : list (Z * Z * Z))
    (raw : raw_bounds) :
  Interval.error_raw nrPerDim goal_idx critical_idx Nsamples R_idx memory
                     epsilon boxes = Some (counts, raw) ->
  length (probability_upp raw) = length counts
  ∧ (∀ i succ cl cu, counts !! i = Some (succ, cl, cu) ->
       probability_upp raw !! i
         = Some (Qmin 1 (inject_Z cu / inject_Z Nsamples + epsilon))
       ∧ ∃ row, np_index memory (Z.min (Nsamples - cl) Nsamples) = Some row
           ∧ probability_low raw !! i = Some row.1)
  ∧ deadlock_low raw
    = Qmax 0 (inject_Z (Interval.masked_sum (Interval.fully_out nrPerDim) boxes)
              / inject_Z Nsamples - epsilon)
  ∧ (∃ row, np_index memory
              (Interval.masked_sum (Interval.partially_out nrPerDim) boxes)
            = Some row
       ∧ deadlock_upp raw = 1 - row.1)
  ∧ (∀ memory' : list (Q * Q), fst <$> memory' = fst <$> memory ->
       Interval.error_raw nrPerDim goal_idx critical_idx Nsamples R_idx
                          memory' epsilon boxes = Some (counts, raw))
  ∧ (∀ confidence : R,
       Hoeffding.epsilon Nsamples confidence
       = sqrt (ln (2 / confidence) / (2 * IZR Nsamples))%R).
Proof.
  unfold Interval.error_raw, Interval.classify.
  set (al := Interval.masked_sum (Interval.fully_out nrPerDim) boxes).
  set (au := Interval.masked_sum (Interval.partially_out nrPerDim) boxes).
  match goal with
  | |- context [Interval.counts_nonzero _ _ _ _ ?t0] => set (t := t0)
  end.
  destruct (Interval.counts_nonzero nrPerDim goal_idx critical_idx R_idx t)
    as [nonzero|]; [|discriminate].
  cbn [mbind option_bind].
  destruct (np_index memory au) as [row|] eqn:Hrow; [|discriminate].
  cbn [mbind option_bind fmap option_fmap option_map].
  destruct (mapM (Interval.successor_bounds Nsamples memory epsilon)
              (Interval.counts_header goal_idx critical_idx t ++ nonzero))
    as [rows|] eqn:Hrows; [|discriminate].
  cbn [mbind option_bind]. intros [= <- <-].
  pose proof (mapM_Some_1 _ _ _ Hrows) as Hall.
  cbn [probability_upp probability_low deadlock_low deadlock_upp].
  split; [rewrite length_fmap; symmetry; eapply length_mapM, Hrows|].
  split; [|split; [reflexivity|split; [exists row; split; reflexivity|split]]].
  - intros i succ cl cu Hi.
    destruct (Forall2_lookup_l _ _ _ _ _ Hall Hi) as (r & Hr & Hsb).
    rewrite !list_lookup_fmap, Hr. cbn [fmap option_fmap option_map].
    unfold Interval.successor_bounds in Hsb.
    destruct (np_index memory (Z.min (Nsamples - cl) Nsamples)) as [m|];
      [|discriminate].
    cbn in Hsb. injection Hsb as <-. split; [reflexivity|].
    exists m. split; reflexivity.
  - intros memory' Hfst.
    assert (Hau : (fun r : Q * Q => 1 - r.1) <$> np_index memory' au
                  = Some (1 - row.1)).
    { change (fun r : Q * Q => 1 - r.1) with ((fun x => 1 - x) ∘ (@fst Q Q)).
      rewrite option_fmap_compose, <- np_index_fmap, Hfst, np_index_fmap, Hrow.
      reflexivity. }
    change (option_map (fun r : Q * Q => 1 - r.1) (np_index memory' au))
      with ((fun r : Q * Q => 1 - r.1) <$> np_index memory' au).
    rewrite Hau. cbn [mbind option_bind].
    rewrite (mapM_ext _ (Interval.successor_bounds Nsamples memory epsilon))
      by (intros x; apply successor_bounds_first_column, Hfst).
    rewrite Hrows. reflexivity.
  - intros confidence. apply hoeffding_epsilon_formula.
Qed.

End HoeffdingBound.

Lemma hoeffding_upper_bound_unconditional_witness :
  let R_idx : gmap (list Z) Z := {[ [0%Z] := 0%Z; [1%Z] := 1%Z; [2%Z] := 2%Z ]} in
  let memory := replicate 11 (1 # 5, 1 # 2) in
  let boxes := [Interval.Box 10 [1%Z] [1%Z] [1%Z] [1%Z]] in
  let raw := RawBounds [1 # 5] [1] [20 # 20] [1%Z] 0 (4 # 5) in
  Interval.error_raw [3%Z] ∅ ∅ 10 R_idx memory (1 # 2) boxes
    = Some ([(1%Z, 10%Z, 10%Z)], raw)
  ∧ probability_upp raw !! 0%nat
    = Some (Qmin 1 (inject_Z 10 / inject_Z 10 + (1 # 2))).
Proof.
  intros R_idx memory boxes raw.
  assert (Hrun : Interval.error_raw [3%Z] ∅ ∅ 10 R_idx memory (1 # 2) boxes
                 = Some ([(1%Z, 10%Z, 10%Z)], raw)) by (vm_compute; reflexivity).
  split; [exact Hrun|].
  destruct (hoeffding_upper_bound_unconditional _ _ _ _ _ _ _ _ _ _ Hrun)
    as (_ & Hupp & _).
  exact (proj1 (Hupp 0%nat 1%Z 10%Z 10%Z eq_refl)).
Defined.

(** Counterexample to claim C3 as stated: a single cluster of all 10
    samples in region 1, a table whose upper entries are all 0.5, and
    [epsilon = 0.5].  The upper bound of the successor is
    [min(1, 10/10 + 0.5) = 1], which is no entry of the table: with one
    cluster, the least number there can be, the bound already comes from
    the Hoeffding term. *)
Lemma single_cluster_upper_bound_not_from_table :
  let R_idx : gmap (list Z) Z := {[ [0%Z] := 0%Z; [1%Z] := 1%Z; [2%Z] := 2%Z ]} in
  let memory := replicate 11 (1 # 5, 1 # 2) in
  let boxes := [Interval.Box 10 [1%Z] [1%Z] [1%Z] [1%Z]] in
  ∃ counts raw,
    Interval.error_raw [3%Z] ∅ ∅ 10 R_idx memory (1 # 2) boxes
      = Some (counts, raw)
    ∧ length boxes = 1%nat
    ∧ probability_upp raw = [1]
    ∧ ∀ row, row ∈ memory -> row.2 < 1.
Proof.
  intros R_idx memory boxes. eexists _, _.
  split; [vm_compute; reflexivity|]. split; [reflexivity|].
  split; [reflexivity|].
  intros row Hin. apply elem_of_replicate in Hin as [-> _]. reflexivity.
Qed.

(** In interval mode the deadlock estimate can be far below zero: one
    cluster of all 10 samples over four regions counts for the upper count
    of each, the four estimates are 0.5, and the deadlock estimate is -1. *)
Lemma deadlock_estimate_negative_interval :
  let R_idx : gmap (list Z) Z :=
    {[ [0%Z; 0%Z] := 0%Z; [0%Z; 1%Z] := 1%Z;
       [1%Z; 0%Z] := 2%Z; [1%Z; 1%Z] := 3%Z ]} in
  ∃ ret,
    Interval.computeScenarioBounds_error [2%Z; 2%Z] ∅ ∅ 10 R_idx
      (replicate 11 (1 # 5, 1 # 2)) (1 # 2)
      [Interval.Box 10 [0%Z; 0%Z] [1%Z; 1%Z] [0%Z; 0%Z] [1%Z; 1%Z]] = Some ret
    ∧ deadlock_approx ret == - (1).
Proof.
  intros R_idx. eexists. split; [vm_compute; reflexivity|]. reflexivity.
Qed.

(** ** Clustering *)

Section ClusteringFacts.
Import Clustering.

Lemma zip_self_eq {A} (p : list A) ab : ab ∈ zip p p -> ab.1 = ab.2.
Proof.
  induction p as [|a p IH]; simpl; intros Hin.
  - apply elem_of_nil in Hin. contradiction.
  - apply elem_of_cons in Hin as [->|Hin]; [reflexivity|auto].
Qed.

Lemma sqdist_self p : sqdist p p == 0.
Proof.
  unfold sqdist. apply Qsum_zero. apply Forall_fmap, Forall_forall.
  intros ab Hin. apply zip_self_eq in Hin. cbn. rewrite Hin. ring.
Qed.

(** The first sample is in its own cluster when the radius is positive. *)
Lemma distance_below_self r p : 0 < r -> distance_below r p p = true.
Proof.
  intros Hr. unfold distance_below.
  destruct (Qlt_le_dec 0 r); [|lra].
  destruct (Qlt_le_dec (sqdist p p) (r * r)) as [|Hle]; [reflexivity|].
  rewrite sqdist_self in Hle. nra.
Qed.

Lemma sqdist_coord p q d a b :
  p !! d = Some a -> q !! d = Some b -> (a - b) * (a - b) <= sqdist p q.
Proof.
  intros Hp Hq. unfold sqdist. apply (Qsum_ge_elem _ d).
  - apply Forall_fmap, Forall_forall. intros [x y] _. cbn.
    generalize (x - y). intros z. nra.
  - rewrite list_lookup_fmap.
    assert (Hz : zip p q !! d = Some (a, b)).
    { apply lookup_zip_with_Some. eauto. }
    rewrite Hz. reflexivity.
Qed.

(** Two samples nearer than [r] differ by less than [r] along every axis. *)
Lemma distance_below_coord r p q d a b :
  distance_below r p q = true -> p !! d = Some a -> q !! d = Some b ->
  0 < r ∧ a - b < r ∧ b - a < r.
Proof.
  unfold distance_below. intros Hd Hp Hq.
  destruct (Qlt_le_dec 0 r) as [Hr|]; [|discriminate].
  destruct (Qlt_le_dec (sqdist p q) (r * r)) as [Hlt|]; [|discriminate].
  pose proof (sqdist_coord p q d a b Hp Hq) as Hc.
  split; [exact Hr|].
  assert (Hsq : forall z, z * z < r * r -> z < r).
  { intros z Hz. destruct (Qlt_le_dec z r) as [|Hge]; [assumption|].
    assert (r * r <= z * z) by (apply Qmult_le_compat_nonneg; lra). lra. }
  split; apply Hsq; [lra|].
  assert (E : (b - a) * (b - a) == (a - b) * (a - b)) by ring. lra.
Qed.

Lemma mask_select_cons {A} (m : bool) mask (x : A) a :
  mask_select (m :: mask) (x :: a)
  = if m then x :: mask_select mask a else mask_select mask a.
Proof.
  unfold mask_select. simpl zip. rewrite filter_cons. cbn [fst].
  destruct m.
  - rewrite decide_True by reflexivity. reflexivity.
  - rewrite decide_False by discriminate. reflexivity.
Qed.

(** The two halves of a split by a mask have the length of the whole. *)
Lemma mask_select_split {A} mask (a : list A) :
  length mask = length a ->
  (length (mask_select mask a) + length (mask_select (negb <$> mask) a))%nat
  = length a.
Proof.
  revert a. induction mask as [|m mask IH]; intros [|x a] Hlen;
    try discriminate; [reflexivity|].
  rewrite fmap_cons, !mask_select_cons. injection Hlen as Hlen.
  specialize (IH a Hlen). destruct m; simpl; lia.
Qed.

(** A part selected by a mask has a length that the mask alone decides. *)
Lemma mask_select_length {A B} mask (a : list A) (b : list B) :
  length mask = length a -> length mask = length b ->
  length (mask_select mask a) = length (mask_select mask b).
Proof.
  revert a b. induction mask as [|m mask IH]; intros [|x a] [|y b] Ha Hb;
    try discriminate; [reflexivity|].
  rewrite !mask_select_cons. injection Ha as Ha. injection Hb as Hb.
  specialize (IH a b Ha Hb). destruct m; simpl; lia.
Qed.

Lemma mask_select_fmap {A} (f : A -> bool) (a : list A) :
  mask_select (f <$> a) a = filter (fun x => f x = true) a.
Proof.
  induction a as [|x a IH]; [reflexivity|].
  rewrite fmap_cons, mask_select_cons, filter_cons, IH.
  destruct (f x).
  - rewrite decide_True by reflexivity. reflexivity.
  - rewrite decide_False by discriminate. reflexivity.
Qed.

Section Axis.
Variable f : Q -> Q -> Q.
Hypothesis f_choice : forall x y, f x y = x \/ f x y = y.

(** A coordinate of the fold of a choice such as [min] or [max] over rows
    is that coordinate of one of the rows, and every row has it. *)
Lemma fold_zip_with_coord rows : forall (acc : point) d l,
  fold_left (zip_with f) rows acc !! d = Some l ->
  (acc !! d = Some l \/ exists p, p ∈ rows /\ p !! d = Some l)
  /\ is_Some (acc !! d) /\ forall p, p ∈ rows -> is_Some (p !! d).
Proof.
  induction rows as [|row rows IH]; intros acc d l Hl; simpl in Hl.
  - split; [left; exact Hl|]. split; [eauto|].
    intros p Hp. apply elem_of_nil in Hp. contradiction.
  - apply IH in Hl as (Hsrc & Hacc & Hrows).
    destruct Hacc as [z Hz].
    apply lookup_zip_with_Some in Hz as (x & y & -> & Hx & Hy).
    split; [|split].
    + destruct Hsrc as [Hsrc|(p & Hp & Hpd)].
      * apply lookup_zip_with_Some in Hsrc as (x' & y' & -> & Hx' & Hy').
        destruct (f_choice x' y') as [->| ->].
        -- left. exact Hx'.
        -- right. exists row. split; [left|exact Hy'].
      * right. exists p. split; [right; exact Hp|exact Hpd].
    + eauto.
    + intros p Hp. apply elem_of_cons in Hp as [->|Hp]; [eauto|auto].
Qed.

End Axis.

Lemma Qmin_choice x y : Qmin x y = x \/ Qmin x y = y.
Proof. unfold Qmin, GenericMinMax.gmin. destruct (x ?= y); auto. Qed.

Lemma Qmax_choice x y : Qmax x y = x \/ Qmax x y = y.
Proof. unfold Qmax, GenericMinMax.gmax. destruct (x ?= y); auto. Qed.

Lemma axis_min_coord rows lo d l :
  axis_min rows = Some lo -> lo !! d = Some l ->
  (exists p, p ∈ rows /\ p !! d = Some l)
  /\ forall p, p ∈ rows -> is_Some (p !! d).
Proof.
  destruct rows as [|r rs]; [discriminate|]. intros [= <-] Hl.
  apply (fold_zip_with_coord _ Qmin_choice) in Hl as (Hsrc & Hacc & Hall).
  split.
  - destruct Hsrc as [Hr|(p & Hp & Hpd)].
    + exists r. split; [left|exact Hr].
    + exists p. split; [right; exact Hp|exact Hpd].
  - intros p Hp. apply elem_of_cons in Hp as [->|Hp]; auto.
Qed.

Lemma axis_max_coord rows hi d u :
  axis_max rows = Some hi -> hi !! d = Some u ->
  (exists p, p ∈ rows /\ p !! d = Some u)
  /\ forall p, p ∈ rows -> is_Some (p !! d).
Proof.
  destruct rows as [|r rs]; [discriminate|]. intros [= <-] Hl.
  apply (fold_zip_with_coord _ Qmax_choice) in Hl as (Hsrc & Hacc & Hall).
  split.
  - destruct Hsrc as [Hr|(p & Hp & Hpd)].
    + exists r. split; [left|exact Hr].
    + exists p. split; [right; exact Hp|exact Hpd].
  - intros p Hp. apply elem_of_cons in Hp as [->|Hp]; auto.
Qed.

(** The box of the samples that are nearer than [r] to [first]. *)
Lemma cluster_box_ok r first rows lo hi :
  first ∈ rows ->
  (forall p, p ∈ rows -> distance_below r first p = true) ->
  axis_min rows = Some lo -> axis_max rows = Some hi ->
  box_ok r lo hi.
Proof.
  intros Hfirst Hnear Hlo Hhi d l u Hl Hu.
  destruct (axis_min_coord _ _ _ _ Hlo Hl) as ((p & Hp & Hpd) & Hall).
  destruct (axis_max_coord _ _ _ _ Hhi Hu) as ((q & Hq & Hqd) & _).
  destruct (Hall first Hfirst) as [c Hc].
  destruct (distance_below_coord r first p d c l (Hnear p Hp) Hc Hpd)
    as (Hr & H1 & H2).
  destruct (distance_below_coord r first q d c u (Hnear q Hq) Hc Hqd)
    as (_ & H3 & H4).
  lra.
Qed.

(** The loop ends within as many turns as there are samples left; the
    sizes it adds sum to the number of samples left, and every box it adds
    is narrower than twice the radius. *)
Lemma cluster_loop_spec r : 0 < r ->
  forall fuel remaining remaining_i acc,
    length remaining_i = length remaining ->
    (length remaining <= fuel)%nat ->
    Forall2 (box_ok r) (lb acc) (ub acc) ->
    exists cl,
      cluster_loop fuel r remaining remaining_i acc = Ok cl
      /\ Zsum (value cl) = (Zsum (value acc) + Z.of_nat (length remaining))%Z
      /\ Forall2 (box_ok r) (lb cl) (ub cl).
Proof.
  intros Hr. induction fuel as [|fuel IH];
    intros remaining remaining_i acc Hlen Hfuel Hbox.
  - destruct remaining; [|simpl in Hfuel; lia].
    exists acc. simpl. split; [reflexivity|]. split; [lia|exact Hbox].
  - destruct remaining as [|first rest].
    { exists acc. simpl. split; [reflexivity|]. split; [lia|exact Hbox]. }
    cbn [cluster_loop].
    assert (Hrem : first ∈ first :: rest) by left.
    set (remaining := first :: rest) in *.
    set (mask := distance_below r first <$> remaining).
    assert (Hmask : length mask = length remaining)
      by (unfold mask; apply length_fmap).
    assert (Hsel : mask_select mask remaining
                   = filter (fun p => distance_below r first p = true) remaining)
      by apply mask_select_fmap.
    assert (Hin : first ∈ mask_select mask remaining).
    { rewrite Hsel. apply list_elem_of_filter. split.
      - apply distance_below_self, Hr.
      - exact Hrem. }
    assert (Haxis : exists lo hi,
              axis_min (mask_select mask remaining) = Some lo
              /\ axis_max (mask_select mask remaining) = Some hi
              /\ (1 <= length (mask_select mask remaining))%nat).
    { destruct (mask_select mask remaining) as [|c0 cs].
      - apply elem_of_nil in Hin. contradiction.
      - eexists _, _. split; [reflexivity|]. split; [reflexivity|simpl; lia]. }
    destruct Haxis as (lo & hi & Hlo & Hhi & Hpos).
    rewrite Hlo, Hhi.
    pose proof (mask_select_split mask remaining Hmask) as Hsplit.
    pose proof (mask_select_length mask remaining_i remaining
                  ltac:(lia) Hmask) as Hvi.
    destruct (IH (mask_select (negb <$> mask) remaining)
                 (mask_select (negb <$> mask) remaining_i)
                 (Clusters
                    (value acc ++
                       [Z.of_nat (length (mask_select mask remaining_i))])
                    (lb acc ++ [lo]) (ub acc ++ [hi])))
      as (cl & Hcl & Hsum & Hok).
    + apply mask_select_length; rewrite length_fmap; lia.
    + subst remaining. simpl in Hfuel, Hsplit. simpl. lia.
    + cbn [lb ub]. apply Forall2_app; [exact Hbox|].
      constructor; [|constructor].
      apply (cluster_box_ok r first (mask_select mask remaining)).
      * exact Hin.
      * intros p Hp. rewrite Hsel in Hp.
        apply list_elem_of_filter in Hp as [Hp _]. exact Hp.
      * exact Hlo.
      * exact Hhi.
    + exists cl. split; [exact Hcl|]. split; [|exact Hok].
      rewrite Hsum. cbn [value]. rewrite Zsum_app.
      unfold Zsum at 2. cbn [fold_left]. subst remaining.
      simpl length in *. lia.
Qed.

Lemma clusters0_spec (fuel : nat) (sample_clustering : Q)
    (noise_samples : Z) (samples : list point) :
  0 < sample_clustering ->
  Z.of_nat (length samples) = noise_samples ->
  (length samples <= fuel)%nat ->
  exists clusters0,
    _computeProbabilityBounds fuel sample_clustering noise_samples
      samples = Ok clusters0
    /\ Zsum (value clusters0) = noise_samples
    /\ Forall2 (box_ok sample_clustering) (lb clusters0) (ub clusters0).
Proof.
  intros Hr Hn Hfuel.
  destruct (cluster_loop_spec sample_clustering Hr fuel samples
              (seq 0 (length samples)) (Clusters [] [] []))
    as (cl & Hcl & Hsum & Hok).
  - apply length_seq.
  - exact Hfuel.
  - constructor.
  - assert (Hs : Zsum (value cl) = noise_samples).
    { rewrite Hsum. cbn [value]. unfold Zsum. cbn [fold_left]. lia. }
    exists cl. unfold _computeProbabilityBounds.
    destruct (Qlt_le_dec 0 sample_clustering); [|lra].
    rewrite Hcl. rewrite decide_True by exact Hs.
    split; [reflexivity|]. split; [exact Hs|exact Hok].
Qed.

End ClusteringFacts.

(** Claim C6.  With a positive clustering radius and as many samples as
    [noise_samples], the clustering loop ends (within one turn per sample)
    and the sizes of its clusters sum to [noise_samples] exactly: the
    assertion of line 752 holds.  Clusters whose sizes sum to anything else
    end the function with an [AssertionError]. *)
Theorem cluster_sizes_sum_to_sample_count (fuel : nat) (sample_clustering : Q)
    (noise_samples : Z) (samples : list Clustering.point) :
  0 < sample_clustering ->
  Z.of_nat (length samples) = noise_samples ->
  (length samples <= fuel)%nat ->
  (exists clusters0,
     Clustering._computeProbabilityBounds fuel sample_clustering noise_samples samples
       = Ok clusters0
     /\ Zsum (Clustering.value clusters0) = noise_samples)
  /\ (forall n clusters0,
        Clustering.cluster_loop fuel sample_clustering samples
          (seq 0 (length samples)) (Clustering.Clusters [] [] [])
          = Ok clusters0 ->
        Zsum (Clustering.value clusters0) <> n ->
        Clustering._computeProbabilityBounds fuel sample_clustering n samples
          = Raised AssertionError).
Proof.
  intros Hr Hn Hfuel. split.
  - destruct (clusters0_spec fuel sample_clustering noise_samples samples
                Hr Hn Hfuel) as (cl & Hcl & Hsum & _).
    exists cl. split; assumption.
  - intros n cl Hcl Hne. unfold Clustering._computeProbabilityBounds.
    destruct (Qlt_le_dec 0 sample_clustering); [|lra].
    rewrite Hcl. rewrite decide_False by exact Hne. reflexivity.
Qed.

Lemma cluster_sizes_sum_to_sample_count_witness :
  0 < 1 # 2
  /\ Z.of_nat (length [[0; 0]; [9 # 10; 0]; [1 # 10; 1 # 10]; [1; 0]; [5; 5]])
     = 5%Z
  /\ exists clusters0,
       Clustering._computeProbabilityBounds 5 (1 # 2) 5
         [[0; 0]; [9 # 10; 0]; [1 # 10; 1 # 10]; [1; 0]; [5; 5]] = Ok clusters0
       /\ Zsum (Clustering.value clusters0) = 5%Z.
Proof.
  split; [reflexivity|]. split; [reflexivity|].
  exact (proj1 (cluster_sizes_sum_to_sample_count 5 (1 # 2) 5
                  [[0; 0]; [9 # 10; 0]; [1 # 10; 1 # 10]; [1; 0]; [5; 5]]
                  eq_refl eq_refl (le_n 5))).
Defined.

(** Claim C7, as amended.  With a positive clustering radius, every
    cluster holds samples that are nearer than the radius to its first
    sample, so its bounding box is narrower than twice the radius along
    every axis: [ub[d] - lb[d] < 2 * radius]. *)
Theorem cluster_box_side_below_diameter (fuel : nat) (sample_clustering : Q)
    (noise_samples : Z) (samples : list Clustering.point) :
  0 < sample_clustering ->
  Z.of_nat (length samples) = noise_samples ->
  (length samples <= fuel)%nat ->
  exists clusters0,
    Clustering._computeProbabilityBounds fuel sample_clustering noise_samples samples
      = Ok clusters0
    /\ length (Clustering.lb clusters0) = length (Clustering.ub clusters0)
    /\ forall i lo hi d l u,
         Clustering.lb clusters0 !! i = Some lo ->
         Clustering.ub clusters0 !! i = Some hi ->
         lo !! d = Some l -> hi !! d = Some u ->
         u - l < 2 * sample_clustering.
Proof.
  intros Hr Hn Hfuel.
  destruct (clusters0_spec fuel sample_clustering noise_samples samples
              Hr Hn Hfuel) as (cl & Hcl & _ & Hok).
  exists cl. split; [exact Hcl|]. split; [eapply Forall2_length, Hok|].
  intros i lo hi d l u Hlo Hhi Hl Hu.
  exact (Forall2_lookup_lr _ _ _ _ _ _ Hok Hlo Hhi d l u Hl Hu).
Qed.

Lemma cluster_box_side_below_diameter_witness :
  0 < 1
  /\ Z.of_nat (length [[0]; [9 # 10]; [- (9 # 10)]]) = 3%Z
  /\ exists clusters0,
       Clustering._computeProbabilityBounds 3 1 3 [[0]; [9 # 10]; [- (9 # 10)]]
         = Ok clusters0
       /\ length (Clustering.lb clusters0) = length (Clustering.ub clusters0).
Proof.
  split; [reflexivity|]. split; [reflexivity|].
  destruct (cluster_box_side_below_diameter 3 1 3
              [[0]; [9 # 10]; [- (9 # 10)]] eq_refl eq_refl (le_n 3))
    as (cl & Hcl & Hlen & _).
  exists cl. split; [exact Hcl|exact Hlen].
Defined.

(** Counterexample to claim C7 as stated: the samples 0, 0.9 and -0.9 on
    a line and the radius 1.  All three are nearer than 1 to the first, so
    they are one cluster, whose box reaches from -0.9 to 0.9: its side 1.8
    is above the radius. *)
Lemma cluster_box_wider_than_radius :
  Clustering._computeProbabilityBounds 3 1 3 [[0]; [9 # 10]; [- (9 # 10)]]
    = Ok (Clustering.Clusters [3%Z] [[- (9 # 10)]] [[9 # 10]])
  /\ ~ ((9 # 10) - - (9 # 10) <= 1).
Proof.
  split; [vm_compute; reflexivity|].
  intros Hle. vm_compute in Hle. apply Hle. reflexivity.
Qed.

(** ** The enabled actions *)

Section ActionFacts.
Import Actions.
Variable R_idx : gmap (list Z) Z.
Variable critical : gset Z.
Variable tup2idx : gmap (list Z) Z.

Lemma grows_refl st : grows st st.
Proof. intros a. reflexivity. Qed.

Lemma grows_trans st1 st2 st3 : grows st1 st2 -> grows st2 st3 -> grows st1 st3.
Proof. intros H12 H23 a. etransitivity; [apply H12|apply H23]. Qed.

Lemma grows_add st enabled' a s :
  grows st (Store enabled'
              (<[a := enabled_in_of st a ∪ {[s]}]> (enabled_in st))).
Proof.
  intros b. unfold enabled_in_of at 2. cbn [enabled_in].
  destruct (decide (a = b)) as [->|Hne].
  - rewrite lookup_insert_eq. cbn [default]. set_solver.
  - rewrite lookup_insert_ne by exact Hne. reflexivity.
Qed.

Lemma enable_state_grows a st s st' :
  enable_state R_idx critical a st s = Some st' -> grows st st'.
Proof.
  unfold enable_state. destruct (R_idx !! s) as [state|]; [|discriminate].
  cbn [mbind option_bind].
  destruct (decide (state ∈ critical)).
  - intros [= <-]. apply grows_refl.
  - destruct (list_set_add (enabled st) state a); [|discriminate].
    cbn [mbind option_bind]. intros [= <-]. apply grows_add.
Qed.

Lemma enable_states_grows a ss : forall st st',
  enable_states R_idx critical a st ss = Some st' -> grows st st'.
Proof.
  induction ss as [|s ss IH]; intros st st'; cbn [enable_states].
  - intros [= <-]. apply grows_refl.
  - destruct (enable_state R_idx critical a st s) as [st1|] eqn:E1;
      [|discriminate]. cbn [mbind option_bind]. intros E2.
    eapply grows_trans; [eapply enable_state_grows, E1|eapply IH, E2].
Qed.

Lemma extra_try_grows LP_solve a st s st' :
  extra_try critical LP_solve a st s = Some st' -> grows st st'.
Proof.
  unfold extra_try. destruct (decide (s ∈ critical)).
  - intros [= <-]. apply grows_refl.
  - destruct (LP_solve a s).
    + destruct (list_set_add (enabled st) s a); [|discriminate].
      cbn [mbind option_bind]. intros [= <-]. apply grows_add.
    + intros [= <-]. apply grows_refl.
Qed.

Lemma extra_regions_grows LP_solve a regions : forall st st',
  extra_regions critical LP_solve a st regions = Some st' -> grows st st'.
Proof.
  induction regions as [|s regions IH]; intros st st'; cbn [extra_regions].
  - intros [= <-]. apply grows_refl.
  - destruct (extra_try critical LP_solve a st s) as [st1|] eqn:E1;
      [|discriminate]. cbn [mbind option_bind]. intros E2.
    eapply grows_trans; [eapply extra_try_grows, E1|eapply IH, E2].
Qed.

Lemma extra_actions_grows LP_solve nr_regions extra_act : forall st st',
  extra_actions critical LP_solve nr_regions st extra_act = Some st' ->
  grows st st'.
Proof.
  induction extra_act as [|a extra_act IH]; intros st st'; cbn [extra_actions].
  - intros [= <-]. apply grows_refl.
  - destruct (extra_regions critical LP_solve a st _) as [st1|] eqn:E1;
      [|discriminate]. cbn [mbind option_bind]. intros E2.
    eapply grows_trans; [eapply extra_regions_grows, E1|eapply IH, E2].
Qed.

(** A step of the composition counts an action only when its set
    [enabled_in] is not empty. *)
Lemma compose_step_spec st n kv st' n' :
  compose_step R_idx critical tup2idx (st, n) kv = Some (st', n') ->
  grows st st'
  /\ (n' = n \/ (n' = (n + 1)%Z /\ exists a, enabled_in_of st' a ≠ ∅)).
Proof.
  unfold compose_step. destruct kv as [keys vals_enab].
  destruct (tuple_sum keys) as [key|]; [|discriminate].
  cbn [mbind option_bind].
  destruct (tup2idx !! key) as [act_idx|]; [|discriminate].
  cbn [mbind option_bind].
  destruct (match product vals_enab with
            | [] => None
            | _ :: _ => mapM tuple_sum (product vals_enab)
            end) as [s_enabledin|]; [|discriminate].
  cbn [mbind option_bind].
  destruct (enable_states R_idx critical act_idx st s_enabledin)
    as [st1|] eqn:E1; [|discriminate].
  cbn [mbind option_bind]. intros [= <- <-].
  split; [eapply enable_states_grows, E1|].
  destruct (decide (0 < size (enabled_in_of st1 act_idx))%nat) as [Hpos|]; [|auto].
  right. split; [reflexivity|]. exists act_idx. intros Hempty.
  rewrite Hempty, size_empty in Hpos. lia.
Qed.

Lemma compose_loop_spec kvs : forall st n st' n',
  compose_loop R_idx critical tup2idx (st, n) kvs = Some (st', n') ->
  grows st st' /\ (n' = n \/ exists a, enabled_in_of st' a ≠ ∅).
Proof.
  induction kvs as [|kv kvs IH]; intros st n st' n'; cbn [compose_loop].
  - intros [= <- <-]. split; [apply grows_refl|auto].
  - destruct (compose_step R_idx critical tup2idx (st, n) kv)
      as [[st1 n1]|] eqn:E1; [|discriminate].
    cbn [mbind option_bind]. intros E2.
    apply compose_step_spec in E1 as [G1 Hn1].
    destruct (IH _ _ _ _ E2) as [G2 Hn2].
    split; [eapply grows_trans; eassumption|].
    destruct Hn2 as [->|Hne]; [|right; exact Hne].
    destruct Hn1 as [->|[_ (a & Ha)]]; [left; reflexivity|].
    right. exists a. intros Hempty. apply Ha.
    specialize (G2 a). rewrite Hempty in G2. clear -G2. set_solver.
Qed.

End ActionFacts.

(** Claim C8.  When [define_actions] gets as far as its check and no
    action is enabled in any region at that point (every [enabled_in] is
    empty), the count printed is 0, the warning "No actions enabled at
    all, so terminate" follows, and the process exits: nothing is run or
    printed after [sys.exit], and nothing is tried again. *)
Theorem no_enabled_action_is_fatal (R_idx : gmap (list Z) Z)
    (critical : gset Z) (tup2idx : gmap (list Z) Z) (nr_regions : nat)
    (enabled_sub_inv : list (list (list Z * list (list Z))))
    (enabled_in0 : gmap Z (gset Z)) (LP_solve : Z -> Z -> bool)
    (extra_act : list Z) (trace : list Actions.event) (st : Actions.store)
    (returns : bool) :
  Actions.define_actions R_idx critical tup2idx nr_regions enabled_sub_inv
                         enabled_in0 LP_solve extra_act
    = Some (trace, st, returns) ->
  (forall a, Actions.enabled_in_of st a = ∅) ->
  returns = false
  /\ trace = [Actions.PrintCount 0 "actions enabled";
              Actions.PrintWarning "No actions enabled at all, so terminate";
              Actions.SysExit].
Proof.
  unfold Actions.define_actions, Actions._composeEnabledActions.
  destruct (Actions.compose_loop R_idx critical tup2idx _ _)
    as [[st1 nr_act]|] eqn:E1; [|discriminate].
  cbn [mbind option_bind].
  destruct (Actions.extra_actions critical LP_solve nr_regions st1 extra_act)
    as [st2|] eqn:E2; [|discriminate].
  cbn [mbind option_bind]. intros Hres Hempty.
  apply compose_loop_spec in E1 as [_ Hn].
  apply extra_actions_grows in E2.
  assert (Hzero : nr_act = 0%Z).
  { destruct Hn as [->|(a & Ha)]; [reflexivity|].
    exfalso. apply Ha.
    assert (st2 = st) as -> by (destruct (decide (nr_act = 0%Z)); congruence).
    specialize (E2 a). rewrite Hempty in E2. set_solver. }
  subst nr_act. rewrite decide_True in Hres by reflexivity.
  injection Hres as <- <- <-. split; reflexivity.
Qed.

Lemma no_enabled_action_is_fatal_witness :
  let R_idx : gmap (list Z) Z := {[ [0%Z] := 0%Z; [1%Z] := 1%Z ]} in
  let critical : gset Z := {[ 1%Z ]} in
  let tup2idx : gmap (list Z) Z := {[ [0%Z] := 0%Z ]} in
  let enabled_sub_inv := [[([0%Z], [[1%Z]])]] in
  let st := Actions.Store [∅; ∅] ∅ in
  let trace := [Actions.PrintCount 0 "actions enabled";
                Actions.PrintWarning "No actions enabled at all, so terminate";
                Actions.SysExit] in
  Actions.define_actions R_idx critical tup2idx 2 enabled_sub_inv ∅
    (fun _ _ => false) [] = Some (trace, st, false)
  /\ (forall a, Actions.enabled_in_of st a = ∅)
  /\ false = false.
Proof.
  intros R_idx critical tup2idx enabled_sub_inv st trace.
  assert (Hrun : Actions.define_actions R_idx critical tup2idx 2
                   enabled_sub_inv ∅ (fun _ _ => false) []
                 = Some (trace, st, false)) by (vm_compute; reflexivity).
  assert (Hempty : forall a, Actions.enabled_in_of st a = ∅)
    by (intros a; reflexivity).
  split; [exact Hrun|]. split; [exact Hempty|].
  exact (proj1 (no_enabled_action_is_fatal _ _ _ _ _ _ _ _ _ _ _ Hrun Hempty)).
Defined.

(** ** Reading the solver results *)

Lemma policy_entry_field (f : Prism.field) z :
  Prism.policy_entry (Prism.fillna (-1) f) = Some z ->
  match f with
  | None => z = (-1)%Z
  | Some s => exists piece, Prism.split "_" s !! 1%nat = Some piece
                            /\ Prism.py_int piece = Some z
  end.
Proof.
  destruct f as [s|]; cbn [Prism.fillna Prism.policy_entry].
  - destruct (Prism.split "_" s !! 1%nat) as [piece|]; [|discriminate].
    cbn [mbind option_bind]. intros Hz. exists piece. split; [reflexivity|exact Hz].
  - rewrite decide_False by (intros Hne; apply Hne; reflexivity).
    intros [= <-]. reflexivity.
Qed.

(** Claim C9.  When every field of the policy file beyond its first three
    columns is empty or a text whose second piece between underscores is
    an integer, [loadPRISMresults] returns; the policy has the rows of the
    file in reverse order, without their first three columns, an empty
    field giving [-1] and any other field the integer of its second piece;
    the values are the rows of the vector file without the first three,
    each subtracted from [1] when the problem type is true and unchanged
    otherwise. *)
Theorem solver_results_reimport (problem_type : bool)
    (policy_rows : list (list Prism.field)) (vector_rows : list (list Q)) :
  (forall row s, row ∈ policy_rows -> Some s ∈ drop 3 row ->
     exists piece z, Prism.split "_" s !! 1%nat = Some piece
                     /\ Prism.py_int piece = Some z) ->
  exists res,
    Prism.loadPRISMresults problem_type policy_rows vector_rows = Some res
    /\ length (Prism.optimal_policy res) = length policy_rows
    /\ (forall i row, policy_rows !! i = Some row ->
          exists out,
            Prism.optimal_policy res !! (length policy_rows - S i)%nat
              = Some out
            /\ length out = (length row - 3)%nat
            /\ forall j f, row !! (3 + j)%nat = Some f ->
                 match f with
                 | None => out !! j = Some (-1)%Z
                 | Some s =>
                     exists piece z, Prism.split "_" s !! 1%nat = Some piece
                                     /\ Prism.py_int piece = Some z
                                     /\ out !! j = Some z
                 end)
    /\ Prism.optimal_reward res
       = if problem_type
         then (fun v => 1 - v) <$> concat (drop 3 vector_rows)
         else concat (drop 3 vector_rows).
Proof.
  intros Hwf. unfold Prism.loadPRISMresults.
  set (policy_all :=
         reverse ((fun row => Prism.fillna (-1) <$> drop 3 row) <$> policy_rows)).
  assert (Hsome : is_Some (mapM (mapM Prism.policy_entry) policy_all)).
  { apply mapM_is_Some_2, Forall_forall. intros r Hr.
    unfold policy_all in Hr. rewrite elem_of_reverse in Hr.
    apply list_elem_of_fmap in Hr as (row & -> & Hrow).
    apply mapM_is_Some_2, Forall_forall. intros e He.
    apply list_elem_of_fmap in He as (f & -> & Hf).
    destruct f as [s|]; cbn [Prism.fillna compose Prism.policy_entry].
    - destruct (Hwf row s Hrow Hf) as (piece & z & Hp & Hz).
      rewrite Hp. cbn [mbind option_bind]. eauto.
    - rewrite decide_False by (intros Hne; apply Hne; reflexivity). eauto. }
  destruct Hsome as [pol Hpol]. rewrite Hpol. cbn [mbind option_bind].
  eexists. split; [reflexivity|].
  cbn [Prism.optimal_policy Prism.optimal_reward].
  pose proof (mapM_Some_1 _ _ _ Hpol) as Hall.
  assert (Hlen : length pol = length policy_rows).
  { rewrite <- (Forall2_length _ _ _ Hall). unfold policy_all.
    rewrite length_reverse, length_fmap. reflexivity. }
  split; [exact Hlen|]. split; [|destruct problem_type; reflexivity].
  intros i row Hi.
  pose proof (lookup_lt_Some _ _ _ Hi) as Hlt.
  assert (Hrev : policy_all !! (length policy_rows - S i)%nat
                 = Some (Prism.fillna (-1) <$> drop 3 row)).
  { unfold policy_all. rewrite reverse_lookup by (rewrite length_fmap; lia).
    rewrite length_fmap.
    replace (length policy_rows - S (length policy_rows - S i))%nat with i by lia.
    rewrite list_lookup_fmap, Hi. reflexivity. }
  destruct (Forall2_lookup_l _ _ _ _ _ Hall Hrev) as (out & Hout & Hrow).
  exists out. split; [exact Hout|].
  pose proof (mapM_Some_1 _ _ _ Hrow) as Hcells.
  split.
  - rewrite <- (Forall2_length _ _ _ Hcells), length_fmap, length_drop.
    reflexivity.
  - intros j f Hf.
    assert (Hj : (Prism.fillna (-1) <$> drop 3 row) !! j
                 = Some (Prism.fillna (-1) f)).
    { rewrite list_lookup_fmap, lookup_drop.
      exact (f_equal (fmap (Prism.fillna (-1))) Hf). }
    destruct (Forall2_lookup_l _ _ _ _ _ Hcells Hj) as (z & Hz & Hentry).
    apply policy_entry_field in Hentry. destruct f as [s|].
    + destruct Hentry as (piece & Hp & Hint). eauto.
    + subst z. exact Hz.
Qed.

Lemma solver_results_reimport_witness :
  let policy_rows : list (list Prism.field) :=
    [[Some "0"; Some "0"; Some "0"; Some "a_1"; None];
     [Some "1"; Some "0"; Some "0"; Some "a_3"; Some "a_4"]]%string in
  let vector_rows := [[1]; [2]; [3]; [1 # 4]; [1 # 2]] in
  (forall row s, row ∈ policy_rows -> Some s ∈ drop 3 row ->
     exists piece z, Prism.split "_" s !! 1%nat = Some piece
                     /\ Prism.py_int piece = Some z)
  /\ exists res,
       Prism.loadPRISMresults true policy_rows vector_rows = Some res
       /\ length (Prism.optimal_policy res) = length policy_rows.
Proof.
  intros policy_rows vector_rows.
  assert (Hwf : forall row s, row ∈ policy_rows -> Some s ∈ drop 3 row ->
            exists piece z, Prism.split "_" s !! 1%nat = Some piece
                            /\ Prism.py_int piece = Some z).
  { intros row s Hrow Hs. unfold policy_rows in Hrow.
    rewrite !elem_of_cons, elem_of_nil in Hrow.
    destruct Hrow as [->|[->|[]]]; cbn [drop] in Hs;
      rewrite !elem_of_cons, elem_of_nil in Hs;
      repeat match goal with
             | H : _ \/ _ |- _ => destruct H as [H|H]
             | H : False |- _ => destruct H
             | H : Some _ = None |- _ => discriminate H
             | H : Some _ = Some _ |- _ => injection H as ->
             end;
      eexists _, _; split; vm_compute; reflexivity. }
  split; [exact Hwf|].
  destruct (solver_results_reimport true policy_rows vector_rows Hwf)
    as (res & Hres & Hlen & _).
  exists res. split; [exact Hres|exact Hlen].
Defined.

(** The policy and the values read from a file of two lines and a vector
    of five: the lines change places, the empty field is [-1], and the
    values are subtracted from 1. *)
Lemma solver_results_reimport_example :
  Prism.loadPRISMresults true
    [[Some "0"; Some "0"; Some "0"; Some "a_1"; None];
     [Some "1"; Some "0"; Some "0"; Some "a_3"; Some "a_4"]]%string
    [[1]; [2]; [3]; [1 # 4]; [1 # 2]]
  = Some (Prism.Results [[3; 4]; [1; -1]]%Z [1 - (1 # 4); 1 - (1 # 2)]).
Proof. reflexivity. Qed.

(** * Further properties *)

(** ** [floor_decimal] and the ends of the printed intervals *)















(** ** [nchoosek] *)

Section NchoosekFacts.
Import Commons.




Lemma binom_above n k : (n < k)%nat -> binom n k = 0%nat.
Proof.
  revert k. induction n as [|n IH]; intros [|k] Hk; try lia; [reflexivity|].
  simpl. rewrite !IH by lia. reflexivity.
Qed.

Lemma binom_diag n : binom n n = 1%nat.
Proof.
  induction n as [|n IH]; [reflexivity|].
  simpl. rewrite IH, binom_above by lia. reflexivity.
Qed.






End NchoosekFacts.





(** ** [point_in_poly] *)

Section PolygonFacts.
Import Polygon.

Lemma Qle_bool_spec a b : reflect (a <= b) (Qle_bool a b).
Proof.
  destruct (Qle_bool a b) eqn:E; constructor.
  - apply Qle_bool_iff, E.
  - intros H. apply Qle_bool_iff in H. congruence.
Qed.

Lemma Qeq_bool_spec a b : reflect (a == b) (Qeq_bool a b).
Proof.
  destruct (Qeq_bool a b) eqn:E; constructor.
  - apply Qeq_bool_eq, E.
  - apply Qeq_bool_neq, E.
Qed.

(* one step agrees with crosses, whatever stale xints is *)
Lemma edge_step_crosses x y st p2 :
  exists xi, edge_step x y st p2
    = Some (Scan (xorb (inside st) (crosses x y (p1 st, p2))) p2 xi).
Proof.
  unfold edge_step, crosses. destruct (p1 st) as [p1x p1y], p2 as [p2x p2y].
  destruct (Qle_bool_spec y (Qmin p1y p2y)) as [H1|H1]; cbn [negb andb];
    [rewrite xorb_false_r; eauto|].
  destruct (Qle_bool_spec y (Qmax p1y p2y)) as [H2|H2]; cbn [negb andb];
    [|rewrite xorb_false_r; eauto].
  destruct (Qle_bool_spec x (Qmax p1x p2x)) as [H3|H3]; cbn [negb andb];
    [|rewrite xorb_false_r; eauto].
  destruct (Qeq_bool_spec p1y p2y) as [H4|H4]; cbn [negb].
  { exfalso. apply H1. rewrite H4 in *.
    rewrite Q.max_id in H2. rewrite Q.min_id. exact H2. }
  destruct (Qeq_bool_spec p1x p2x) as [H5|H5]; cbn [orb].
  { rewrite xorb_true_r. eauto. }
  cbn [mbind option_bind].
  destruct (Qle_bool x _); [rewrite xorb_true_r|rewrite xorb_false_r]; eauto.
Qed.

Lemma edge_loop_crosses x y poly : forall (idxs : list nat) st vs,
  poly <> [] ->
  Forall2 (fun i v => poly !! (i mod length poly)%nat = Some v) idxs vs ->
  exists xi last,
    edge_loop x y poly idxs st
    = Some (Scan (xorb (inside st)
                   (Nat.odd (length (filter (fun e => crosses x y e = true)
                                        (zip (p1 st :: vs) vs)))))
                 last xi).
Proof.
  intros idxs st vs Hne HF. revert st.
  induction HF as [|i v idxs vs Hi HF IH]; intros st.
  - simpl. rewrite xorb_false_r. destruct st. eauto.
  - cbn [edge_loop]. rewrite Hi. cbn [mbind option_bind].
    destruct (edge_step_crosses x y st v) as [xi ->]. cbn [mbind option_bind].
    destruct (IH (Scan (xorb (inside st) (crosses x y (p1 st, v))) v xi))
      as (xi' & last & ->).
    exists xi', last. f_equal. f_equal.
    cbn [inside p1 zip zip_with]. rewrite filter_cons.
    destruct (crosses x y (p1 st, v)) eqn:E.
    + rewrite decide_True by reflexivity. cbn [length].
      rewrite Nat.odd_succ, <- Nat.negb_odd.
      destruct (inside st), (Nat.odd _); reflexivity.
    + rewrite decide_False by discriminate.
      rewrite xorb_false_r. reflexivity.
Qed.

Lemma crosses_degenerate x y p : crosses x y (p, p) = false.
Proof.
  unfold crosses. destruct p as [px py].
  rewrite Q.min_id, Q.max_id.
  destruct (Qle_bool y py); reflexivity.
Qed.

Lemma cycle_lookup (p : vertex) ps :
  Forall2 (fun i v => (p :: ps) !! (i mod length (p :: ps))%nat = Some v)
          (seq 0 (length (p :: ps) + 1)) (p :: ps ++ [p]).
Proof.
  set (poly := p :: ps).
  replace (length poly + 1)%nat with (S (length ps) + 1)%nat by reflexivity.
  rewrite seq_app. change (p :: ps ++ [p]) with (poly ++ [p]).
  apply Forall2_app.
  - apply Forall2_same_length_lookup_2.
    + rewrite length_seq. reflexivity.
    + intros i j v Hj Hv. apply lookup_seq in Hj as [-> Hlt].
      rewrite Nat.mod_small by exact Hlt. exact Hv.
  - cbn [seq]. constructor; [|constructor].
    change (0 + S (length ps))%nat with (length poly).
    rewrite Nat.Div0.mod_same. reflexivity.
Qed.

Lemma zip_longer_l {A B} (l : list A) (k : list B) l' :
  (length k <= length l)%nat -> zip (l ++ l') k = zip l k.
Proof.
  revert k. induction l as [|a l IH]; intros [|b k] Hlen; simpl in *;
    try reflexivity; try lia.
  - destruct l'; reflexivity.
  - f_equal. apply IH. lia.
Qed.

Lemma point_in_poly_cons (x y : Q) (p : vertex) (ps : list vertex) :
  point_in_poly x y (p :: ps) = Some (Nat.odd (crossings x y (p :: ps))).
Proof.
  unfold point_in_poly. cbn [lookup list_lookup mbind option_bind].
  destruct (edge_loop_crosses x y (p :: ps) (seq 0 (length (p :: ps) + 1))
              (Scan false p None) (p :: ps ++ [p]) ltac:(discriminate)
              (cycle_lookup p ps)) as (xi & last & ->).
  cbn [mbind option_bind inside p1]. f_equal.
  unfold crossings, edges.
  change (zip (p :: p :: ps ++ [p]) (p :: ps ++ [p]))
    with ((p, p) :: zip (p :: ps ++ [p]) (ps ++ [p])).
  rewrite filter_cons, crosses_degenerate.
  rewrite decide_False by discriminate.
  replace (zip (p :: ps ++ [p]) (ps ++ [p])) with (zip (p :: ps) (ps ++ [p])).
  - reflexivity.
  - symmetry. apply (zip_longer_l (p :: ps) (ps ++ [p]) [p]).
    rewrite length_app. simpl. lia.
Qed.

(** Property X5.  [point_in_poly] raises on a polygon without vertices
    and returns on every other one: [xints] is never read before it is
    assigned, and the value left in it by an earlier edge is never used,
    because an edge that passes the two tests on [y] is not horizontal.
    The result is the parity of the number of edges of the closed polygon
    that pass the four tests of the loop body. *)
Theorem point_in_poly_crossing_parity (x y : Q) (poly : list Polygon.vertex) :
  Polygon.point_in_poly x y poly
  = match poly with
    | [] => None
    | _ :: _ => Some (Nat.odd (Polygon.crossings x y poly))
    end.
Proof.
  destruct poly as [|p ps]; [reflexivity|]. apply point_in_poly_cons.
Qed.




Lemma crosses_false x y (u v : vertex) :
  (u.1 < x /\ v.1 < x) \/ (y <= u.2 /\ y <= v.2) \/ (u.2 < y /\ v.2 < y) ->
  crosses x y (u, v) = false.
Proof.
  destruct u as [p1x p1y], v as [p2x p2y]. cbn [fst snd]. intros Hc.
  unfold crosses.
  destruct (Qle_bool_spec y (Qmin p1y p2y)) as [C|C]; [reflexivity|].
  destruct (Qle_bool_spec y (Qmax p1y p2y)) as [D|D]; [|reflexivity].
  destruct (Qle_bool_spec x (Qmax p1x p2x)) as [E|E]; [|reflexivity].
  exfalso. destruct Hc as [[H1 H2]|[[H1 H2]|[H1 H2]]].
  - destruct (Q.max_dec p1x p2x) as [M|M]; rewrite M in E; lra.
  - apply C. apply Q.min_glb; assumption.
  - destruct (Q.max_dec p1y p2y) as [M|M]; rewrite M in D; lra.
Qed.





Lemma crosses_horizontal x y a b c : crosses x y ((a, c), (b, c)) = false.
Proof.
  apply crosses_false. cbn [fst snd].
  destruct (Qlt_le_dec c y); [right; right|right; left]; split; assumption.
Qed.

Lemma crosses_vertical x y b c d :
  crosses x y ((b, c), (b, d))
  = negb (Qle_bool y (Qmin c d)) && Qle_bool y (Qmax c d) && Qle_bool x b.
Proof.
  unfold crosses.
  replace (Qeq_bool b b) with true by (symmetry; apply Qeq_bool_iff; reflexivity).
  rewrite orb_true_l, andb_true_r. f_equal.
  destruct (Qle_bool_spec x (Qmax b b)) as [A|A], (Qle_bool_spec x b) as [B|B];
    try reflexivity; exfalso; rewrite Q.max_id in A; contradiction.
Qed.

Lemma Qle_bool_ext a b b' : b == b' -> Qle_bool a b = Qle_bool a b'.
Proof.
  intros E. destruct (Qle_bool_spec a b), (Qle_bool_spec a b');
    try reflexivity; exfalso; lra.
Qed.


(** Property X7.  For the rectangle with the corners [(a, c)], [(b, c)],
    [(b, d)], [(a, d)] the answer of [point_in_poly] is
    [min(a,b) < x <= max(a,b) and min(c,d) < y <= max(c,d)]: the right and
    the upper side belong to the rectangle, the left and the lower side do
    not. *)
Theorem point_in_rectangle (x y a b c d : Q) :
  Polygon.point_in_poly x y [(a, c); (b, c); (b, d); (a, d)]
  = Some (negb (Qle_bool x (Qmin a b)) && Qle_bool x (Qmax a b)
          && negb (Qle_bool y (Qmin c d)) && Qle_bool y (Qmax c d)).
Proof.
  rewrite point_in_poly_cons. f_equal.
  unfold crossings, edges. cbn [zip zip_with app].
  rewrite !filter_cons, filter_nil.
  rewrite !crosses_horizontal, !crosses_vertical.
  rewrite (Qle_bool_ext y _ _ (Q.min_comm d c)),
          (Qle_bool_ext y _ _ (Q.max_comm d c)).
  rewrite !(decide_False (P := false = true)) by discriminate.
  destruct (Qle_bool_spec y (Qmin c d)) as [A|A]; cbn [negb andb].
  { rewrite !(decide_False (P := false = true)) by discriminate.
    rewrite !andb_false_r. reflexivity. }
  destruct (Qle_bool_spec y (Qmax c d)) as [B|B]; cbn [negb andb].
  2:{ rewrite !(decide_False (P := false = true)) by discriminate.
      rewrite !andb_false_r. reflexivity. }
  rewrite !andb_true_r.
  destruct (Qle_bool_spec x a) as [Ha|Ha], (Qle_bool_spec x b) as [Hb|Hb];
    destruct (Qle_bool_spec x (Qmin a b)) as [Hm|Hm];
    destruct (Qle_bool_spec x (Qmax a b)) as [HM|HM];
    rewrite ?(decide_True (P := true = true)) by reflexivity;
    rewrite ?(decide_False (P := false = true)) by discriminate;
    try reflexivity; exfalso;
    pose proof (Q.le_min_l a b); pose proof (Q.le_min_r a b);
    pose proof (Q.le_max_l a b); pose proof (Q.le_max_r a b);
    destruct (Q.min_dec a b) as [E1|E1]; destruct (Q.max_dec a b) as [E2|E2];
    rewrite ?E1, ?E2 in *; lra.
Qed.

End PolygonFacts.


(** ** [setStateBlock] and the centres of the regions *)

Section GridFacts.
Import Grid.

Lemma linspace_length start stop num pts :
  linspace start stop num = Some pts -> Z.of_nat (length pts) = num.
Proof.
  unfold linspace. destruct (decide (num < 0)%Z); [discriminate|].
  intros [= <-].
  destruct (decide (1 < num)%Z); rewrite ?length_insert, length_fmap, length_seqZ; lia.
Qed.

Lemma linspace_lookup start stop num pts (i : nat) :
  linspace start stop num = Some pts -> (Z.of_nat i < num)%Z -> (1 < num)%Z ->
  exists x, pts !! i = Some x
    /\ x == start + inject_Z (Z.of_nat i) * ((stop - start) / inject_Z (num - 1)).
Proof.
  unfold linspace. destruct (decide (num < 0)%Z); [discriminate|].
  intros [= <-] Hi Hn.
  rewrite decide_True by lia.
  assert (Hd : 0 < inject_Z (num - 1)).
  { change 0 with (inject_Z 0). rewrite <- Zlt_Qlt. lia. }
  destruct (decide (i = Z.to_nat (num - 1))) as [->|Hne].
  - exists stop. split.
    + apply list_lookup_insert_eq. rewrite length_fmap, length_seqZ. lia.
    + rewrite Z2Nat.id by lia. field. lra.
  - rewrite list_lookup_insert_ne by congruence.
    rewrite list_lookup_fmap, lookup_seqZ_lt by lia. cbn [fmap option_fmap option_map].
    rewrite decide_True by lia.
    eexists. split; [reflexivity|]. rewrite Z.add_0_l. lra.
Qed.

Lemma linspace_single start stop : linspace start stop 1 = Some [0 * (stop - start) + start].
Proof. reflexivity. Qed.

(** ** itertools.product *)

Lemma product_elem {A} (ls : list (list A)) (t : list A) :
  t ∈ Actions.product ls <-> Forall2 (fun x l => x ∈ l) t ls.
Proof.
  revert t. induction ls as [|l ls IH]; intros t; cbn [Actions.product].
  - rewrite list_elem_of_singleton. split.
    + intros ->. constructor.
    + intros HF. inversion HF. reflexivity.
  - rewrite list_elem_of_bind. split.
    + intros (x & Ht & Hx). apply list_elem_of_fmap in Ht as (t' & -> & Ht').
      constructor; [exact Hx|]. apply IH, Ht'.
    + intros HF. inversion HF as [|x l' t' ls' Hx HF']; subst.
      exists x. split; [|exact Hx]. apply list_elem_of_fmap.
      exists t'. split; [reflexivity|]. apply IH, HF'.
Qed.

Lemma product_length {A} (ls : list (list A)) :
  length (Actions.product ls) = fold_right Nat.mul 1%nat (length <$> ls).
Proof.
  induction ls as [|l ls IH]; [reflexivity|].
  cbn [Actions.product fmap list_fmap fold_right]. rewrite <- IH.
  induction l as [|x l IHl]; [reflexivity|].
  cbn [mbind list_bind]. rewrite length_app, length_fmap.
  change (length (mbind (M:=list) (fun x0 => (fun t => x0 :: t) <$> Actions.product ls) l))
    with (length (x ← l; (fun t => x :: t) <$> Actions.product ls)) in *.
  simpl in *. lia.
Qed.

Lemma broadcast_same {A B C} (f : A -> B -> C) a b :
  length a = length b -> broadcast f a b = Some (zip_with f a b).
Proof. intros H. unfold broadcast. rewrite decide_True by exact H. reflexivity. Qed.

(** The centres that ['all'] stands for along one axis. *)
Lemma all_row (partition : partition_setup) center_domain d n w o :
  nrPerDim partition !! d = Some n -> origin partition !! d = Some o ->
  center_domain !! d = Some ((inject_Z n - 1) * (1 # 2) * w) ->
  (0 <= n)%Z ->
  exists r, block_row partition center_domain d All = Some r
    /\ Z.of_nat (length r) = n
    /\ forall (i : nat) x, r !! i = Some x ->
         x == o + (inject_Z (Z.of_nat i) - (inject_Z n - 1) / 2) * w.
Proof.
  intros Hn Ho Hc Hpos. cbn [block_row]. rewrite Hc, Ho, Hn.
  cbn [mbind option_bind].
  set (c := (inject_Z n - 1) * (1 # 2) * w).
  destruct (linspace (- c + o) (c + o) n) as [r|] eqn:Hr.
  2:{ unfold linspace in Hr. rewrite decide_False in Hr by lia. discriminate. }
  exists r. split; [reflexivity|].
  pose proof (linspace_length _ _ _ _ Hr) as Hlen.
  split; [exact Hlen|]. intros i x Hi.
  assert (Hlt : (Z.of_nat i < n)%Z).
  { apply lookup_lt_Some in Hi. lia. }
  destruct (decide (1 < n)%Z) as [H1|H1].
  - destruct (linspace_lookup _ _ _ _ i Hr Hlt H1) as (x' & Hx' & Ex).
    rewrite Hi in Hx'. injection Hx' as <-. rewrite Ex.
    assert (Hd : 0 < inject_Z (n - 1)).
    { change 0 with (inject_Z 0). rewrite <- Zlt_Qlt. lia. }
    unfold c. unfold Z.sub in *. rewrite inject_Z_plus, inject_Z_opp in *.
    change (inject_Z 1) with 1 in *. field. lra.
  - assert (n = 1%Z) as -> by lia. assert (i = 0%nat) as -> by lia.
    rewrite linspace_single in Hr. injection Hr as <-.
    injection Hi as <-. unfold c. change (inject_Z 1) with 1.
    change (inject_Z (Z.of_nat 0)) with 0. field.
Qed.

Lemma mapM_enumerate {A B} (f : nat -> A -> option B) (P : nat -> A -> B -> Prop)
    (l : list A) :
  (forall i a, l !! i = Some a -> exists b, f i a = Some b /\ P i a b) ->
  exists bs, mapM (fun iv => f iv.1 iv.2) (zip (seq 0 (length l)) l) = Some bs
    /\ length bs = length l
    /\ forall i a b, l !! i = Some a -> bs !! i = Some b -> P i a b.
Proof.
  intros Hf.
  assert (G : forall k, (forall i a, l !! i = Some a ->
                 exists b, f (k + i)%nat a = Some b /\ P (k + i)%nat a b) ->
    exists bs, mapM (fun iv => f iv.1 iv.2) (zip (seq k (length l)) l) = Some bs
      /\ length bs = length l
      /\ forall i a b, l !! i = Some a -> bs !! i = Some b -> P (k + i)%nat a b).
  { clear Hf. induction l as [|a l IH]; intros k Hf.
    - exists []. split; [reflexivity|]. split; [reflexivity|].
      intros i a b Hi. discriminate.
    - destruct (Hf 0%nat a eq_refl) as (b & Hb & HP).
      rewrite Nat.add_0_r in Hb, HP.
      destruct (IH (S k)) as (bs & Hbs & Hlen & Hall).
      { intros i a' Hi. specialize (Hf (S i) a' Hi).
        rewrite Nat.add_succ_r in Hf. exact Hf. }
      exists (b :: bs). split.
      + cbn [length seq zip zip_with mapM fst snd].
        rewrite Hb. cbn [mbind option_bind]. rewrite Hbs. reflexivity.
      + split; [simpl; lia|]. intros [|i] a' b' Hi Hb'.
        * injection Hi as <-. injection Hb' as <-. rewrite Nat.add_0_r. exact HP.
        * rewrite Nat.add_succ_r. apply (Hall i a' b' Hi Hb'). }
  apply (G 0%nat). exact Hf.
Qed.

Lemma all_rows (partition : partition_setup) :
  length (width partition) = length (nrPerDim partition) ->
  length (origin partition) = length (nrPerDim partition) ->
  Forall (fun n => (0 <= n)%Z) (nrPerDim partition) ->
  exists row,
    setStateBlock partition (replicate (length (nrPerDim partition)) All)
    = Some (Rows (Actions.product row))
    /\ length row = length (nrPerDim partition)
    /\ forall d n w o r,
         nrPerDim partition !! d = Some n -> width partition !! d = Some w ->
         origin partition !! d = Some o -> row !! d = Some r ->
         Z.of_nat (length r) = n
         /\ forall i x, r !! i = Some x -> x == centre o w n i.
Proof.
  intros Hw Ho Hpos. unfold setStateBlock.
  rewrite decide_False by (rewrite length_replicate; intros E; apply E; reflexivity).
  rewrite broadcast_same by (symmetry; exact Hw). cbn [mbind option_bind].
  set (cd := zip_with (fun n w => (inject_Z n - 1) * (1 # 2) * w)
                      (nrPerDim partition) (width partition)).
  destruct (mapM_enumerate (block_row partition cd)
              (fun d (_ : block_arg) r =>
                 forall n w o, nrPerDim partition !! d = Some n ->
                   width partition !! d = Some w -> origin partition !! d = Some o ->
                   Z.of_nat (length r) = n
                   /\ forall i x, r !! i = Some x -> x == centre o w n i)
              (replicate (length (nrPerDim partition)) All))
    as (row & Hrow & Hlen & Hall).
  { intros d a Hd. apply lookup_replicate in Hd as [-> Hd].
    destruct (lookup_lt_is_Some_2 (nrPerDim partition) d Hd) as [n Hn].
    destruct (lookup_lt_is_Some_2 (width partition) d ltac:(lia)) as [w Hwd].
    destruct (lookup_lt_is_Some_2 (origin partition) d ltac:(lia)) as [o Hod].
    assert (Hn0 : (0 <= n)%Z).
    { rewrite Forall_forall in Hpos. apply Hpos. eapply list_elem_of_lookup_2, Hn. }
    destruct (all_row partition cd d n w o Hn Hod) as (r & Hr & Hrl & Hrx).
    { unfold cd. rewrite lookup_zip_with, Hn. cbn [mbind option_bind].
      rewrite Hwd. reflexivity. }
    { exact Hn0. }
    exists r. split; [exact Hr|]. intros n' w' o' Hn' Hw' Ho'.
    rewrite Hn in Hn'. rewrite Hwd in Hw'. rewrite Hod in Ho'.
    injection Hn' as <-. injection Hw' as <-. injection Ho' as <-.
    split; [exact Hrl|exact Hrx]. }
  rewrite length_replicate in *.
  exists row. rewrite Hrow. cbn [mbind option_bind].
  split; [reflexivity|]. split; [exact Hlen|].
  intros d n w o r Hn Hwd Hod Hr.
  apply (Hall d All r); [|exact Hr|exact Hn|exact Hwd|exact Hod].
  apply lookup_replicate. split; [reflexivity|].
  apply lookup_lt_Some in Hn. exact Hn.
Qed.

Lemma broadcast_length {A B C} (f : A -> B -> C) a b c :
  length a = length b -> broadcast f a b = Some c -> length c = length a.
Proof.
  intros H. rewrite broadcast_same by exact H. intros [= <-].
  rewrite length_zip_with. lia.
Qed.

Lemma mapM_rows_coordinates partition cd (values : list (list Q)) : forall k,
  mapM (fun iv : nat * block_arg => block_row partition cd iv.1 iv.2)
       (zip (seq k (length (Coordinates <$> values))) (Coordinates <$> values))
  = Some values.
Proof.
  induction values as [|v values IH]; intros k; [reflexivity|].
  cbn [fmap list_fmap length seq zip zip_with mapM fst snd block_row].
  cbn [mbind option_bind]. 
  change (list_fmap _ _ Coordinates values) with (Coordinates <$> values).
  rewrite (IH (S k)). reflexivity.
Qed.

(** Property X10.  For a partition dictionary that holds the number of
    regions per dimension together with the width and the origin that
    [define_states] computes from the boundary, ['all'] stands for the
    centres of the regions: along a dimension with the boundary
    [[lower, upper]] and [n > 0] regions the entry [i] is
    [lower + (i + 1/2) * (upper - lower) / n], strictly between [lower]
    and [upper]. *)
Theorem partition_centres_inside_boundary (boundary : list (Q * Q))
    (number : list Z) :
  length boundary = length number ->
  Forall (fun n => (0 < n)%Z) number ->
  Forall (fun b => b.1 < b.2) boundary ->
  exists width row,
    Grid.partition_width boundary number = Some width
    /\ Grid.setStateBlock
         (Grid.PartitionSetup number width (Grid.partition_origin boundary))
         (replicate (length number) Grid.All)
       = Some (Grid.Rows (Actions.product row))
    /\ forall d b n r,
         boundary !! d = Some b -> number !! d = Some n -> row !! d = Some r ->
         Z.of_nat (length r) = n
         /\ forall i x, r !! i = Some x ->
              x == b.1 + (inject_Z (Z.of_nat i) + (1 # 2))
                         * ((b.2 - b.1) / inject_Z n)
              /\ b.1 < x /\ x < b.2.
Proof.
  intros Hlen Hpos Hlt.
  set (width := zip_with (fun (b : Q * Q) n => (-1 * b.1 + 1 * b.2) / inject_Z n)
                         boundary number).
  assert (Hw : partition_width boundary number = Some width)
    by (apply broadcast_same, Hlen).
  set (partition := PartitionSetup number width (partition_origin boundary)).
  destruct (all_rows partition) as (row & Hrow & Hrl & Hall).
  { unfold partition, width. cbn [Grid.width nrPerDim].
    rewrite length_zip_with. lia. }
  { unfold partition, partition_origin. cbn [origin nrPerDim].
    rewrite length_fmap. exact Hlen. }
  { unfold partition. cbn [nrPerDim]. eapply Forall_impl; [exact Hpos|].
    intros n Hn. simpl in Hn. lia. }
  exists width, row. split; [exact Hw|]. split; [exact Hrow|].
  intros d [lo hi] n r Hb Hn Hr. cbn [fst snd].
  destruct (Hall d n ((-1 * lo + 1 * hi) / inject_Z n)
              ((1 # 2) * lo + (1 # 2) * hi) r) as [Hl Hx].
  { exact Hn. }
  { unfold partition, width. cbn [Grid.width].
    rewrite lookup_zip_with, Hb. cbn [mbind option_bind]. rewrite Hn. reflexivity. }
  { unfold partition, partition_origin. cbn [origin].
    rewrite list_lookup_fmap, Hb. reflexivity. }
  { exact Hr. }
  split; [exact Hl|]. intros i x Hi.
  assert (Hn0 : (0 < n)%Z).
  { rewrite Forall_forall in Hpos. apply Hpos. eapply list_elem_of_lookup_2, Hn. }
  assert (Hlohi : lo < hi).
  { rewrite Forall_forall in Hlt. apply (Hlt (lo, hi)). eapply list_elem_of_lookup_2, Hb. }
  assert (Hi_lt : (Z.of_nat i < n)%Z) by (apply lookup_lt_Some in Hi; lia).
  assert (HnQ : 0 < inject_Z n).
  { change 0 with (inject_Z 0). rewrite <- Zlt_Qlt. exact Hn0. }
  assert (HiQ : 0 <= inject_Z (Z.of_nat i)).
  { change 0 with (inject_Z 0). rewrite <- Zle_Qle. lia. }
  assert (HiQ' : inject_Z (Z.of_nat i) + 1 <= inject_Z n).
  { change 1 with (inject_Z 1). rewrite <- inject_Z_plus, <- Zle_Qle. lia. }
  specialize (Hx i x Hi). unfold centre in Hx.
  set (w := (hi - lo) / inject_Z n).
  assert (Hwpos : 0 < w) by (apply Qlt_shift_div_l; lra).
  assert (Hnw : inject_Z n * w == hi - lo) by (unfold w; field; lra).
  assert (Ex : x == lo + (inject_Z (Z.of_nat i) + (1 # 2)) * w).
  { rewrite Hx. unfold w. field. lra. }
  split; [exact Ex|].
  set (t := inject_Z (Z.of_nat i)) in *.
  assert (P1 : 0 < (t + (1 # 2)) * w) by (apply Qmult_lt_0_compat; lra).
  assert (P2 : 0 < (inject_Z n - t - (1 # 2)) * w)
    by (apply Qmult_lt_0_compat; lra).
  split; lra.
Qed.

(** Property X8.  [setStateBlock] ends in [sys.exit()] when the number of
    keyword arguments differs from the number of dimensions.  When it
    returns, every row of the block has one coordinate per dimension, and
    the coordinate of a dimension whose argument is a list is an entry of
    that list; with a list for every dimension the block is the Cartesian
    product of the lists, in the order of [itertools.product]. *)
Theorem setStateBlock_shape (partition : Grid.partition_setup)
    (kwargs : list Grid.block_arg) :
  (length kwargs ≠ length (Grid.nrPerDim partition) ->
   Grid.setStateBlock partition kwargs
   = Some (Grid.Exit (length (Grid.nrPerDim partition)) (length kwargs)))
  /\ (forall rows, Grid.setStateBlock partition kwargs = Some (Grid.Rows rows) ->
        length kwargs = length (Grid.nrPerDim partition)
        /\ forall t, t ∈ rows ->
             length t = length kwargs
             /\ forall d value x,
                  kwargs !! d = Some (Grid.Coordinates value) ->
                  t !! d = Some x -> x ∈ value)
  /\ (forall values, kwargs = Grid.Coordinates <$> values ->
        length values = length (Grid.nrPerDim partition) ->
        length (Grid.width partition) = length (Grid.nrPerDim partition) ->
        Grid.setStateBlock partition kwargs
        = Some (Grid.Rows (Actions.product values))).
Proof.
  split; [|split].
  - intros Hne. unfold setStateBlock. rewrite decide_True by exact Hne. reflexivity.
  - intros rows. unfold setStateBlock.
    destruct (decide (length kwargs ≠ length (nrPerDim partition))) as [Hne|He];
      [discriminate|].
    destruct (broadcast _ _ _) as [cd|]; [|discriminate].
    cbn [mbind option_bind].
    destruct (mapM _ _) as [row|] eqn:Hrow; [|discriminate].
    cbn [mbind option_bind]. intros [= <-].
    split; [destruct (decide (length kwargs = length (nrPerDim partition))); [assumption|contradiction]|].
    apply mapM_Some_1 in Hrow.
    intros t Ht. apply product_elem in Ht.
    pose proof (Forall2_length _ _ _ Ht) as Hlt.
    pose proof (Forall2_length _ _ _ Hrow) as Hlr.
    rewrite length_zip_with, length_seq in Hlr.
    split; [lia|].
    intros d value x Hd Hx.
    destruct (Forall2_lookup_l _ _ _ _ _ Ht Hx) as (r & Hr & Hin).
    destruct (Forall2_lookup_r _ _ _ _ _ Hrow Hr) as ([d' a] & Hz & Hb).
    apply lookup_zip_with_Some in Hz as (d'' & a' & [= <- <-] & Hs & Ha).
    apply lookup_seq in Hs as [-> _]. cbn [fst snd] in Hb.
    rewrite Hd in Ha. injection Ha as <-. cbn [block_row] in Hb.
    injection Hb as <-. exact Hin.
  - intros values -> Hlen Hw. unfold setStateBlock.
    rewrite decide_False by (rewrite length_fmap; intros E; apply E; exact Hlen).
    rewrite broadcast_same by (symmetry; exact Hw). cbn [mbind option_bind].
    rewrite mapM_rows_coordinates. reflexivity.
Qed.

(** Property X9.  With ['all'] for every dimension, one width and one
    origin per dimension and no negative number of regions,
    [setStateBlock] returns the Cartesian product of one row per
    dimension; the row of a dimension with [n] regions of width [w] around
    the origin [o] has the [n] entries [o + (i - (n-1)/2) * w], and the
    block has as many rows as the partition has regions. *)
Theorem setStateBlock_all_centres (partition : Grid.partition_setup) :
  length (Grid.width partition) = length (Grid.nrPerDim partition) ->
  length (Grid.origin partition) = length (Grid.nrPerDim partition) ->
  Forall (fun n => (0 <= n)%Z) (Grid.nrPerDim partition) ->
  exists row,
    Grid.setStateBlock partition
      (replicate (length (Grid.nrPerDim partition)) Grid.All)
    = Some (Grid.Rows (Actions.product row))
    /\ length row = length (Grid.nrPerDim partition)
    /\ Z.of_nat (length (Actions.product row))
       = fold_right Z.mul 1%Z (Grid.nrPerDim partition)
    /\ forall d n w o r,
         Grid.nrPerDim partition !! d = Some n ->
         Grid.width partition !! d = Some w ->
         Grid.origin partition !! d = Some o -> row !! d = Some r ->
         Z.of_nat (length r) = n
         /\ forall i x, r !! i = Some x -> x == Grid.centre o w n i.
Proof.
  intros Hw Ho Hpos.
  destruct (all_rows partition Hw Ho Hpos) as (row & Hrow & Hlen & Hall).
  exists row. split; [exact Hrow|]. split; [exact Hlen|].
  split; [|exact Hall].
  rewrite product_length.
  assert (Hlens : Forall2 (fun r n => Z.of_nat (length r) = n) row
                          (Grid.nrPerDim partition)).
  { apply Forall2_same_length_lookup_2; [exact Hlen|].
    intros d r n Hr Hn. pose proof (lookup_lt_Some _ _ _ Hn) as Hd.
    destruct (lookup_lt_is_Some_2 (Grid.width partition) d) as [w Hwd]; [lia|].
    destruct (lookup_lt_is_Some_2 (Grid.origin partition) d) as [o Hod]; [lia|].
    exact (proj1 (Hall d n w o r Hn Hwd Hod Hr)). }
  clear -Hlens. induction Hlens as [|r n row ns Hr HF IH]; [reflexivity|].
  cbn [fmap list_fmap fold_right]. rewrite Nat2Z.inj_mul, IH, Hr. reflexivity.
Qed.

End GridFacts.

Lemma setStateBlock_shape_witness :
  Grid.setStateBlock (Grid.PartitionSetup [3%Z; 2%Z] [1; 1] [0; 0]) [Grid.All]
  = Some (Grid.Exit 2 1)
  /\ Grid.setStateBlock (Grid.PartitionSetup [3%Z; 2%Z] [1; 1] [0; 0])
       (Grid.Coordinates <$> [[1; 2]; [5]])
     = Some (Grid.Rows [[1; 5]; [2; 5]]).
Proof.
  split.
  - apply (proj1 (setStateBlock_shape
                    (Grid.PartitionSetup [3%Z; 2%Z] [1; 1] [0; 0]) [Grid.All])).
    discriminate.
  - apply (proj2 (proj2 (setStateBlock_shape
                    (Grid.PartitionSetup [3%Z; 2%Z] [1; 1] [0; 0])
                    (Grid.Coordinates <$> [[1; 2]; [5]]))) [[1; 2]; [5]]);
      reflexivity.
Defined.

Lemma setStateBlock_all_centres_witness :
  length [(1 # 2); 2] = length [3%Z; 2%Z]
  /\ length [0; 10] = length [3%Z; 2%Z]
  /\ Forall (fun n => (0 <= n)%Z) [3%Z; 2%Z]
  /\ exists row,
       Grid.setStateBlock (Grid.PartitionSetup [3%Z; 2%Z] [(1 # 2); 2] [0; 10])
                          [Grid.All; Grid.All]
       = Some (Grid.Rows (Actions.product row))
       /\ length row = 2%nat.
Proof.
  split; [reflexivity|]. split; [reflexivity|].
  assert (Hpos : Forall (fun n => (0 <= n)%Z) [3%Z; 2%Z])
    by (repeat constructor; lia).
  split; [exact Hpos|].
  destruct (setStateBlock_all_centres
              (Grid.PartitionSetup [3%Z; 2%Z] [(1 # 2); 2] [0; 10])
              eq_refl eq_refl Hpos) as (row & Hrow & Hlen & _).
  exists row. split; [exact Hrow|exact Hlen].
Defined.

Lemma partition_centres_inside_boundary_witness :
  length [(0, 3); (-1, 1)] = length [3%Z; 2%Z]
  /\ Forall (fun n => (0 < n)%Z) [3%Z; 2%Z]
  /\ Forall (fun b : Q * Q => b.1 < b.2) [(0, 3); (-1, 1)]
  /\ exists width row,
       Grid.partition_width [(0, 3); (-1, 1)] [3%Z; 2%Z] = Some width
       /\ Grid.setStateBlock
            (Grid.PartitionSetup [3%Z; 2%Z] width
               (Grid.partition_origin [(0, 3); (-1, 1)]))
            (replicate (length [3%Z; 2%Z]) Grid.All)
          = Some (Grid.Rows (Actions.product row)).
Proof.
  assert (Hn : Forall (fun n => (0 < n)%Z) [3%Z; 2%Z])
    by (repeat constructor; lia).
  assert (Hb : Forall (fun b : Q * Q => b.1 < b.2) [(0, 3); (-1, 1)])
    by (repeat constructor).
  split; [reflexivity|]. split; [exact Hn|]. split; [exact Hb|].
  destruct (partition_centres_inside_boundary [(0, 3); (-1, 1)] [3%Z; 2%Z]
              eq_refl Hn Hb) as (width & row & Hw & Hrows & _).
  exists width, row. split; [exact Hw|exact Hrows].
Defined.

(** ** The scenario table *)

Section LoadFacts.
Import ScenarioTable.
Variable float : string -> option Q.

Lemma set_row_length memory i value memory' :
  set_row memory i value = Some memory' -> length memory' = length memory.
Proof.
  unfold set_row. intros H.
  destruct (match value with [a; b] => Some (a, b) | [a] => Some (a, a) | _ => None end);
    [|discriminate].
  cbn [mbind option_bind] in H. destruct (np_index memory i); [|discriminate].
  injection H as <-. apply length_insert.
Qed.

Lemma load_row_entry memory row memory' :
  load_row float memory row = Some memory' ->
  exists j vals, row_entry float (length memory) row = Some (j, vals)
    /\ (j < length memory)%nat /\ memory' = <[j := vals]> memory.
Proof.
  unfold load_row, row_entry. intros H.
  destruct (row !! 0%nat) as [field|]; [|discriminate].
  cbn [mbind option_bind] in *.
  destruct (mapM float _) as [value|]; [|discriminate].
  cbn [mbind option_bind] in *.
  destruct (Prism.split "," field !! 0%nat) as [first|]; [|discriminate].
  cbn [mbind option_bind] in *.
  destruct (Prism.py_int first) as [i|]; [|discriminate].
  cbn [mbind option_bind] in *. unfold set_row in H.
  destruct (match value with [a; b] => Some (a, b) | [a] => Some (a, a) | _ => None end)
    as [vals|]; [|discriminate].
  cbn [mbind option_bind] in *. unfold np_index in H.
  destruct (decide (0 <= i)%Z) as [Hi|Hi].
  - destruct (memory !! Z.to_nat i) eqn:E; [|discriminate].
    apply lookup_lt_Some in E. injection H as <-.
    rewrite decide_True by lia. eauto.
  - destruct (decide (- Z.of_nat (length memory) <= i)%Z) as [Hi'|Hi']; [|discriminate].
    destruct (memory !! Z.to_nat (i + Z.of_nat (length memory))) eqn:E; [|discriminate].
    apply lookup_lt_Some in E. injection H as <-.
    rewrite decide_False by lia. rewrite decide_True by lia. eauto.
Qed.

(** The entry of row [j] after the entries [es] have been written into a
    table that held [d] there: the last one written to [j]. *)
Lemma load_rows_entries rows : forall memory memory',
  load_rows float memory rows = Some memory' ->
  length memory' = length memory
  /\ exists es, mapM (row_entry float (length memory)) rows = Some es
      /\ forall j d, memory !! j = Some d -> memory' !! j = Some (last_write j d es).
Proof.
  induction rows as [|row rows IH]; intros memory memory' H.
  - injection H as <-. split; [reflexivity|]. exists []. split; [reflexivity|].
    intros j d Hj. exact Hj.
  - cbn [load_rows] in H.
    destruct (load_row float memory row) as [m1|] eqn:E1; [|discriminate].
    cbn [mbind option_bind] in H.
    destruct (load_row_entry _ _ _ E1) as (i & vals & He & Hi & ->).
    destruct (IH _ _ H) as (Hlen & es & Hes & Hall).
    rewrite length_insert in Hlen, Hes.
    split; [exact Hlen|]. exists ((i, vals) :: es). split.
    + cbn [mapM]. rewrite He. cbn [mbind option_bind]. rewrite Hes. reflexivity.
    + intros j d Hj. cbn [last_write]. apply Hall.
      destruct (decide (i = j)) as [->|Hne].
      * apply list_lookup_insert_eq. exact Hi.
      * rewrite list_lookup_insert_ne by exact Hne. exact Hj.
Qed.

Lemma last_write_absent j d es : j ∉ es.*1 -> last_write j d es = d.
Proof.
  revert d. induction es as [|[i v] es IH]; intros d Hj; [reflexivity|].
  cbn [last_write]. rewrite fmap_cons, not_elem_of_cons in Hj. cbn [fst] in Hj.
  destruct Hj as [Hne Hj]. rewrite decide_False by congruence. apply IH, Hj.
Qed.

Lemma last_write_last j d es1 v es2 :
  j ∉ es2.*1 -> last_write j d (es1 ++ (j, v) :: es2) = v.
Proof.
  revert d. induction es1 as [|[i w] es1 IH]; intros d Hj.
  - cbn [app last_write]. rewrite decide_True by reflexivity.
    apply last_write_absent, Hj.
  - cbn [app last_write]. apply IH, Hj.
Qed.

(** X: table rows *)
(** Property X11.  When [_loadScenarioTable] returns, the table has
    [k + 1] rows; every row of the file after the header names one of
    them (a negative number counts from the end) and gives its two
    entries; a row of the table that no row of the file names holds
    [-1] twice, and a row that is named holds the entries of the last row
    of the file that names it. *)
Theorem scenario_table_rows
    (header : list string) (rows : list (list string)) (k : Z)
    (memory : list (Q * Q)) :
  ScenarioTable._loadScenarioTable float (Some (header :: rows)) k
  = Some (ScenarioTable.Memory memory) ->
  Z.of_nat (length memory) = (k + 1)%Z
  /\ exists es,
       mapM (ScenarioTable.row_entry float (length memory)) rows = Some es
       /\ (forall j, (j < length memory)%nat -> j ∉ es.*1 ->
             memory !! j = Some (-1, -1))
       /\ (forall j es1 v es2, es = es1 ++ (j, v) :: es2 -> j ∉ es2.*1 ->
             memory !! j = Some v).
Proof.
  cbn [_loadScenarioTable].
  destruct (decide (k + 1 < 0)%Z) as [Hk|Hk]; [discriminate|].
  intros Hload. apply fmap_Some in Hload as (m & Hm & [= ->]).
  destruct (load_rows_entries _ _ _ Hm) as (Hlen & es & Hes & Hall).
  rewrite length_replicate in Hlen, Hes.
  split; [lia|]. exists es. rewrite Hlen. split; [exact Hes|].
  assert (Hinit : forall j, (j < length m)%nat ->
            replicate (Z.to_nat (k + 1)) (-1, -1) !! j = Some (-1, -1)).
  { intros j Hj. apply lookup_replicate. split; [reflexivity|lia]. }
  split.
  - intros j Hj Habs. rewrite (Hall j _ (Hinit j ltac:(lia))).
    rewrite last_write_absent by exact Habs. reflexivity.
  - intros j es1 v es2 -> Habs.
    assert (Hj : (j < length m)%nat).
    { apply mapM_Some_1 in Hes.
      assert (Hin : (j, v) ∈ es1 ++ (j, v) :: es2) by set_solver.
      apply list_elem_of_lookup in Hin as [n Hn].
      destruct (Forall2_lookup_r _ _ _ _ _ Hes Hn) as (row & _ & Hrow).
      clear -Hrow Hlen. unfold row_entry in Hrow.
      repeat (match type of Hrow with
              | context [mbind _ ?o] => destruct o; [|discriminate]
              end; cbn [mbind option_bind] in Hrow).
      repeat (match type of Hrow with
              | context [decide ?P] => destruct (decide P)
              end); try discriminate; injection Hrow as <- _; lia. }
    rewrite (Hall j _ (Hinit j ltac:(lia))). rewrite last_write_last by exact Habs.
    reflexivity.
Qed.

End LoadFacts.

Lemma scenario_table_rows_witness :
  exists memory,
    ScenarioTable._loadScenarioTable (fun s => inject_Z <$> Prism.py_int s)
      (Some [["N,low,upp"]; ["2,0,1"]; ["0,1,1"]]%string) 2
    = Some (ScenarioTable.Memory memory)
    /\ Z.of_nat (length memory) = (2 + 1)%Z.
Proof.
  eexists. split; [vm_compute; reflexivity|].
  exact (proj1 (scenario_table_rows (fun s => inject_Z <$> Prism.py_int s)
                  ["N,low,upp"]%string [["2,0,1"]; ["0,1,1"]]%string 2 _
                  eq_refl)).
Defined.

Lemma sentinel_interval :
  let iv := (floor_decimal (Qmax (1 # 10000) (floor_decimal (-1) nr_decimals)) 5,
             floor_decimal (Qmin 1 (floor_decimal (-1) nr_decimals)) 5) in
  iv.1 == 1 # 10000 /\ iv.2 == -1.
Proof. vm_compute. split; reflexivity. Qed.

Lemma sentinel_deadlock :
  let iv := (floor_decimal (Qmax (1 # 10000) (floor_decimal (1 - -1) nr_decimals)) 5,
             floor_decimal (Qmin 1 (floor_decimal (1 - -1) nr_decimals)) 5) in
  iv.1 == 2 /\ iv.2 == 1.
Proof. vm_compute. split; reflexivity. Qed.

(** Property X12.  Nothing looks at the [-1] that stands for a row
    missing from the table.  With a table file that has a header row only
    and one centre per sample, [_loadScenarioTable] returns a table of
    [-1] and [computeScenarioBounds_sparse] returns without an error: every
    successor is printed with the interval [[0.0001, -1.0]] and the
    deadlock with [[2.0, 1.0]]. *)
Theorem table_without_rows_is_not_detected `{Countable K}
    (float : string -> option Q) (header : list string)
    (c_tuple : gmap K Z) (Nsamples : Z) (centers : list K) :
  Z.of_nat (length centers) = Nsamples ->
  exists memory ret,
    ScenarioTable._loadScenarioTable float (Some [header]) Nsamples = Some (ScenarioTable.Memory memory)
    /\ Forall (fun row => row = (-1, -1)) memory
    /\ Sparse.computeScenarioBounds_sparse Nsamples c_tuple memory centers
       = Some ret
    /\ Forall (fun iv => iv.1 == 1 # 10000 /\ iv.2 == -1) (interval_strings ret)
    /\ (deadlock_interval_string ret).1 == 2
    /\ (deadlock_interval_string ret).2 == 1.
Proof.
  intros HN.
  set (memory := replicate (Z.to_nat (Nsamples + 1)) ((-1, -1) : Q * Q)).
  assert (Hrow : forall k, (0 <= k <= Nsamples)%Z ->
            np_index memory k = Some (-1, -1)).
  { intros k Hk. rewrite np_index_nonneg by lia.
    apply lookup_replicate. split; [reflexivity|lia]. }
  destruct (tally_all c_tuple Nsamples centers HN)
    as (counts & Ht & Hnd & Hval & Hall & Hsum).
  pose proof (misses_bounds c_tuple centers) as Hm.
  set (rows := (fun rc : Z * Z =>
                  (-1, -1, inject_Z rc.2 / inject_Z Nsamples, rc.1)) <$> counts).
  assert (Hrows : mapM (Sparse.region_bounds Nsamples memory) counts = Some rows).
  { apply mapM_Some_2, Forall2_fmap_r, Forall_Forall2_diag, Forall_forall.
    intros [region count] Hin. cbn [fst snd].
    pose proof (Hval _ _ Hin) as [H1 ->].
    pose proof (hits_le c_tuple centers region) as Hle.
    unfold Sparse.region_bounds. rewrite decide_False by lia.
    rewrite Hrow by lia. reflexivity. }
  exists memory. eexists. split.
  { cbn [ScenarioTable._loadScenarioTable]. rewrite decide_False by lia. reflexivity. }
  split; [apply Forall_replicate; reflexivity|].
  split.
  { unfold Sparse.computeScenarioBounds_sparse, Sparse.sparse_raw.
    rewrite Ht. cbn [mbind option_bind].
    rewrite decide_False by lia. rewrite Hrow by lia.
    cbn [mbind option_bind fmap option_fmap option_map].
    rewrite Hrows. cbn [mbind option_bind]. reflexivity. }
  cbn [snd]. unfold Sparse.sparse_report.
  cbn [interval_strings deadlock_interval_string probability_low probability_upp
       deadlock_low deadlock_upp fst snd].
  split; [|exact sentinel_deadlock].
  apply Forall_fmap, Forall_forall. intros [lb ub] Hin.
  apply list_elem_of_lookup in Hin as [i Hi].
  apply lookup_zip_with_Some in Hi as (lb' & ub' & [= <- <-] & Hlb & Hub).
  unfold rows in Hlb, Hub. rewrite <- !list_fmap_compose in Hlb, Hub.
  rewrite list_lookup_fmap in Hlb, Hub.
  apply fmap_Some in Hlb as (rc & _ & ->).
  apply fmap_Some in Hub as (rc' & _ & ->).
  exact sentinel_interval.
Qed.


Lemma table_without_rows_is_not_detected_witness :
  Z.of_nat (length [0; 0; 5]%Z) = 3%Z
  /\ exists memory ret,
       ScenarioTable._loadScenarioTable (fun _ => None)
         (Some [["N,low,upp"]%string]) 3
       = Some (ScenarioTable.Memory memory)
       /\ Sparse.computeScenarioBounds_sparse 3 ({[0%Z := 7%Z]} : gmap Z Z)
            memory [0; 0; 5]%Z = Some ret
       /\ (deadlock_interval_string ret).1 == 2.
Proof.
  split; [reflexivity|].
  destruct (table_without_rows_is_not_detected (fun _ => None)
              ["N,low,upp"]%string ({[0%Z := 7%Z]} : gmap Z Z) 3 [0; 0; 5]%Z
              eq_refl) as (memory & ret & Hm & _ & Hret & _ & Hd & _).
  exists memory, ret. split; [exact Hm|]. split; [exact Hret|exact Hd].
Defined.

(** ** [exclude_samples] *)

Section ExcludeFacts.
Import Exclude.

Lemma existsb_swap {A B} (f g : A * B -> bool) (l l' : list (A * B)) :
  Forall2 (fun a b => f a = g b) l l' -> existsb f l = existsb g l'.
Proof. induction 1 as [|a b l l' E HF IH]; simpl; congruence. Qed.

Lemma apart_sym width p q : apart width p q = apart width q p.
Proof.
  unfold apart.
  set (d := zip_with Qminus p q). set (d' := zip_with Qminus q p).
  assert (Hd : Forall2 (fun x x' => x' == - x) d d').
  { unfold d, d'. clear. revert q. induction p as [|a p IH]; intros [|b q];
      simpl; constructor; [ring|apply IH]. }
  set (pairs := match d, width with
               | [x], _ => (fun w => (x, w)) <$> width
               | _, [w] => (fun x => (x, w)) <$> d
               | _, _ => zip d width
               end).
  set (pairs' := match d', width with
               | [x], _ => (fun w => (x, w)) <$> width
               | _, [w] => (fun x => (x, w)) <$> d'
               | _, _ => zip d' width
               end).
  assert (HP : Forall2 (fun a b => b.1 == - a.1 /\ b.2 = a.2) pairs pairs').
  { unfold pairs, pairs'. clear pairs pairs'.
    assert (Hz : forall w, Forall2 (fun a b : Q * Q => b.1 == - a.1 /\ b.2 = a.2)
                            (zip d w) (zip d' w)).
    { clear -Hd. induction Hd as [|x x' d d' E HF IH]; intros [|w ws];
        simpl; constructor; [split; [exact E|reflexivity]|apply IH]. }
    assert (Hm : forall w, Forall2 (fun a b : Q * Q => b.1 == - a.1 /\ b.2 = a.2)
                            ((fun x => (x, w)) <$> d) ((fun x => (x, w)) <$> d')).
    { intros w. apply Forall2_fmap. eapply Forall2_impl; [exact Hd|].
      intros x x' E. split; [exact E|reflexivity]. }
    destruct Hd as [|x x' d d' E HF].
    - destruct width as [|w [|w' ws]]; simpl; constructor.
    - destruct HF as [|y y' d d' E' HF].
      + apply Forall2_fmap, Forall_Forall2_diag, Forall_forall.
        intros w _. split; [exact E|reflexivity].
      + destruct width as [|w [|w' ws]].
        * constructor.
        * apply (Hm w).
        * apply (Hz (w :: w' :: ws)). }
  rewrite orb_comm. f_equal.
  - apply existsb_swap. eapply Forall2_impl; [exact HP|].
    intros [x w] [x' w'] [E Ew]. cbn [fst snd] in *. subst w'.
    destruct (Qle_bool_spec (- w) x), (Qle_bool_spec x' w);
      try reflexivity; exfalso; lra.
  - apply existsb_swap. eapply Forall2_impl; [exact HP|].
    intros [x w] [x' w'] [E Ew]. cbn [fst snd] in *. subst w'.
    destruct (Qle_bool_spec x w), (Qle_bool_spec (- w) x');
      try reflexivity; exfalso; lra.
Qed.

Lemma apart_same_length width p q :
  length p = length width -> length q = length width ->
  apart width p q = true
  <-> exists d a b w, p !! d = Some a /\ q !! d = Some b /\ width !! d = Some w
        /\ (w < a - b \/ a - b < - w).
Proof.
  intros Hp Hq. unfold apart.
  set (dl := zip_with Qminus p q).
  assert (Hpairs : match dl, width with
               | [x], _ => (fun w => (x, w)) <$> width
               | _, [w] => (fun x => (x, w)) <$> dl
               | _, _ => zip dl width
               end = zip dl width).
  { assert (Hl : length dl = length width)
      by (unfold dl; rewrite length_zip_with; lia).
    destruct dl as [|x [|y dl]], width as [|w [|w' ws]]; try discriminate; reflexivity. }
  rewrite Hpairs. rewrite orb_true_iff, !existsb_exists. split.
  - intros [((x & w) & Hin & Hx)|((x & w) & Hin & Hx)];
      apply list_elem_of_In, list_elem_of_lookup in Hin as [d Hd];
      apply lookup_zip_with_Some in Hd as (x' & w' & [= <- <-] & Hx' & Hw');
      apply lookup_zip_with_Some in Hx' as (a & b & -> & Ha & Hb);
      exists d, a, b, w; (split; [exact Ha|]); (split; [exact Hb|]);
      (split; [exact Hw'|]); cbn [fst snd] in Hx;
      apply negb_true_iff in Hx.
    + left. destruct (Qle_bool_spec (a - b) w); [discriminate|lra].
    + right. destruct (Qle_bool_spec (- w) (a - b)); [discriminate|lra].
  - intros (d & a & b & w & Ha & Hb & Hw & Hcmp).
    assert (Hin : In (a - b, w) (zip dl width)).
    { apply list_elem_of_In, list_elem_of_lookup. exists d.
      apply lookup_zip_with_Some. exists (a - b), w.
      split; [reflexivity|]. split; [|exact Hw].
      apply lookup_zip_with_Some. eauto. }
    destruct Hcmp as [Hc|Hc]; [left|right]; exists (a - b, w);
      (split; [exact Hin|]); cbn [fst snd]; apply negb_true_iff.
    + destruct (Qle_bool_spec (a - b) w); [lra|reflexivity].
    + destruct (Qle_bool_spec (- w) (a - b)); [lra|reflexivity].
Qed.

Lemma apart_self width p :
  Forall (fun w => 0 <= w) width -> apart width p p = false.
Proof.
  intros Hw. unfold apart.
  set (dl := zip_with Qminus p p).
  assert (Hd : Forall (fun x => x == 0) dl).
  { unfold dl. clear. induction p as [|a p IH]; simpl; constructor; [ring|exact IH]. }
  set (pairs := match dl, width with
               | [x], _ => (fun w => (x, w)) <$> width
               | _, [w] => (fun x => (x, w)) <$> dl
               | _, _ => zip dl width
               end).
  assert (HP : Forall (fun xw : Q * Q => xw.1 == 0 /\ 0 <= xw.2) pairs).
  { assert (Hz : Forall (fun xw : Q * Q => xw.1 == 0 /\ 0 <= xw.2) (zip dl width)).
    { apply Forall_forall. intros [x w] Hin.
      apply list_elem_of_lookup in Hin as [d Hin].
      apply lookup_zip_with_Some in Hin as (x' & w' & [= <- <-] & Hx & Hw').
      rewrite Forall_forall in Hd, Hw. split.
      - apply Hd. eapply list_elem_of_lookup_2, Hx.
      - apply Hw. eapply list_elem_of_lookup_2, Hw'. }
    unfold pairs.
    destruct Hd as [|x dl' Hx Hd].
    - destruct Hw as [|w ws H0 Hw]; [constructor|]. destruct ws; [constructor|exact Hz].
    - destruct Hd as [|y dl'' Hy Hd].
      + apply Forall_fmap. eapply Forall_impl; [exact Hw|].
        intros w H0. split; [exact Hx|exact H0].
      + destruct Hw as [|w ws H0 Hw]; [constructor|].
        destruct ws; [|exact Hz].
        apply Forall_fmap. repeat constructor; cbn [fst snd]; try assumption.
        eapply Forall_impl; [exact Hd|]. intros z Hz'. split; [exact Hz'|exact H0]. }
  apply orb_false_iff. split.
  - clear -HP. induction HP as [|[x w] l [Hx Hw] HF IH]; [reflexivity|].
    cbn [existsb fst snd] in *. rewrite IH.
    destruct (Qle_bool_spec x w); [reflexivity|exfalso; lra].
  - clear -HP. induction HP as [|[x w] l [Hx Hw] HF IH]; [reflexivity|].
    cbn [existsb fst snd] in *. rewrite IH.
    destruct (Qle_bool_spec (- w) x); [reflexivity|exfalso; lra].
Qed.

Lemma exclude_lookup n samples width ex i ei :
  exclude_samples n samples width = Some ex -> ex !! i = Some ei ->
  exists p, samples !! i = Some p
    /\ forall j, j ∈ ei <-> exists q, samples !! j = Some q /\ apart width p q = true.
Proof.
  unfold exclude_samples. destruct (decide _); [|discriminate].
  intros [= <-] Hi. rewrite list_lookup_fmap in Hi.
  apply fmap_Some in Hi as (p & Hp & ->). exists p. split; [exact Hp|].
  intros j. rewrite elem_of_list_to_set, list_elem_of_filter, elem_of_seq. split.
  - intros [Hj _]. destruct (samples !! j) as [q|]; [|discriminate]. eauto.
  - intros (q & Hq & Ha). rewrite Hq. cbn [fmap option_fmap option_map default].
    split; [exact Ha|]. apply lookup_lt_Some in Hq. lia.
Qed.

(** Property X13.  [exclude_samples] returns one set per sample.  The
    relation is symmetric: [j] is in the set of [i] exactly when [i] is in
    the set of [j]; with widths that are not negative no sample excludes
    itself; and for samples with one coordinate per width, [j] is in the
    set of [i] exactly when the two samples differ by more than the width
    along some axis. *)
Theorem exclude_samples_symmetric (n : nat) (samples : list (list Q))
    (width : list Q) (ex : list (gset nat)) :
  Exclude.exclude_samples n samples width = Some ex ->
  length ex = length samples
  /\ (forall i j ei ej, ex !! i = Some ei -> ex !! j = Some ej ->
        (j ∈ ei <-> i ∈ ej))
  /\ (Forall (fun w => 0 <= w) width ->
      forall i ei, ex !! i = Some ei -> i ∉ ei)
  /\ (forall i j ei p q, ex !! i = Some ei ->
        samples !! i = Some p -> samples !! j = Some q ->
        length p = length width -> length q = length width ->
        (j ∈ ei <-> exists d a b w,
                      p !! d = Some a /\ q !! d = Some b /\ width !! d = Some w
                      /\ (w < a - b \/ a - b < - w))).
Proof.
  intros Hex. split; [|split; [|split]].
  - unfold exclude_samples in Hex. destruct (decide _); [|discriminate].
    injection Hex as <-. apply length_fmap.
  - intros i j ei ej Hi Hj.
    destruct (exclude_lookup _ _ _ _ _ _ Hex Hi) as (p & Hp & Hei).
    destruct (exclude_lookup _ _ _ _ _ _ Hex Hj) as (q & Hq & Hej).
    rewrite Hei, Hej. split.
    + intros (q' & Hq' & Ha). rewrite Hq in Hq'. injection Hq' as <-.
      exists p. split; [exact Hp|]. rewrite apart_sym. exact Ha.
    + intros (p' & Hp' & Ha). rewrite Hp in Hp'. injection Hp' as <-.
      exists q. split; [exact Hq|]. rewrite apart_sym. exact Ha.
  - intros Hw i ei Hi.
    destruct (exclude_lookup _ _ _ _ _ _ Hex Hi) as (p & Hp & Hei).
    rewrite Hei. intros (p' & Hp' & Ha). rewrite Hp in Hp'. injection Hp' as <-.
    rewrite apart_self in Ha by exact Hw. discriminate.
  - intros i j ei p q Hi Hp Hq Hlp Hlq.
    destruct (exclude_lookup _ _ _ _ _ _ Hex Hi) as (p' & Hp' & Hei).
    rewrite Hp in Hp'. injection Hp' as <-.
    rewrite Hei, <- (apart_same_length width p q Hlp Hlq). split.
    + intros (q' & Hq' & Ha). rewrite Hq in Hq'. injection Hq' as <-. exact Ha.
    + intros Ha. eauto.
Qed.

End ExcludeFacts.

Lemma exclude_samples_symmetric_witness :
  exists ex,
    Exclude.exclude_samples 2 [[0; 0]; [3; 0]; [1 # 2; 1 # 2]] [1; 1] = Some ex
    /\ length ex = 3%nat.
Proof.
  eexists. split; [reflexivity|].
  exact (proj1 (exclude_samples_symmetric 2 [[0; 0]; [3; 0]; [1 # 2; 1 # 2]]
                  [1; 1] _ eq_refl)).
Defined.

(** ** The two records of the enabled actions *)

Section StoreFacts.
Import Actions ActionRecords.
Variable R_idx : gmap (list Z) Z.
Variable critical : gset Z.
Variable tup2idx : gmap (list Z) Z.

Ltac in_union :=
  apply elem_of_union;
  first [left; assumption | right; apply elem_of_singleton; reflexivity].

Lemma agree_add nr st state a enabled' :
  agree critical nr st -> state ∉ critical ->
  list_set_add (enabled st) state a = Some enabled' ->
  agree critical nr (Store enabled'
              (<[a := enabled_in_of st a ∪ {[state]}]> (enabled_in st))).
Proof.
  intros (Hlen & Hmem & Hen) Hcrit Hadd.
  unfold list_set_add in Hadd.
  destruct (np_index (enabled st) state) as [es0|] eqn:Hidx; [|discriminate].
  cbn [mbind option_bind] in Hadd. injection Hadd as <-.
  assert (Hslot : enabled st !! slot nr state = Some es0).
  { unfold np_index in Hidx. unfold slot. rewrite <- Hlen.
    destruct (decide (0 <= state)%Z); [exact Hidx|].
    destruct (decide (- Z.of_nat (length (enabled st)) <= state)%Z); [exact Hidx|discriminate]. }
  assert (Hrange : (- Z.of_nat nr <= state < Z.of_nat nr)%Z).
  { unfold np_index in Hidx. rewrite <- Hlen.
    destruct (decide (0 <= state)%Z).
    - apply lookup_lt_Some in Hidx. lia.
    - destruct (decide (- Z.of_nat (length (enabled st)) <= state)%Z); [lia|discriminate]. }
  fold (slot (length (enabled st)) state). rewrite Hlen.
  split; [|split].
  - cbn [enabled]. rewrite length_alter. exact Hlen.
  - intros b s Hs. unfold enabled_in_of in Hs. cbn [enabled_in enabled] in *.
    destruct (decide (a = b)) as [<-|Hne].
    + rewrite lookup_insert_eq in Hs. cbn [default from_option id] in Hs.
      apply elem_of_union in Hs as [Hs|Hs].
      * destruct (Hmem a s Hs) as (Hc & Hr & es & Hes & Ha).
        split; [exact Hc|]. split; [exact Hr|].
        destruct (decide (slot nr s = slot nr state)) as [E|E].
        -- rewrite E, list_lookup_alter_eq, Hslot. cbn. eexists. split; [reflexivity|].
           rewrite E, Hslot in Hes. injection Hes as <-. in_union.
        -- rewrite list_lookup_alter_ne by congruence. eauto.
      * apply elem_of_singleton in Hs as ->. split; [exact Hcrit|].
        split; [exact Hrange|].
        rewrite list_lookup_alter_eq, Hslot. cbn. eexists. split; [reflexivity|].
        in_union.
    + rewrite lookup_insert_ne in Hs by exact Hne.
      destruct (Hmem b s Hs) as (Hc & Hr & es & Hes & Hb).
      split; [exact Hc|]. split; [exact Hr|].
      destruct (decide (slot nr s = slot nr state)) as [E|E].
      * rewrite E, list_lookup_alter_eq, Hslot. cbn. eexists. split; [reflexivity|].
        rewrite E, Hslot in Hes. injection Hes as <-. in_union.
      * rewrite list_lookup_alter_ne by congruence. eauto.
  - intros i es b Hi Hb. cbn [enabled] in Hi.
    assert (Hkeep : forall s, s ∈ enabled_in_of st b ->
              s ∈ enabled_in_of
                    (Store (alter (fun s0 => s0 ∪ {[a]}) (slot nr state) (enabled st))
                       (<[a := enabled_in_of st a ∪ {[state]}]> (enabled_in st))) b).
    { intros s Hs. unfold enabled_in_of at 1. cbn [enabled_in].
      destruct (decide (a = b)) as [<-|Hne].
      - rewrite lookup_insert_eq. cbn [default from_option id]. in_union.
      - rewrite lookup_insert_ne by exact Hne. exact Hs. }
    destruct (decide (i = slot nr state)) as [->|Hne].
    + rewrite list_lookup_alter_eq, Hslot in Hi. cbn in Hi. injection Hi as <-.
      apply elem_of_union in Hb as [Hb|Hb].
      * destruct (Hen _ _ _ Hslot Hb) as (s & Hs & Es). exists s.
        split; [apply Hkeep, Hs|exact Es].
      * apply elem_of_singleton in Hb as ->. exists state. split; [|reflexivity].
        unfold enabled_in_of at 1. cbn [enabled_in].
        rewrite lookup_insert_eq. cbn [default from_option id]. in_union.
    + rewrite list_lookup_alter_ne in Hi by congruence.
      destruct (Hen _ _ _ Hi Hb) as (s & Hs & Es). exists s.
      split; [apply Hkeep, Hs|exact Es].
Qed.

Lemma enable_state_agree nr a st s st' :
  enable_state R_idx critical a st s = Some st' -> agree critical nr st -> agree critical nr st'.
Proof.
  unfold enable_state. destruct (R_idx !! s) as [state|]; [|discriminate].
  cbn [mbind option_bind].
  destruct (decide (state ∈ critical)) as [Hc|Hc].
  - intros [= <-]. auto.
  - destruct (list_set_add (enabled st) state a) as [en|] eqn:E; [|discriminate].
    cbn [mbind option_bind]. intros [= <-] Hag. eapply agree_add; eassumption.
Qed.

Lemma enable_states_agree nr a ss : forall st st',
  enable_states R_idx critical a st ss = Some st' -> agree critical nr st -> agree critical nr st'.
Proof.
  induction ss as [|s ss IH]; intros st st'; cbn [enable_states].
  - intros [= <-]. auto.
  - destruct (enable_state R_idx critical a st s) as [st1|] eqn:E1;
      [|discriminate]. cbn [mbind option_bind]. intros E2 Hag.
    eapply IH; [exact E2|]. eapply enable_state_agree; eassumption.
Qed.

Lemma compose_loop_agree nr kvs : forall st n st' n',
  compose_loop R_idx critical tup2idx (st, n) kvs = Some (st', n') ->
  agree critical nr st -> agree critical nr st'.
Proof.
  induction kvs as [|kv kvs IH]; intros st n st' n'; cbn [compose_loop].
  - intros [= <- <-]. auto.
  - destruct (compose_step R_idx critical tup2idx (st, n) kv)
      as [[st1 n1]|] eqn:E1; [|discriminate].
    cbn [mbind option_bind]. intros E2 Hag. eapply IH; [exact E2|].
    clear E2. unfold compose_step in E1. destruct kv as [keys vals_enab].
    destruct (tuple_sum keys) as [key|]; [|discriminate].
    cbn [mbind option_bind] in E1.
    destruct (tup2idx !! key) as [act_idx|]; [|discriminate].
    cbn [mbind option_bind] in E1.
    destruct (match product vals_enab with
              | [] => None
              | _ :: _ => mapM tuple_sum (product vals_enab)
              end) as [s_enabledin|]; [|discriminate].
    cbn [mbind option_bind] in E1.
    destruct (enable_states R_idx critical act_idx st s_enabledin)
      as [st2|] eqn:E2; [|discriminate].
    cbn [mbind option_bind] in E1. injection E1 as <- _.
    eapply enable_states_agree; eassumption.
Qed.

Lemma extra_try_agree nr LP_solve a st s st' :
  extra_try critical LP_solve a st s = Some st' -> agree critical nr st -> agree critical nr st'.
Proof.
  unfold extra_try. destruct (decide (s ∈ critical)).
  - intros [= <-]. auto.
  - destruct (LP_solve a s).
    + destruct (list_set_add (enabled st) s a) eqn:E; [|discriminate].
      cbn [mbind option_bind]. intros [= <-] Hag. eapply agree_add; eassumption.
    + intros [= <-]. auto.
Qed.

Lemma extra_regions_agree nr LP_solve a regions : forall st st',
  extra_regions critical LP_solve a st regions = Some st' ->
  agree critical nr st -> agree critical nr st'.
Proof.
  induction regions as [|s regions IH]; intros st st'; cbn [extra_regions].
  - intros [= <-]. auto.
  - destruct (extra_try critical LP_solve a st s) as [st1|] eqn:E1;
      [|discriminate]. cbn [mbind option_bind]. intros E2 Hag.
    eapply IH; [exact E2|]. eapply extra_try_agree; eassumption.
Qed.

Lemma extra_actions_agree nr LP_solve nr_regions extra_act : forall st st',
  extra_actions critical LP_solve nr_regions st extra_act = Some st' ->
  agree critical nr st -> agree critical nr st'.
Proof.
  induction extra_act as [|a extra_act IH]; intros st st'; cbn [extra_actions].
  - intros [= <-]. auto.
  - destruct (extra_regions critical LP_solve a st _) as [st1|] eqn:E1;
      [|discriminate]. cbn [mbind option_bind]. intros E2 Hag.
    eapply IH; [exact E2|]. eapply extra_regions_agree; eassumption.
Qed.

Lemma agree_initial nr (enabled_in0 : gmap Z (gset Z)) :
  (forall a, default ∅ (enabled_in0 !! a) = ∅) ->
  agree critical nr (Store (replicate nr ∅) enabled_in0).
Proof.
  intros Hempty. split; [apply length_replicate|]. split.
  - intros a state Hs. unfold enabled_in_of in Hs. cbn [enabled_in] in Hs.
    rewrite Hempty in Hs. set_solver.
  - intros i es a Hi Ha. cbn [enabled] in Hi.
    apply lookup_replicate in Hi as [-> _]. set_solver.
Qed.

Lemma slot_lookup {A} (l : list A) state :
  (- Z.of_nat (length l) <= state < Z.of_nat (length l))%Z ->
  np_index l state = l !! slot (length l) state.
Proof.
  intros Hr. unfold np_index, slot.
  destruct (decide (0 <= state)%Z); [reflexivity|].
  rewrite decide_True by lia. reflexivity.
Qed.


(** Property X14.  When [define_actions] gets through
    [_composeEnabledActions] and the extra actions without an exception,
    from action objects whose sets [enabled_in] are empty, the two records
    of the enabled actions tell the same.  The list [enabled] has one entry
    per region.  Every state in [enabled_in] of an action is not critical
    and is an index of the list, and the action is in the entry that
    [enabled[state]] reads.  Every action in the entry [i] of the list has a
    state in its [enabled_in] that is [i], or [i - nr_regions], the negative
    index of the same entry. *)
Theorem enabled_records_agree (nr_regions : nat)
    (enabled_sub_inv : list (list (list Z * list (list Z))))
    (enabled_in0 : gmap Z (gset Z)) (LP_solve : Z -> Z -> bool)
    (extra_act : list Z) (trace : list event) (st : store) (returns : bool) :
  define_actions R_idx critical tup2idx nr_regions enabled_sub_inv
                 enabled_in0 LP_solve extra_act
    = Some (trace, st, returns) ->
  (forall a, default ∅ (enabled_in0 !! a) = ∅) ->
  length (enabled st) = nr_regions
  /\ (forall a state, state ∈ enabled_in_of st a ->
        (state ∉ critical)
        /\ exists es, np_index (enabled st) state = Some es /\ a ∈ es)
  /\ (forall (i : nat) es a, enabled st !! i = Some es -> a ∈ es ->
        exists state, state ∈ enabled_in_of st a
          /\ (state = Z.of_nat i
              \/ state = (Z.of_nat i - Z.of_nat nr_regions)%Z)).
Proof.
  unfold define_actions, _composeEnabledActions.
  destruct (compose_loop R_idx critical tup2idx _ _)
    as [[st1 nr_act]|] eqn:E1; [|discriminate].
  cbn [mbind option_bind].
  destruct (extra_actions critical LP_solve nr_regions st1 extra_act)
    as [st2|] eqn:E2; [|discriminate].
  cbn [mbind option_bind]. intros Hres Hempty.
  assert (st2 = st) as -> by (destruct (decide (nr_act = 0%Z)); congruence).
  assert (Hag : agree critical nr_regions st).
  { eapply extra_actions_agree; [exact E2|].
    eapply compose_loop_agree; [exact E1|]. apply agree_initial, Hempty. }
  destruct Hag as (Hlen & Hmem & Hen).
  split; [exact Hlen|]. split.
  - intros a state Hs. destruct (Hmem a state Hs) as (Hc & Hr & es & Hes & Ha).
    split; [exact Hc|]. exists es. split; [|exact Ha].
    rewrite slot_lookup by (rewrite Hlen; exact Hr). rewrite Hlen. exact Hes.
  - intros i es a Hi Ha. destruct (Hen i es a Hi Ha) as (state & Hs & Hslot).
    exists state. split; [exact Hs|].
    destruct (Hmem a state Hs) as (_ & Hr & _).
    unfold slot in Hslot. destruct (decide (0 <= state)%Z); [left|right]; lia.
Qed.
End StoreFacts.

Lemma enabled_records_agree_witness :
  let R_idx : gmap (list Z) Z := {[ [0%Z] := 0%Z; [1%Z] := 1%Z ]} in
  let critical : gset Z := {[ 1%Z ]} in
  let tup2idx : gmap (list Z) Z := {[ [0%Z] := 0%Z ]} in
  let enabled_sub_inv := [[([0%Z], [[0%Z]; [1%Z]])]] in
  let st := Actions.Store [{[ 0%Z ]}; ∅] {[ 0%Z := {[ 0%Z ]} ]} in
  let trace := [Actions.PrintCount 1 "actions enabled";
                Actions.Print "Enabled actions define - time:"] in
  Actions.define_actions R_idx critical tup2idx 2 enabled_sub_inv ∅
    (fun _ _ => false) [] = Some (trace, st, true)
  /\ (forall a, default (∅ : gset Z) ((∅ : gmap Z (gset Z)) !! a) = ∅)
  /\ length (Actions.enabled st) = 2%nat.
Proof.
  intros R_idx critical tup2idx enabled_sub_inv st trace.
  assert (Hrun : Actions.define_actions R_idx critical tup2idx 2
                   enabled_sub_inv ∅ (fun _ _ => false) []
                 = Some (trace, st, true)) by (vm_compute; reflexivity).
  assert (Hempty : forall a,
            default (∅ : gset Z) ((∅ : gmap Z (gset Z)) !! a) = ∅)
    by (intros a; reflexivity).
  split; [exact Hrun|]. split; [exact Hempty|].
  exact (proj1 (enabled_records_agree R_idx critical tup2idx 2 enabled_sub_inv
                  ∅ (fun _ _ => false) [] trace st true Hrun Hempty)).
Defined.

(** ** The boxes of the clusters hold the samples *)

Section CoverFacts.
Import Clustering Cover.

Lemma fold_zip_with_length (f : Q -> Q -> Q) n rows : forall acc : point,
  length acc = n -> Forall (fun p : point => length p = n) rows ->
  length (fold_left (zip_with f) rows acc) = n.
Proof.
  induction rows as [|row rows IH]; intros acc Hacc Hrows; [exact Hacc|].
  inversion Hrows as [|? ? Hrow Hrest]; subst. simpl. apply IH; [|exact Hrest].
  rewrite length_zip_with. lia.
Qed.

Section Bound.
Variable f : Q -> Q -> Q.
Variable R : Q -> Q -> Prop.
Hypothesis f_choice : forall x y, f x y = x \/ f x y = y.
Hypothesis R_refl : forall x, R x x.
Hypothesis R_trans : forall x y z, R x y -> R y z -> R x z.
Hypothesis f_l : forall x y, R (f x y) x.
Hypothesis f_r : forall x y, R (f x y) y.

Lemma fold_zip_with_bound rows : forall (acc : point) d l,
  fold_left (zip_with f) rows acc !! d = Some l ->
  (forall x, acc !! d = Some x -> R l x)
  /\ forall p x, p ∈ rows -> p !! d = Some x -> R l x.
Proof.
  induction rows as [|row rows IH]; intros acc d l Hl; simpl in Hl.
  - split.
    + intros x Hx. pose proof (eq_trans (eq_sym Hl) Hx) as E.
      injection E as <-. apply R_refl.
    + intros p x Hp. apply elem_of_nil in Hp. contradiction.
  - destruct (fold_zip_with_coord f f_choice rows _ d l Hl) as (_ & [z Hz] & _).
    apply IH in Hl as [Hacc Hrows].
    apply lookup_zip_with_Some in Hz as (x' & y' & -> & Hx' & Hy').
    assert (Hz : zip_with f acc row !! d = Some (f x' y')).
    { apply lookup_zip_with_Some. eauto. }
    specialize (Hacc _ Hz). split.
    + intros x Hx. pose proof (eq_trans (eq_sym Hx') Hx) as E.
      injection E as <-.
      eapply R_trans; [exact Hacc|apply f_l].
    + intros p x Hp Hpx. apply elem_of_cons in Hp as [->|Hp].
      * pose proof (eq_trans (eq_sym Hy') Hpx) as E. injection E as <-.
        eapply R_trans; [exact Hacc|apply f_r].
      * eapply Hrows; eassumption.
Qed.

End Bound.

Lemma axis_min_below rows lo p d l x :
  axis_min rows = Some lo -> p ∈ rows -> lo !! d = Some l -> p !! d = Some x ->
  l <= x.
Proof.
  destruct rows as [|r rs]; [discriminate|]. intros [= <-] Hp Hl Hx.
  destruct (fold_zip_with_bound Qmin Qle Qmin_choice Qle_refl Qle_trans
              Q.le_min_l Q.le_min_r rs r d l Hl) as [Hacc Hrows].
  apply elem_of_cons in Hp as [->|Hp]; [apply Hacc, Hx|eapply Hrows; eassumption].
Qed.

Lemma axis_max_above rows hi p d u x :
  axis_max rows = Some hi -> p ∈ rows -> hi !! d = Some u -> p !! d = Some x ->
  x <= u.
Proof.
  destruct rows as [|r rs]; [discriminate|]. intros [= <-] Hp Hu Hx.
  destruct (fold_zip_with_bound Qmax (fun a b => b <= a) Qmax_choice Qle_refl
              (fun a b c H1 H2 => Qle_trans _ _ _ H2 H1)
              Q.le_max_l Q.le_max_r rs r d u Hu) as [Hacc Hrows].
  apply elem_of_cons in Hp as [->|Hp]; [apply Hacc, Hx|eapply Hrows; eassumption].
Qed.

Lemma axis_length n rows lo hi :
  Forall (fun p : point => length p = n) rows ->
  axis_min rows = Some lo -> axis_max rows = Some hi ->
  length lo = n /\ length hi = n.
Proof.
  destruct rows as [|r rs]; [discriminate|]. intros Hall [= <-] [= <-].
  inversion Hall; subst. split; apply fold_zip_with_length; auto.
Qed.

Lemma cluster_in_box n rows lo hi p :
  Forall (fun p : point => length p = n) rows ->
  axis_min rows = Some lo -> axis_max rows = Some hi -> p ∈ rows ->
  in_box lo hi p.
Proof.
  intros Hall Hlo Hhi Hp d x Hx.
  destruct (axis_length n rows lo hi Hall Hlo Hhi) as [Ll Lh].
  assert (Hd : (d < n)%nat).
  { rewrite Forall_forall in Hall. rewrite <- (Hall p Hp).
    eapply lookup_lt_Some, Hx. }
  destruct (lookup_lt_is_Some_2 lo d ltac:(lia)) as [l Hl].
  destruct (lookup_lt_is_Some_2 hi d ltac:(lia)) as [u Hu].
  exists l, u. split; [exact Hl|]. split; [exact Hu|]. split.
  - eapply axis_min_below; eassumption.
  - eapply axis_max_above; eassumption.
Qed.

Lemma cluster_loop_covers r n : 0 < r ->
  forall fuel remaining remaining_i acc,
    length remaining_i = length remaining ->
    (length remaining <= fuel)%nat ->
    Forall (fun p : point => length p = n) remaining ->
    exists cl vs los his,
      cluster_loop fuel r remaining remaining_i acc = Ok cl
      /\ value cl = value acc ++ vs /\ lb cl = lb acc ++ los
      /\ ub cl = ub acc ++ his /\ covers n remaining vs los his.
Proof.
  intros Hr. induction fuel as [|fuel IH];
    intros remaining remaining_i acc Hlen Hfuel Hrect.
  - destruct remaining; [|simpl in Hfuel; lia].
    exists acc, [], [], []. simpl. rewrite !app_nil_r.
    repeat (split; [reflexivity || constructor|]).
    intros p Hp. apply elem_of_nil in Hp. contradiction.
  - destruct remaining as [|first rest].
    { exists acc, [], [], []. simpl. rewrite !app_nil_r.
      repeat (split; [reflexivity || constructor|]).
      intros p Hp. apply elem_of_nil in Hp. contradiction. }
    cbn [cluster_loop].
    assert (Hrem : first ∈ first :: rest) by left.
    set (remaining := first :: rest) in *.
    set (mask := distance_below r first <$> remaining).
    assert (Hmask : length mask = length remaining)
      by (unfold mask; apply length_fmap).
    assert (Hsel : mask_select mask remaining
                   = filter (fun p => distance_below r first p = true) remaining)
      by apply mask_select_fmap.
    assert (Hnot : mask_select (negb <$> mask) remaining
                   = filter (fun p => negb (distance_below r first p) = true) remaining).
    { unfold mask. rewrite <- list_fmap_compose.
      apply (mask_select_fmap (negb ∘ distance_below r first)). }
    assert (Hmem : first ∈ mask_select mask remaining).
    { rewrite Hsel. apply list_elem_of_filter. split.
      - apply distance_below_self, Hr.
      - exact Hrem. }
    assert (Hcrect : Forall (fun p : point => length p = n)
                            (mask_select mask remaining)).
    { rewrite Hsel. apply Forall_forall. intros p Hp.
      apply list_elem_of_filter in Hp as [_ Hp].
      rewrite Forall_forall in Hrect. apply Hrect, Hp. }
    assert (Haxis : exists lo hi,
              axis_min (mask_select mask remaining) = Some lo
              /\ axis_max (mask_select mask remaining) = Some hi
              /\ (1 <= length (mask_select mask remaining))%nat).
    { destruct (mask_select mask remaining) as [|c0 cs].
      - apply elem_of_nil in Hmem. contradiction.
      - eexists _, _. split; [reflexivity|]. split; [reflexivity|simpl; lia]. }
    destruct Haxis as (lo & hi & Hlo & Hhi & Hpos).
    rewrite Hlo, Hhi.
    pose proof (mask_select_split mask remaining Hmask) as Hsplit.
    pose proof (mask_select_length mask remaining_i remaining
                  ltac:(lia) Hmask) as Hvi.
    destruct (IH (mask_select (negb <$> mask) remaining)
                 (mask_select (negb <$> mask) remaining_i)
                 (Clusters
                    (value acc ++
                       [Z.of_nat (length (mask_select mask remaining_i))])
                    (lb acc ++ [lo]) (ub acc ++ [hi])))
      as (cl & vs & los & his & Hcl & Hv & Hl & Hu & Hcov).
    + apply mask_select_length; rewrite length_fmap; lia.
    + subst remaining. simpl in Hfuel, Hsplit. simpl. lia.
    + rewrite Hnot. apply Forall_forall. intros p Hp.
      apply list_elem_of_filter in Hp as [_ Hp].
      rewrite Forall_forall in Hrect. apply Hrect, Hp.
    + destruct Hcov as (L1 & L2 & Hpos' & Hlos & Hhis & Hcov).
      destruct (axis_length n _ lo hi Hcrect Hlo Hhi) as [Ll Lh].
      exists cl, (Z.of_nat (length (mask_select mask remaining_i)) :: vs),
             (lo :: los), (hi :: his).
      split; [exact Hcl|]. cbn [value lb ub] in Hv, Hl, Hu.
      rewrite <- !app_assoc in Hv, Hl, Hu.
      split; [exact Hv|]. split; [exact Hl|]. split; [exact Hu|].
      split; [simpl; lia|]. split; [simpl; lia|].
      split; [constructor; [lia|exact Hpos']|].
      split; [constructor; assumption|]. split; [constructor; assumption|].
      intros p Hp.
      destruct (distance_below r first p) eqn:Hnear.
      * exists 0%nat, lo, hi. split; [reflexivity|]. split; [reflexivity|].
        apply (cluster_in_box n (mask_select mask remaining)); try assumption.
        rewrite Hsel. apply list_elem_of_filter. split; assumption.
      * destruct (Hcov p) as (c & lo' & hi' & Hc1 & Hc2 & Hbox).
        { rewrite Hnot. apply list_elem_of_filter. split; [|exact Hp].
          rewrite Hnear. reflexivity. }
        exists (S c), lo', hi'. split; [exact Hc1|]. split; [exact Hc2|exact Hbox].
Qed.

(** Property X15.  For [noise_samples] samples of [n] coordinates each,
    [_computeProbabilityBounds] returns clusters, whatever the clustering
    radius is: the three lists [value], [lb] and [ub] have one entry per
    cluster, every cluster has at least one sample, every corner has [n]
    coordinates, and every sample lies in the box from [lb] to [ub] of some
    cluster. *)
Theorem every_sample_in_a_cluster_box (fuel : nat) (sample_clustering : Q)
    (noise_samples : Z) (samples : list point) (n : nat) :
  Z.of_nat (length samples) = noise_samples ->
  (length samples <= fuel)%nat ->
  Forall (fun p : point => length p = n) samples ->
  exists clusters0,
    _computeProbabilityBounds fuel sample_clustering noise_samples samples
    = Ok clusters0
    /\ length (lb clusters0) = length (value clusters0)
    /\ length (ub clusters0) = length (value clusters0)
    /\ Forall (fun v => (1 <= v)%Z) (value clusters0)
    /\ Forall (fun lo : point => length lo = n) (lb clusters0)
    /\ Forall (fun hi : point => length hi = n) (ub clusters0)
    /\ forall p, p ∈ samples ->
         exists c lo hi, lb clusters0 !! c = Some lo
           /\ ub clusters0 !! c = Some hi /\ in_box lo hi p.
Proof.
  intros Hn Hfuel Hrect. unfold _computeProbabilityBounds.
  destruct (Qlt_le_dec 0 sample_clustering) as [Hr|Hr].
  - destruct (cluster_loop_covers sample_clustering n Hr fuel samples
                (seq 0 (length samples)) (Clusters [] [] [])
                (length_seq _ _) Hfuel Hrect)
      as (cl & vs & los & his & Hcl & Hv & Hl & Hu & Hcov).
    cbn [value lb ub app] in Hv, Hl, Hu.
    destruct (clusters0_spec fuel sample_clustering noise_samples samples
                Hr Hn Hfuel) as (cl' & Hcl' & Hsum & _).
    unfold _computeProbabilityBounds in Hcl'.
    destruct (Qlt_le_dec 0 sample_clustering); [|lra].
    rewrite Hcl in Hcl'. rewrite Hcl.
    destruct (decide (Zsum (value cl) = noise_samples)); [|discriminate].
    exists cl. split; [reflexivity|]. rewrite Hv, Hl, Hu. exact Hcov.
  - eexists. split; [reflexivity|]. cbn [value lb ub].
    rewrite length_fmap. split; [reflexivity|]. split; [reflexivity|].
    split; [apply Forall_fmap, Forall_forall; intros; simpl; lia|].
    split; [exact Hrect|]. split; [exact Hrect|].
    intros p Hp. apply list_elem_of_lookup in Hp as [c Hc].
    exists c, p, p. split; [exact Hc|]. split; [exact Hc|].
    intros d x Hx. exists x, x. split; [exact Hx|]. split; [exact Hx|].
    split; apply Qle_refl.
Qed.

End CoverFacts.

Lemma every_sample_in_a_cluster_box_witness :
  let samples : list Clustering.point :=
    [[0; 0]; [9 # 10; 0]; [1 # 10; 1 # 10]; [1; 0]; [5; 5]] in
  Z.of_nat (length samples) = 5%Z
  /\ (length samples <= 5)%nat
  /\ Forall (fun p : Clustering.point => length p = 2%nat) samples
  /\ exists clusters0,
       Clustering._computeProbabilityBounds 5 (1 # 2) 5 samples = Ok clusters0
       /\ length (Clustering.lb clusters0)
          = length (Clustering.value clusters0).
Proof.
  intros samples.
  assert (Hrect : Forall (fun p : Clustering.point => length p = 2%nat) samples)
    by (repeat constructor).
  split; [reflexivity|]. split; [apply le_n|]. split; [exact Hrect|].
  destruct (every_sample_in_a_cluster_box 5 (1 # 2) 5 samples 2
              eq_refl (le_n 5) Hrect) as (clusters0 & Hrun & Hlen & _).
  exists clusters0. split; [exact Hrun|exact Hlen].
Defined.

(** ** The counts of interval mode *)

Lemma Zsum_nonneg l : Forall (fun x => (0 <= x)%Z) l -> (0 <= Zsum l)%Z.
Proof.
  induction 1 as [|x l Hx Hl IH]; [reflexivity|]. rewrite Zsum_cons. lia.
Qed.




Section CountFacts.
Import Interval.
Variable nrPerDim : list Z.
Variables goal_idx critical_idx : gset (list Z).




End CountFacts.



(** ** The target points of a grid *)

Section TargetFacts.
Import Targets.

(** ** positions in itertools.product *)

Lemma lookup_bind_uniform {A B} (f : A -> list B) (m : nat) l i j x y :
  (forall a, a ∈ l -> length (f a) = m) ->
  l !! i = Some x -> f x !! j = Some y ->
  (l ≫= f) !! (i * m + j)%nat = Some y.
Proof.
  revert i. induction l as [|a l IH]; intros i Hlen Hi Hj; [discriminate|].
  cbn [mbind list_bind].
  change (list_bind _ _ f l) with (l ≫= f).
  destruct i as [|i].
  - injection Hi as ->. rewrite lookup_app_l; [exact Hj|].
    eapply lookup_lt_Some, Hj.
  - rewrite lookup_app_r by (rewrite (Hlen a) by left; lia).
    rewrite (Hlen a) by left.
    replace (S i * m + j - m)%nat with (i * m + j)%nat by lia.
    apply IH; [|exact Hi|exact Hj]. intros b Hb. apply Hlen. right. exact Hb.
Qed.

Lemma pos_fold ns idxs a :
  length ns = length idxs ->
  fold_left (fun acc ni => (acc * ni.1 + ni.2)%nat) (zip ns idxs) a
  = (a * fold_right Nat.mul 1%nat ns + pos ns idxs)%nat.
Proof.
  unfold pos. revert idxs a. induction ns as [|n ns IH]; intros [|i idxs] a Hlen;
    try discriminate; [simpl; lia|].
  cbn [zip zip_with fold_left fold_right fst snd]. injection Hlen as Hlen.
  rewrite (IH idxs (a * n + i)%nat Hlen), (IH idxs (0 * n + i)%nat Hlen). lia.
Qed.

Lemma pos_cons n ns i idxs :
  length ns = length idxs ->
  pos (n :: ns) (i :: idxs) = (i * fold_right Nat.mul 1%nat ns + pos ns idxs)%nat.
Proof.
  intros Hlen. unfold pos at 1. cbn [zip zip_with fold_left fst snd].
  rewrite pos_fold by exact Hlen. lia.
Qed.

Lemma product_lookup {A} (ls : list (list A)) : forall idxs xs,
  Forall3 (fun l i x => l !! i = Some x) ls idxs xs ->
  Actions.product ls !! pos (length <$> ls) idxs = Some xs.
Proof.
  induction ls as [|l ls IH]; intros idxs xs HF.
  - inversion HF; subst. reflexivity.
  - inversion HF as [|? i x ? idxs' xs' Hx HF']; subst.
    rewrite fmap_cons, pos_cons.
    2:{ rewrite length_fmap. exact (Forall3_length_lm _ _ _ _ HF'). }
    cbn [Actions.product]. rewrite <- product_length.
    apply (lookup_bind_uniform _ (length (Actions.product ls)) l i _ x).
    + intros a _. apply length_fmap.
    + exact Hx.
    + rewrite list_lookup_fmap, (IH _ _ HF'). reflexivity.
Qed.

Lemma pos_bound ns : forall idxs,
  Forall2 (fun i n => (i < n)%nat) idxs ns ->
  (pos ns idxs < fold_right Nat.mul 1%nat ns)%nat.
Proof.
  induction ns as [|n ns IH]; intros idxs HF.
  - inversion HF; subst. unfold pos. simpl. lia.
  - inversion HF as [|i ? idxs' ? Hi HF']; subst.
    rewrite pos_cons by (symmetry; eapply Forall2_length, HF').
    specialize (IH _ HF'). cbn [fold_right]. nia.
Qed.

Lemma product_NoDup {A} (ls : list (list A)) :
  Forall NoDup ls -> NoDup (Actions.product ls).
Proof.
  induction 1 as [|l ls Hl Hls IH]; [apply NoDup_singleton|].
  cbn [Actions.product]. clear Hls.
  induction Hl as [|x l Hx Hl IHl]; [constructor|].
  cbn [mbind list_bind]. apply NoDup_app. split; [|split].
  - apply NoDup_fmap; [|exact IH]. intros t1 t2 [= E]. exact E.
  - intros t Ht Ht'. apply list_elem_of_fmap in Ht as (t1 & -> & _).
    change (list_bind _ _ (fun x0 => (fun t => x0 :: t) <$> Actions.product ls) l)
      with (l ≫= fun x0 => (fun t => x0 :: t) <$> Actions.product ls) in Ht'.
    apply list_elem_of_bind in Ht' as (y & Hy & Hyl).
    apply list_elem_of_fmap in Hy as (t2 & [= -> _] & _). contradiction.
  - exact IHl.
Qed.


Lemma enumerate_snoc {A} (l : list A) x :
  Interval.enumerate (l ++ [x]) = Interval.enumerate l ++ [(length l, x)].
Proof.
  unfold Interval.enumerate. rewrite length_app. cbn [length].
  rewrite seq_app. cbn [seq]. rewrite Nat.add_0_l.
  rewrite (zip_with_app pair (seq 0 (length l)) [length l] l [x])
    by apply length_seq.
  reflexivity.
Qed.

Lemma grid_fold (l : list (list Q * list Z)) :
  NoDup l.*2 ->
  grid_filled l
    (fold_left (fun acc ict => add_target acc (Z.of_nat ict.1) ict.2.1 ict.2.2)
               (Interval.enumerate l) (∅, ∅)).
Proof.
  induction l as [|[c t] l IH] using rev_ind; intros Hnd.
  - unfold grid_filled, Interval.enumerate.
    cbn [length seq zip zip_with fold_left fst snd].
    split; [apply map_size_empty|]. split.
    + intros z [a Ha]. rewrite lookup_empty in Ha. discriminate.
    + split; [intros j c t Hj; discriminate|].
      intros t i Hi. rewrite lookup_empty in Hi. discriminate.
  - rewrite fmap_app in Hnd. apply NoDup_app in Hnd as (Hnd & Hfresh & _).
    specialize (IH Hnd). rewrite enumerate_snoc, fold_left_app.
    unfold grid_filled in *.
    set (r := fold_left _ (Interval.enumerate l) (∅, ∅)) in *.
    destruct IH as (Hsize & Hdom & Hget & Hinv).
    cbn [fold_left fst snd add_target]. rewrite length_app. cbn [length].
    assert (Hnew : r.1 !! Z.of_nat (length l) = None).
    { destruct (r.1 !! Z.of_nat (length l)) eqn:E; [|reflexivity].
      destruct (Hdom _ (mk_is_Some _ _ E)). lia. }
    assert (Ht : forall j c', l !! j = Some (c', t) -> False).
    { intros j c' Hj. apply (Hfresh t).
      - apply list_elem_of_fmap. exists (c', t). split; [reflexivity|].
        eapply list_elem_of_lookup_2, Hj.
      - cbn. left. }
    split; [|split; [|split]].
    + rewrite map_size_insert_None by exact Hnew. lia.
    + intros z [a Ha]. destruct (decide (z = Z.of_nat (length l))) as [->|Hne]; [lia|].
      rewrite lookup_insert_ne in Ha by congruence.
      destruct (Hdom z (mk_is_Some _ _ Ha)). lia.
    + intros j c' t' Hj.
      destruct (decide (j = length l)) as [->|Hne].
      * rewrite lookup_app_r in Hj by lia. rewrite Nat.sub_diag in Hj.
        injection Hj as <- <-. rewrite !lookup_insert_eq. split; reflexivity.
      * assert (Hj' : l !! j = Some (c', t')).
        { rewrite lookup_app_l in Hj; [exact Hj|].
          apply lookup_lt_Some in Hj. rewrite length_app in Hj. simpl in Hj. lia. }
        destruct (Hget _ _ _ Hj') as [H1 H2].
        rewrite lookup_insert_ne by lia.
        rewrite lookup_insert_ne by (intros <-; eapply Ht, Hj').
        split; assumption.
    + intros t' i Hi. destruct (decide (t = t')) as [<-|Hne].
      * rewrite lookup_insert_eq in Hi. injection Hi as <-.
        exists (length l), c. split; [reflexivity|].
        rewrite lookup_app_r by lia. rewrite Nat.sub_diag. reflexivity.
      * rewrite lookup_insert_ne in Hi by exact Hne.
        destruct (Hinv _ _ Hi) as (j & c' & -> & Hj). exists j, c'.
        split; [reflexivity|]. apply lookup_app_l_Some, Hj.
Qed.

Lemma extras_fold base (m : gmap Z action) es :
  size m = base ->
  (forall z, is_Some (m !! z) -> (0 <= z < Z.of_nat base)%Z) ->
  extras_filled base m es
    (fold_left (add_extra base) (Interval.enumerate es) (m, [])).
Proof.
  intros Hsize Hdom.
  assert (G : extras_filled base m es
                (fold_left (add_extra base) (Interval.enumerate es) (m, []))
              /\ forall z, is_Some ((fold_left (add_extra base)
                                       (Interval.enumerate es) (m, [])).1 !! z) ->
                    (0 <= z < Z.of_nat base + Z.of_nat (length es))%Z).
  { induction es as [|c es IH] using rev_ind.
    - unfold extras_filled, Interval.enumerate.
      cbn [length seq zip zip_with fold_left fst snd]. split.
      + split; [lia|]. split; [reflexivity|]. split; [reflexivity|].
        intros i c Hi. discriminate.
      + intros z Hz. specialize (Hdom z Hz). lia.
    - rewrite enumerate_snoc, fold_left_app. unfold extras_filled in *.
      set (r := fold_left _ (Interval.enumerate es) (m, [])) in *.
      destruct IH as ((Hs & Hl & Hold & Hget) & Hd).
      cbn [fold_left add_extra fst snd]. rewrite length_app. cbn [length].
      assert (Hnew : r.1 !! (Z.of_nat base + Z.of_nat (length es))%Z = None).
      { destruct (r.1 !! (Z.of_nat base + Z.of_nat (length es))%Z) eqn:E;
          [|reflexivity].
        destruct (Hd _ (mk_is_Some _ _ E)). lia. }
      split.
      + split; [rewrite map_size_insert_None by exact Hnew; lia|].
        split; [rewrite length_app; simpl; lia|]. split.
        * intros z Hz. rewrite lookup_insert_ne by lia. apply Hold, Hz.
        * intros i c' Hi. cbv zeta.
          destruct (decide (i = length es)) as [->|Hne].
          -- rewrite lookup_app_r in Hi by lia. rewrite Nat.sub_diag in Hi.
             injection Hi as <-. rewrite lookup_insert_eq. split; [reflexivity|].
             rewrite lookup_app_r by lia. rewrite Hl, Nat.sub_diag. reflexivity.
          -- assert (Hi' : es !! i = Some c').
             { rewrite lookup_app_l in Hi; [exact Hi|].
               apply lookup_lt_Some in Hi. rewrite length_app in Hi. simpl in Hi. lia. }
             destruct (Hget _ _ Hi') as [H1 H2].
             rewrite lookup_insert_ne by lia. split; [exact H1|].
             apply lookup_app_l_Some, H2.
      + intros z [a Ha].
        destruct (decide (z = (Z.of_nat base + Z.of_nat (length es))%Z)) as [->|Hne];
          [lia|].
        rewrite lookup_insert_ne in Ha by congruence.
        destruct (Hd z (mk_is_Some _ _ Ha)). lia. }
  exact (proj1 G).
Qed.


Lemma rank_pos number : forall t (a : nat),
  Forall2 (fun x num => (0 <= x < num)%Z) t number ->
  fold_left (fun acc nt => (acc * nt.1 + nt.2)%Z) (zip number t) (Z.of_nat a)
  = Z.of_nat (fold_left (fun acc ni => (acc * ni.1 + ni.2)%nat)
                        (zip (Z.to_nat <$> number) (Z.to_nat <$> t)) a).
Proof.
  induction number as [|num number IH]; intros t a HF.
  - inversion HF; subst. reflexivity.
  - inversion HF as [|x ? t' ? Hx HF']; subst.
    cbn [fmap list_fmap zip zip_with fold_left fst snd].
    change (list_fmap _ _ Z.to_nat number) with (Z.to_nat <$> number).
    change (list_fmap _ _ Z.to_nat t') with (Z.to_nat <$> t').
    rewrite <- IH by exact HF'. f_equal. lia.
Qed.

Lemma grid_ranges_lengths boundary number ranges :
  grid_ranges boundary number = Some ranges ->
  length boundary = length number ->
  length <$> ranges = Z.to_nat <$> number.
Proof.
  unfold grid_ranges. intros Hm Hlen. apply mapM_Some_1 in Hm.
  apply list_eq_Forall2, Forall2_fmap.
  revert boundary Hm Hlen. generalize dependent ranges.
  induction number as [|num number IH]; intros ranges boundary Hm Hlen.
  - destruct boundary; [|discriminate]. inversion Hm; subst. constructor.
  - destruct boundary as [|b boundary]; [discriminate|].
    cbn [zip zip_with] in Hm. inversion Hm as [|? r ? rs Hr Hrs]; subst.
    constructor.
    + cbn [fst snd] in Hr. apply linspace_length in Hr. lia.
    + eapply IH; [exact Hrs|]. simpl in Hlen. lia.
Qed.

Lemma pick_exists {A} (ls : list (list A)) : forall idxs,
  Forall2 (fun i l => (i < length l)%nat) idxs ls ->
  exists xs, Forall3 (fun l i x => l !! i = Some x) ls idxs xs.
Proof.
  induction ls as [|l ls IH]; intros idxs HF.
  - inversion HF; subst. exists []. constructor.
  - inversion HF as [|i ? idxs' ? Hi HF']; subst.
    destruct (lookup_lt_is_Some_2 l i Hi) as [x Hx].
    destruct (IH _ HF') as [xs Hxs]. exists (x :: xs). constructor; assumption.
Qed.


Lemma grid_ranges_total boundary number :
  length boundary = length number -> Forall (fun num => (0 <= num)%Z) number ->
  is_Some (grid_ranges boundary number).
Proof.
  intros Hlen Hpos. unfold grid_ranges.
  apply mapM_is_Some_2, Forall_forall. intros [[lo hi] num] Hin.
  apply elem_of_zip_r in Hin. cbn [snd] in Hin.
  rewrite Forall_forall in Hpos. specialize (Hpos num Hin).
  unfold compose, Grid.linspace. cbn [fst snd].
  rewrite decide_False by lia. eauto.
Qed.

Lemma Zprod_nat number :
  Forall (fun num => (0 <= num)%Z) number ->
  Z.of_nat (fold_right Nat.mul 1%nat (Z.to_nat <$> number))
  = fold_right Z.mul 1%Z number.
Proof.
  induction 1 as [|num number Hn Hpos IH]; [reflexivity|].
  cbn [fmap list_fmap fold_right].
  change (list_fmap _ _ Z.to_nat number) with (Z.to_nat <$> number).
  rewrite Nat2Z.inj_mul, IH. lia.
Qed.

(** Property X17.  For a grid of target points with [number] points per
    dimension, none of them negative, and one pair of bounds per dimension,
    [define_target_points] returns, apart from the backward reachable sets
    that are not followed here.  The number of actions is the product of
    [number] plus the number of extra target points.  The grid is numbered
    in row-major order: the index tuple [t] has the number [rank number t],
    [tup2idx] maps [t] to it and nothing else to anything, and the action of
    that number has the tuple [t] and the centre whose coordinate in every
    dimension is the entry [t] picks from [np.linspace] of that dimension.
    The extra target point [i] is the action numbered the product of
    [number] plus [i], with the tuple [-i], in [obj] and at [i] in
    [extra_act]. *)
Theorem target_grid_is_row_major (R_center : list (list Q))
    (R_idx : list (list Z * Z)) (boundary : list (Q * Q)) (number : list Z)
    (extra : option (list (list Q))) :
  length boundary = length number ->
  Forall (fun num => (0 <= num)%Z) number ->
  exists acts ranges,
    define_target_points (length number) R_center R_idx boundary (Some number)
                         extra = Some acts
    /\ grid_ranges boundary number = Some ranges
    /\ Z.of_nat (nr_actions acts)
       = (fold_right Z.mul 1 number + Z.of_nat (length (default [] extra)))%Z
    /\ (forall t, Forall2 (fun x num => (0 <= x < num)%Z) t number ->
          (0 <= rank number t < fold_right Z.mul 1 number)%Z
          /\ tup2idx acts !! t = Some (rank number t)
          /\ exists c,
               obj acts !! rank number t
               = Some (Action (rank number t) c (Tuple t))
               /\ Forall3 (fun r x y => r !! Z.to_nat x = Some y) ranges t c)
    /\ (forall t i, tup2idx acts !! t = Some i ->
          Forall2 (fun x num => (0 <= x < num)%Z) t number /\ i = rank number t)
    /\ (forall (i : nat) c, default [] extra !! i = Some c ->
          let a := Action (fold_right Z.mul 1 number + Z.of_nat i)%Z c
                          (Minus (- Z.of_nat i)) in
          obj acts !! (fold_right Z.mul 1 number + Z.of_nat i)%Z = Some a
          /\ extra_act acts !! i = Some a).
Proof.
  intros Hlen Hpos.
  destruct (grid_ranges_total boundary number Hlen Hpos) as [ranges Hranges].
  pose proof (grid_ranges_lengths _ _ _ Hranges Hlen) as Hrl.
  set (tuples := grid_tuples (length number) number).
  assert (Htl : length <$> tuples = Z.to_nat <$> number).
  { unfold tuples, grid_tuples. rewrite firstn_all, <- list_fmap_compose.
    apply list_fmap_ext. intros i num _. cbn. apply length_seqZ. }
  set (l := zip (Actions.product ranges) (Actions.product tuples)).
  assert (Hll : length (Actions.product ranges) = length (Actions.product tuples)).
  { rewrite !product_length, Hrl, Htl. reflexivity. }
  assert (Hl2 : l.*2 = Actions.product tuples).
  { unfold l. apply snd_zip. lia. }
  assert (Hnd : NoDup l.*2).
  { rewrite Hl2. apply product_NoDup. unfold tuples, grid_tuples.
    apply Forall_fmap, Forall_forall. intros num _. apply NoDup_seqZ. }
  pose proof (grid_fold l Hnd) as Hgrid.
  set (r := fold_left _ (Interval.enumerate l) (∅, ∅)) in Hgrid.
  destruct Hgrid as (Hsize & Hdom & Hget & Hinv).
  assert (Hlen_l : Z.of_nat (length l) = fold_right Z.mul 1%Z number).
  { unfold l. rewrite length_zip_with, Hll, Nat.min_id, product_length, Htl.
    apply Zprod_nat, Hpos. }
  pose proof (extras_fold (size r.1) r.1 (default [] extra) eq_refl) as Hex.
  specialize (Hex ltac:(intros z Hz; specialize (Hdom z Hz); lia)).
  assert (Hrun : define_target_points (length number) R_center R_idx boundary
                   (Some number) extra
                 = Some (Actions
                     (fold_left (add_extra (size r.1))
                        (Interval.enumerate (default [] extra)) (r.1, [])).1
                     r.2
                     (fold_left (add_extra (size r.1))
                        (Interval.enumerate (default [] extra)) (r.1, [])).2
                     (size (fold_left (add_extra (size r.1))
                        (Interval.enumerate (default [] extra)) (r.1, [])).1))).
  { unfold define_target_points. rewrite Hranges. cbn [mbind option_bind].
    fold tuples. fold l. fold r. destruct extra as [es|]; reflexivity. }
  set (re := fold_left (add_extra (size r.1))
               (Interval.enumerate (default [] extra)) (r.1, [])) in *.
  destruct Hex as (Hsz & Hel & Hold & Hext).
  assert (Hforward : forall t, Forall2 (fun x num => (0 <= x < num)%Z) t number ->
            exists c, l !! Z.to_nat (rank number t) = Some (c, t)
              /\ (0 <= rank number t < fold_right Z.mul 1 number)%Z
              /\ Forall3 (fun r x y => r !! Z.to_nat x = Some y) ranges t c).
  { intros t Ht.
    set (idxs := Z.to_nat <$> t).
    assert (Hrank : rank number t = Z.of_nat (pos (Z.to_nat <$> number) idxs)).
    { unfold rank, pos. apply (rank_pos number t 0 Ht). }
    assert (Hidx : Forall2 (fun i n => (i < n)%nat) idxs (Z.to_nat <$> number)).
    { unfold idxs. apply Forall2_fmap. eapply Forall2_impl; [exact Ht|].
      intros x num Hx. simpl in Hx. lia. }
    assert (Hpick : Forall2 (fun i r => (i < length r)%nat) idxs ranges).
    { revert Hidx. rewrite <- Hrl, Forall2_fmap_r. intros H.
      eapply Forall2_impl; [exact H|]. intros i r0 Hi. exact Hi. }
    destruct (pick_exists ranges idxs Hpick) as [c Hc].
    assert (Ht3 : Forall3 (fun l0 i x => l0 !! i = Some x) tuples idxs t).
    { unfold tuples, grid_tuples, idxs. rewrite firstn_all.
      clear -Ht. induction Ht as [|x num t number Hx Ht IH]; [constructor|].
      cbn [fmap list_fmap]. constructor; [|exact IH].
      rewrite lookup_seqZ. split; lia. }
    exists c. split; [|split].
    - rewrite Hrank, Nat2Z.id. unfold l. apply lookup_zip_with_Some.
      exists c, t. split; [reflexivity|]. split.
      + rewrite <- Hrl. apply product_lookup, Hc.
      + rewrite <- Htl. apply product_lookup, Ht3.
    - rewrite Hrank, <- (Zprod_nat number Hpos).
      pose proof (pos_bound _ _ Hidx). lia.
    - clear -Hc. unfold idxs in Hc. clear idxs.
      remember (Z.to_nat <$> t) as js eqn:E. revert t E.
      induction Hc as [|r0 i y rs js c Hy Hc IH]; intros t E.
      + destruct t; [constructor|discriminate].
      + destruct t as [|x t]; [discriminate|]. injection E as -> ->.
        constructor; [exact Hy|]. apply IH. reflexivity. }
  exists (Actions re.1 r.2 re.2 (size re.1)), ranges.
  split; [exact Hrun|]. split; [exact Hranges|].
  cbn [nr_actions tup2idx obj extra_act].
  split; [rewrite Hsz, Hsize; lia|]. split; [|split].
  - intros t Ht. destruct (Hforward t Ht) as (c & Hl & Hb & Hc).
    destruct (Hget _ _ _ Hl) as [H1 H2]. rewrite Z2Nat.id in H1, H2 by lia.
    split; [exact Hb|]. split; [exact H2|]. exists c. split; [|exact Hc].
    rewrite Hold by (rewrite Hsize; lia). exact H1.
  - intros t i Hi. destruct (Hinv _ _ Hi) as (j & c & -> & Hj).
    assert (Ht : Forall2 (fun x num => (0 <= x < num)%Z) t number).
    { assert (Hin : t ∈ Actions.product tuples).
      { rewrite <- Hl2. apply list_elem_of_fmap. exists (c, t).
        split; [reflexivity|]. eapply list_elem_of_lookup_2, Hj. }
      apply product_elem in Hin. unfold tuples, grid_tuples in Hin.
      rewrite firstn_all, Forall2_fmap_r in Hin.
      eapply Forall2_impl; [exact Hin|]. intros x num Hx. cbn in Hx.
      apply elem_of_seqZ in Hx. lia. }
    split; [exact Ht|].
    destruct (Hforward t Ht) as (c' & Hl & Hb & _).
    destruct (Hget _ _ _ Hl) as [_ H2]. rewrite Z2Nat.id in H2 by lia.
    destruct (Hget _ _ _ Hj) as [_ H3]. congruence.
  - intros i c Hi. cbv zeta. rewrite <- Hlen_l, <- Hsize.
    apply (Hext i c Hi).
Qed.

End TargetFacts.

Lemma target_grid_is_row_major_witness :
  let boundary : list (Q * Q) := [(0, 1); (-1, 1)] in
  let number := [2%Z; 3%Z] in
  length boundary = length number
  /\ Forall (fun num => (0 <= num)%Z) number
  /\ exists acts,
       Targets.define_target_points 2 [] [] boundary (Some number)
                                    (Some [[1 # 2; 0]])
       = Some acts
       /\ Z.of_nat (Targets.nr_actions acts) = 7%Z.
Proof.
  intros boundary number.
  assert (Hpos : Forall (fun num => (0 <= num)%Z) number)
    by (repeat constructor; lia).
  split; [reflexivity|]. split; [exact Hpos|].
  destruct (target_grid_is_row_major [] [] boundary number (Some [[1 # 2; 0]])
              eq_refl Hpos) as (acts & ranges & Hrun & _ & Hnr & _).
  exists acts. split; [exact Hrun|exact Hnr].
Defined.

(** ** The corners of the regions *)

Section CornerFacts.
Import Corners.

Lemma testbit_below n k : (k < 2 ^ n)%nat -> Nat.testbit k n = false.
Proof.
  intros Hk. rewrite Nat.testbit_eqb, Nat.div_small by exact Hk. reflexivity.
Qed.

Lemma testbit_top n k :
  (2 ^ n <= k < 2 ^ S n)%nat -> Nat.testbit k n = true.
Proof.
  intros Hk. rewrite Nat.testbit_eqb.
  assert (k / 2 ^ n = 1)%nat as ->; [|reflexivity].
  symmetry. apply (Nat.div_unique k (2 ^ n) 1 (k - 2 ^ n)).
  - rewrite Nat.pow_succ_r' in Hk. lia.
  - lia.
Qed.

Lemma testbit_drop_top n k j :
  (j < n)%nat -> (2 ^ n <= k)%nat ->
  Nat.testbit k j = Nat.testbit (k - 2 ^ n) j.
Proof.
  intros Hj Hk. rewrite !Nat.testbit_eqb. f_equal.
  replace k with (k - 2 ^ n + 2 ^ (n - j) * 2 ^ j)%nat at 1.
  2:{ rewrite <- Nat.pow_add_r. replace (n - j + j)%nat with n by lia. lia. }
  rewrite Nat.div_add by (apply Nat.pow_nonzero; lia).
  replace (n - j)%nat with (S (n - j - 1)) by lia.
  rewrite Nat.pow_succ_r', (Nat.mul_comm 2).
  apply Nat.Div0.mod_add.
Qed.

Lemma bits_S n k :
  bits (S n) k
  = (if Nat.testbit k n then 1%Z else 0%Z)
    :: ((fun d => if Nat.testbit k (n - 1 - d) then 1%Z else 0%Z) <$> seq 0 n).
Proof.
  unfold bits. cbn [seq fmap list_fmap]. f_equal.
  - replace (S n - 1 - 0)%nat with n by lia. reflexivity.
  - rewrite <- fmap_S_seq, <- list_fmap_compose. apply list_fmap_ext.
    intros i d _. cbn. replace (n - 0 - S d)%nat with (n - 1 - d)%nat by lia.
    reflexivity.
Qed.

Lemma bits_ext n k k' :
  (forall j, (j < n)%nat -> Nat.testbit k j = Nat.testbit k' j) ->
  bits n k = bits n k'.
Proof.
  intros H. unfold bits. apply list_fmap_ext. intros i d Hd.
  apply lookup_seq in Hd as [-> Hd]. rewrite H by lia. reflexivity.
Qed.

Lemma bitCombinations_length n : length (bitCombinations n) = (2 ^ n)%nat.
Proof.
  unfold bitCombinations. rewrite product_length.
  induction n as [|n IH]; [reflexivity|].
  cbn [replicate fmap list_fmap fold_right length].
  change (list_fmap _ _ length (replicate n [0%Z; 1%Z]))
    with (length <$> replicate n [0%Z; 1%Z]).
  rewrite IH, Nat.pow_succ_r'. reflexivity.
Qed.

Lemma bitCombinations_lookup n : forall k,
  (k < 2 ^ n)%nat -> bitCombinations n !! k = Some (bits n k).
Proof.
  induction n as [|n IH]; intros k Hk.
  - simpl in Hk. assert (k = 0%nat) as -> by lia. reflexivity.
  - pose proof (bitCombinations_length n) as Hlen.
    unfold bitCombinations in *. cbn [replicate Actions.product mbind list_bind].
    rewrite app_nil_r, bits_S.
    destruct (decide (k < 2 ^ n)%nat) as [Hlt|Hge].
    + rewrite lookup_app_l by (rewrite length_fmap, Hlen; exact Hlt).
      rewrite list_lookup_fmap, (IH k Hlt), testbit_below by exact Hlt.
      reflexivity.
    + rewrite lookup_app_r by (rewrite length_fmap, Hlen; lia).
      rewrite length_fmap, Hlen, list_lookup_fmap.
      rewrite Nat.pow_succ_r' in Hk.
      rewrite (IH (k - 2 ^ n)%nat) by lia.
      rewrite testbit_top by (rewrite Nat.pow_succ_r'; lia).
      cbn. do 2 f_equal.
      apply (bits_ext n). intros j Hj. symmetry.
      apply testbit_drop_top; [exact Hj|lia].
Qed.

Lemma bits_lookup n k d :
  (d < n)%nat ->
  bits n k !! d = Some (if Nat.testbit k (n - 1 - d) then 1%Z else 0%Z).
Proof.
  intros Hd. unfold bits. rewrite list_lookup_fmap, lookup_seq_lt by exact Hd.
  reflexivity.
Qed.

Lemma bits_length n k : length (bits n k) = n.
Proof. unfold bits. rewrite length_fmap. apply length_seq. Qed.

(** Property X18.  When the two arrays [low] and [upp] of the partition have
    one row of [n] coordinates per region, [_defAllCorners] returns one list
    of [2 ^ n] corners per region, each corner of [n] coordinates; corner
    number [k] of region [i] has in dimension [d] the upper bound of the
    region when bit [n - 1 - d] of [k] is set, and its lower bound
    otherwise. *)
Theorem corners_follow_the_bits (n nr_regions : nat) (low upp : list (list Q)) :
  length low = nr_regions -> length upp = nr_regions ->
  Forall (fun row => length row = n) low ->
  Forall (fun row => length row = n) upp ->
  exists allCorners,
    _defAllCorners n nr_regions low upp = Some allCorners
    /\ length allCorners = nr_regions
    /\ forall i corners, allCorners !! i = Some corners ->
         length corners = (2 ^ n)%nat
         /\ forall k corner, corners !! k = Some corner ->
              length corner = n
              /\ forall d, (d < n)%nat ->
                   corner !! d
                   = (if Nat.testbit k (n - 1 - d) then upp else low) !! i
                       ≫= (fun row => row !! d).
Proof.
  intros Hlow Hupp Hlrows Hurows.
  assert (Hentry : forall i k, (i < nr_regions)%nat -> (k < 2 ^ n)%nat ->
            exists corner,
              mapM (corner_entry low upp i) (Interval.enumerate (bits n k))
              = Some corner
              /\ length corner = n
              /\ forall d, (d < n)%nat ->
                   corner !! d
                   = (if Nat.testbit k (n - 1 - d) then upp else low) !! i
                       ≫= (fun row => row !! d)).
  { intros i k Hi Hk.
    destruct (lookup_lt_is_Some_2 low i ltac:(lia)) as [lo Hlo].
    destruct (lookup_lt_is_Some_2 upp i ltac:(lia)) as [hi Hhi].
    assert (Hlo_len : length lo = n).
    { rewrite Forall_forall in Hlrows. eapply Hlrows, list_elem_of_lookup_2, Hlo. }
    assert (Hhi_len : length hi = n).
    { rewrite Forall_forall in Hurows. eapply Hurows, list_elem_of_lookup_2, Hhi. }
    destruct (mapM_enumerate (fun d bit => corner_entry low upp i (d, bit))
                (fun d bit x =>
                   Some x = (if Nat.testbit k (n - 1 - d) then upp else low) !! i
                              ≫= (fun row => row !! d))
                (bits n k)) as (corner & Hrun & Hlen & Hget).
    { intros d bit Hd.
      assert (Hdn : (d < n)%nat).
      { apply lookup_lt_Some in Hd. rewrite bits_length in Hd. exact Hd. }
      rewrite bits_lookup in Hd by exact Hdn. injection Hd as <-.
      unfold corner_entry. cbn [fst snd].
      destruct (Nat.testbit k (n - 1 - d)).
      - rewrite decide_False by lia. rewrite Hhi. cbn.
        destruct (lookup_lt_is_Some_2 hi d ltac:(lia)) as [x Hx].
        exists x. split; [exact Hx|]. symmetry. exact Hx.
      - rewrite decide_True by reflexivity. rewrite Hlo. cbn.
        destruct (lookup_lt_is_Some_2 lo d ltac:(lia)) as [x Hx].
        exists x. split; [exact Hx|]. symmetry. exact Hx. }
    exists corner. split.
    - rewrite <- Hrun. unfold Interval.enumerate. apply mapM_ext.
      intros [d bit]. reflexivity.
    - rewrite bits_length in Hlen. split; [exact Hlen|].
      intros d Hd.
      destruct (lookup_lt_is_Some_2 corner d ltac:(lia)) as [x Hx].
      rewrite Hx. eapply Hget; [|exact Hx]. apply bits_lookup, Hd. }
  assert (Hregion : forall i, (i < nr_regions)%nat ->
            exists corners,
              mapM (fun bitList =>
                      mapM (corner_entry low upp i) (Interval.enumerate bitList))
                   (bitCombinations n) = Some corners
              /\ length corners = (2 ^ n)%nat
              /\ forall k corner, corners !! k = Some corner ->
                   length corner = n
                   /\ forall d, (d < n)%nat ->
                        corner !! d
                        = (if Nat.testbit k (n - 1 - d) then upp else low) !! i
                            ≫= (fun row => row !! d)).
  { intros i Hi.
    destruct (mapM (fun bitList =>
                      mapM (corner_entry low upp i) (Interval.enumerate bitList))
                   (bitCombinations n)) as [corners|] eqn:Hrun.
    2:{ exfalso.
        assert (Hsome : is_Some (mapM (fun bitList =>
                      mapM (corner_entry low upp i) (Interval.enumerate bitList))
                   (bitCombinations n))).
        { apply mapM_is_Some_2, Forall_lookup. intros k bitList Hk.
          assert (Hk' : (k < 2 ^ n)%nat).
          { apply lookup_lt_Some in Hk. rewrite bitCombinations_length in Hk.
            exact Hk. }
          rewrite bitCombinations_lookup in Hk by exact Hk'. injection Hk as <-.
          destruct (Hentry i k Hi Hk') as (corner & Hc & _).
          unfold compose. rewrite Hc. eauto. }
        rewrite Hrun in Hsome. destruct Hsome as [? [=]]. }
    exists corners. split; [reflexivity|].
    apply mapM_Some_1 in Hrun.
    pose proof (Forall2_length _ _ _ Hrun) as Hlen.
    rewrite bitCombinations_length in Hlen. split; [symmetry; exact Hlen|].
    intros k corner Hk.
    assert (Hk' : (k < 2 ^ n)%nat).
    { apply lookup_lt_Some in Hk. lia. }
    destruct (Forall2_lookup_r _ _ _ _ _ Hrun Hk) as (bitList & Hb & Hc).
    rewrite bitCombinations_lookup in Hb by exact Hk'. injection Hb as <-.
    destruct (Hentry i k Hi Hk') as (corner' & Hc' & Hlen' & Hget).
    rewrite Hc in Hc'. injection Hc' as <-. split; assumption. }
  unfold _defAllCorners.
  destruct (mapM _ (seq 0 nr_regions)) as [allCorners|] eqn:Hrun.
  2:{ exfalso.
      assert (Hsome : is_Some (mapM (fun i =>
                mapM (fun bitList =>
                        mapM (corner_entry low upp i) (Interval.enumerate bitList))
                     (bitCombinations n)) (seq 0 nr_regions))).
      { apply mapM_is_Some_2, Forall_forall. intros i Hi.
        apply elem_of_seq in Hi.
        destruct (Hregion i ltac:(lia)) as (corners & Hc & _).
        unfold compose. rewrite Hc. eauto. }
      rewrite Hrun in Hsome. destruct Hsome as [? [=]]. }
  exists allCorners. split; [reflexivity|].
  apply mapM_Some_1 in Hrun.
  pose proof (Forall2_length _ _ _ Hrun) as Hlen. rewrite length_seq in Hlen.
  split; [symmetry; exact Hlen|].
  intros i corners Hi.
  destruct (Forall2_lookup_r _ _ _ _ _ Hrun Hi) as (i' & Hi' & Hc).
  apply lookup_seq in Hi' as [-> Hlt]. cbn in Hlt.
  destruct (Hregion i Hlt) as (corners' & Hc' & Hrest).
  cbn in Hc. rewrite Hc in Hc'. injection Hc' as <-. exact Hrest.
Qed.

End CornerFacts.

Lemma corners_follow_the_bits_witness :
  let low : list (list Q) := [[0; 0]] in
  let upp : list (list Q) := [[1; 2]] in
  length low = 1%nat /\ length upp = 1%nat
  /\ Forall (fun row => length row = 2%nat) low
  /\ Forall (fun row => length row = 2%nat) upp
  /\ exists allCorners,
       Corners._defAllCorners 2 1 low upp = Some allCorners
       /\ length allCorners = 1%nat.
Proof.
  intros low upp.
  assert (Hl : Forall (fun row : list Q => length row = 2%nat) low)
    by (repeat constructor).
  assert (Hu : Forall (fun row : list Q => length row = 2%nat) upp)
    by (repeat constructor).
  split; [reflexivity|]. split; [reflexivity|].
  split; [exact Hl|]. split; [exact Hu|].
  destruct (corners_follow_the_bits 2 1 low upp eq_refl eq_refl Hl Hu)
    as (allCorners & Hrun & Hlen & _).
  exists allCorners. split; [exact Hrun|exact Hlen].
Defined.

(** ** The rows of the table *)

Section TableFacts.
Import Table.
Variable word : Type.
Variable str : word -> text.

Lemma ljust_length s width :
  (Z.of_nat (length s) <= width)%Z -> Z.of_nat (length (ljust s width)) = width.
Proof. intros H. unfold ljust. rewrite length_app, length_replicate. lia. Qed.

Lemma row_pieces col_width row :
  (length row <= length col_width)%nat ->
  mapM (fun iw : nat * word =>
          width ← col_width !! iw.1; Some (ljust (str iw.2) width))
       (Interval.enumerate row)
  = Some (zip_with (fun w width => ljust (str w) width) row col_width).
Proof.
  intros Hlen.
  destruct (mapM_enumerate
              (fun i w => width ← col_width !! i; Some (ljust (str w) width))
              (fun i w piece => exists width, col_width !! i = Some width
                                  /\ piece = ljust (str w) width) row)
    as (pieces & Hrun & Hlen' & Hget).
  { intros i w Hi.
    destruct (lookup_lt_is_Some_2 col_width i) as [width Hw].
    { apply lookup_lt_Some in Hi. lia. }
    exists (ljust (str w) width). split; [rewrite Hw; reflexivity|].
    exists width. split; [exact Hw|reflexivity]. }
  unfold Interval.enumerate.
  replace (zip_with (fun w width => ljust (str w) width) row col_width)
    with pieces; [exact Hrun|].
  apply list_eq. intros i. rewrite lookup_zip_with.
  destruct (row !! i) as [w|] eqn:Hw.
  - destruct (lookup_lt_is_Some_2 pieces i) as [piece Hp].
    { rewrite Hlen'. eapply lookup_lt_Some, Hw. }
    destruct (Hget i w piece Hw Hp) as (width & Hwidth & ->).
    rewrite Hp, Hwidth. reflexivity.
  - cbn. apply lookup_ge_None. rewrite Hlen'. apply lookup_ge_None, Hw.
Qed.

Lemma concat_lengths (pieces : list text) (widths : list Z) :
  Forall2 (fun piece width => Z.of_nat (length piece) = width) pieces widths ->
  Z.of_nat (length (concat pieces)) = Zsum widths.
Proof.
  induction 1 as [|piece width pieces widths Hp _ IH]; [reflexivity|].
  cbn [concat]. rewrite length_app, Zsum_cons. lia.
Qed.

Lemma concat_column (pieces : list text) : forall i piece,
  pieces !! i = Some piece ->
  take (length piece) (drop (length (concat (take i pieces))) (concat pieces))
  = piece.
Proof.
  induction pieces as [|p pieces IH]; intros i piece Hi; [discriminate|].
  destruct i as [|i].
  - injection Hi as ->.
    change (take (length piece) (piece ++ concat pieces) = piece).
    apply take_app_length.
  - change (take (length piece)
              (drop (length (p ++ concat (take i pieces)))
                    (p ++ concat pieces)) = piece).
    rewrite length_app, drop_app_add'; [|reflexivity].
    apply IH, Hi.
Qed.

(** Property X19.  When the row has no more words than the table has
    columns and no word is longer than its column, [print_row] returns,
    having printed the row, between the two rules when it is a header row.
    The text of the row is as long as the widths of its columns together,
    and column [i] of it, which begins after the widths of the columns
    before it, holds word [i] padded with spaces to the width of the
    column. *)
Theorem printed_row_is_aligned (col_width : list Z) (row : list word)
    (head : bool) (s : sort) :
  (length row <= length col_width)%nat ->
  (forall i w width, row !! i = Some w -> col_width !! i = Some width ->
     (Z.of_nat (length (str w)) <= width)%Z) ->
  exists string,
    row_string word str col_width row = Some string
    /\ print_row word str col_width row head s
       = ((if head then [newline :: times "="%char (Zsum col_width)] else [])
            ++ [coloured s string]
            ++ (if head then [times "-"%char (Zsum col_width)] else []),
          true)
    /\ Z.of_nat (length string) = Zsum (take (length row) col_width)
    /\ forall i w width, row !! i = Some w -> col_width !! i = Some width ->
         take (Z.to_nat width)
              (drop (Z.to_nat (Zsum (take i col_width))) string)
         = ljust (str w) width.
Proof.
  intros Hlen Hfit.
  set (pieces := zip_with (fun w width => ljust (str w) width) row col_width).
  assert (Hrun : row_string word str col_width row = Some (concat pieces)).
  { unfold row_string. rewrite row_pieces by exact Hlen. reflexivity. }
  assert (Hwidths : Forall2 (fun piece width => Z.of_nat (length piece) = width)
                      pieces (take (length row) col_width)).
  { apply Forall2_same_length_lookup. split.
    - unfold pieces. rewrite length_zip_with, length_take. lia.
    - intros i piece width Hp Hw. unfold pieces in Hp.
      apply lookup_zip_with_Some in Hp as (w & width' & -> & Hw1 & Hw2).
      apply lookup_take_Some in Hw as [Hw _].
      rewrite Hw2 in Hw. injection Hw as ->.
      apply ljust_length. eapply Hfit; eassumption. }
  exists (concat pieces). split; [exact Hrun|]. split; [|split].
  - unfold print_row. rewrite Hrun. reflexivity.
  - apply concat_lengths, Hwidths.
  - intros i w width Hw Hwidth.
    assert (Hp : pieces !! i = Some (ljust (str w) width)).
    { unfold pieces. apply lookup_zip_with_Some. eauto. }
    assert (Hi : (i < length row)%nat) by (eapply lookup_lt_Some, Hw).
    assert (Hoff : Z.of_nat (length (concat (take i pieces)))
                   = Zsum (take i col_width)).
    { apply concat_lengths.
      replace (take i col_width) with (take i (take (length row) col_width)).
      - apply Forall2_take, Hwidths.
      - rewrite take_take. f_equal. lia. }
    rewrite <- Hoff, Nat2Z.id.
    pose proof (ljust_length (str w) width (Hfit i w width Hw Hwidth)) as Hl.
    replace (Z.to_nat width) with (length (ljust (str w) width)) by lia.
    apply concat_column, Hp.
Qed.

(** Property X20.  A row with more words than the table has columns makes
    [print_row] raise: the row is not printed, and for a header row the
    rule above it has been printed by then. *)
Theorem row_longer_than_table_raises (col_width : list Z) (row : list word)
    (head : bool) (s : sort) :
  (length col_width < length row)%nat ->
  row_string word str col_width row = None
  /\ print_row word str col_width row head s
     = ((if head then [newline :: times "="%char (Zsum col_width)] else []),
        false).
Proof.
  intros Hlen.
  assert (Hrun : row_string word str col_width row = None).
  { unfold row_string.
    destruct (mapM _ (Interval.enumerate row)) as [pieces|] eqn:Hrun;
      [|reflexivity].
    exfalso. apply mapM_Some_1 in Hrun.
    destruct (lookup_lt_is_Some_2 row (length col_width) Hlen) as [w Hw].
    assert (Hiw : Interval.enumerate row !! length col_width
                  = Some (length col_width, w)).
    { unfold Interval.enumerate. apply lookup_zip_with_Some.
      exists (length col_width), w. split; [reflexivity|].
      split; [|exact Hw]. apply lookup_seq. split; [reflexivity|exact Hlen]. }
    destruct (Forall2_lookup_l _ _ _ _ _ Hrun Hiw) as (piece & _ & Hp).
    cbn [fst snd] in Hp.
    rewrite (proj2 (lookup_ge_None col_width (length col_width))) in Hp
      by apply le_n.
    discriminate Hp. }
  split; [exact Hrun|]. unfold print_row. rewrite Hrun. reflexivity.
Qed.

End TableFacts.

Lemma printed_row_is_aligned_witness :
  let col_width := [8; 8; 8; 46]%Z in
  let row := list_ascii_of_string <$> ["K"; "ACTION"; "STATUS"]%string in
  (length row <= length col_width)%nat
  /\ exists string,
       Table.row_string Table.text id col_width row = Some string
       /\ Z.of_nat (length string) = 24%Z.
Proof.
  intros col_width row.
  assert (Hlen : (length row <= length col_width)%nat) by (simpl; lia).
  split; [exact Hlen|].
  destruct (printed_row_is_aligned Table.text id col_width row true Table.Plain
              Hlen) as (string & Hrun & _ & Hwidth & _).
  - intros i w width Hw Hc.
    do 3 (destruct i as [|i];
          [injection Hw as <-; injection Hc as <-; simpl; lia|]).
    discriminate Hw.
  - exists string. split; [exact Hrun|exact Hwidth].
Defined.

Lemma row_longer_than_table_raises_witness :
  let col_width := [8]%Z in
  let row := list_ascii_of_string <$> ["K"; "ACTION"]%string in
  (length col_width < length row)%nat
  /\ Table.row_string Table.text id col_width row = None.
Proof.
  intros col_width row.
  assert (Hlen : (length col_width < length row)%nat) by (simpl; lia).
  split; [exact Hlen|].
  exact (proj1 (row_longer_than_table_raises Table.text id col_width row
                  false Table.Plain Hlen)).
Defined.

(** ** Solver results that cannot be read *)



(** ** The timers *)

Section TimingFacts.
Import Timing.
Variable now : nat -> Q.

Lemma run_call_keeps_start (c : call) (st : timers) (ti : Q) :
  TicToc st = Suspended ti -> TicToc (run_call now c st).2 = Suspended ti.
Proof.
  intros Hti.
  destruct c as [|b| |b]; cbn [run_call]; unfold tic, toc, ticDiff, tocDiff,
    next_TicToc, next_TicTocDiff; rewrite ?Hti;
    try destruct b; try destruct (TicTocDiff st); cbn; try exact Hti;
    reflexivity.
Qed.

Lemma run_calls_keep_start (cs : list call) : forall (st : timers) (ti : Q),
  TicToc st = Suspended ti -> TicToc (run_calls now cs st).2 = Suspended ti.
Proof.
  induction cs as [|c cs IH]; intros st ti Hti; [exact Hti|].
  cbn [run_calls].
  pose proof (run_call_keeps_start c st ti Hti) as Hc.
  destruct (run_call now c st) as [events st'].
  specialize (IH st' ti Hc).
  destruct (run_calls now cs st') as [events' st'']. exact IH.
Qed.

(** Property X22.  [tic] starts the clock of [toc] once only.  After a
    first call of [tic] and any further calls of [tic], [toc], [ticDiff] and
    [tocDiff], [toc] prints the time from the first reading of the clock in
    that first call to its own reading: the generator sets [ti] when it
    starts and never again, so a later [tic] does not restart the clock. *)
Theorem tic_does_not_restart_the_clock (st : timers) (cs : list call) :
  TicToc st = Fresh ->
  let started := (tic now st).2 in
  let later := (run_calls now cs started).2 in
  toc now true later
  = ([Elapsed (now (reads later) - now (reads st))],
     Timers (reads later + 1) (Suspended (now (reads st))) (TicTocDiff later)).
Proof.
  intros Hfresh started later.
  assert (Hstart : TicToc started = Suspended (now (reads st))).
  { unfold started, tic, toc, next_TicToc. rewrite Hfresh. reflexivity. }
  pose proof (run_calls_keep_start cs started _ Hstart) as Hlater.
  fold later in Hlater.
  unfold toc, next_TicToc. rewrite Hlater. reflexivity.
Qed.

End TimingFacts.

Lemma tic_does_not_restart_the_clock_witness :
  let now := fun k : nat => inject_Z (Z.of_nat k) in
  let st := Timing.Timers 0 Timing.Fresh Timing.Fresh in
  Timing.TicToc st = Timing.Fresh
  /\ fst (Timing.toc now true
            (Timing.run_calls now [Timing.tic_call] (Timing.tic now st).2).2)
     = [Timing.Elapsed (now 4%nat - now 0%nat)].
Proof.
  intros now st. split; [reflexivity|].
  exact (f_equal fst
           (tic_does_not_restart_the_clock now st [Timing.tic_call] eq_refl)).
Defined.
